(** * Async Doctor: static analyzer, tracer and correlator

    A shallow embedding of the algorithmic core of the repository:
    - [cli/src/index.ts]       : [runAnalysis] (collect, sort, number findings);
    - [cli/src/rules/*.ts]     : the rule handlers over the syntax tree;
    - [tracer/src/hook.ts]     : the async-hook callbacks and [flush];
    - [server/src/server.ts]   : [parseLocation] and [crossReference].

    Numbers that the code only compares and counts are integers here
    ([Z], [nat]); time stamps are rationals ([Q]: every finite double is
    one, and the sign of a rounded difference of two doubles is the sign of
    their exact difference); strings are sequences of 8-bit code units. *)

From Stdlib Require Import ZArith QArith Lqa String Ascii List Permutation Sorted Lia.
From stdpp Require Import gmap strings list.

Close Scope Q_scope.
Open Scope Z_scope.
Open Scope nat_scope.

(** ** Outcomes of code that may throw *)

Inductive exn : Type := Error (msg : string).

Inductive outcome (A : Type) : Type :=
| Returns (a : A)
| Throws (e : exn).
Arguments Returns {A} a.
Arguments Throws {A} e.

(** ** [Array.prototype.sort]

    ECMAScript specifies [sort] as stable; for a consistent comparator the
    result is therefore determined by the input, whatever algorithm the
    engine runs.  It is computed here by stable insertion.  [before a b]
    stands for "[comparator(a, b) <= 0]": [a] need not move behind [b]. *)

Module JsArray.
Section Sort.
Context {A : Type}.
Variable before : A -> A -> bool.

Fixpoint insert (x : A) (l : list A) : list A :=
    match l with
    | [] => [x]
    | y :: l' => if before x y then x :: l else y :: insert x l'
    end.

Definition sort (l : list A) : list A := foldr insert [] l.

Definition ascending : list A -> Prop :=
    StronglySorted (fun a b => before a b = true).

Hypothesis before_total : forall a b, before a b = true \/ before b a = true.
Hypothesis before_trans :
    forall a b c, before a b = true -> before b c = true -> before a c = true.

Lemma insert_perm x l : Permutation (insert x l) (x :: l).
  Proof using Type.
    induction l as [|y l IH]; simpl; [reflexivity|].
    destruct (before x y); [reflexivity|].
    rewrite IH. apply perm_swap.
  Qed.

Lemma sort_perm l : Permutation (sort l) l.
  Proof using Type.
    induction l as [|x l IH]; simpl; [constructor|].
    rewrite insert_perm. now constructor.
  Qed.

Lemma insert_ascending x l : ascending l -> ascending (insert x l).
  Proof using before_total before_trans.
    unfold ascending.
    induction 1 as [|y l Hl IH Hy]; simpl.
    - repeat constructor.
    - destruct (before x y) eqn:Hxy.
      + constructor; [now constructor|].
        constructor; [exact Hxy|].
        eapply Forall_impl; [exact Hy|].
        intros z Hz. simpl in Hz. eapply before_trans; eassumption.
      + constructor; [exact IH|].
        assert (Hyx : before y x = true)
          by (destruct (before_total x y); congruence).
        eapply Permutation_Forall.
        * symmetry. apply insert_perm.
        * now constructor.
  Qed.

Lemma sort_ascending l : ascending (sort l).
  Proof using before_total before_trans.
    induction l as [|x l IH]; simpl; [constructor|].
    now apply insert_ascending.
  Qed.

  (** Two elements the comparator tells apart can be inserted in either
      order. *)
Lemma insert_insert_lt a b l :
    before a b = true -> before b a = false ->
    insert a (insert b l) = insert b (insert a l).
  Proof using before_trans.
    intros Hab Hba.
    induction l as [|y l IH]; simpl.
    - now rewrite Hab, Hba.
    - destruct (before b y) eqn:Hby; simpl.
      + rewrite Hab, (before_trans a b y Hab Hby). simpl.
        now rewrite Hba, Hby.
      + destruct (before a y) eqn:Hay; simpl.
        * now rewrite Hba, Hby.
        * now rewrite Hby, IH.
  Qed.

Definition distinguished (a b : A) : Prop :=
    before a b = false \/ before b a = false.

Lemma insert_insert a b l :
    distinguished a b -> insert a (insert b l) = insert b (insert a l).
  Proof using before_total before_trans.
    intros [H|H].
    - symmetry. apply insert_insert_lt; [|exact H].
      destruct (before_total a b); congruence.
    - apply insert_insert_lt; [|exact H].
      destruct (before_total a b); congruence.
  Qed.

Lemma insert_foldr a bs s :
    Forall (distinguished a) bs ->
    insert a (foldr insert s bs) = foldr insert (insert a s) bs.
  Proof using before_total before_trans.
    induction 1 as [|b bs Hb _ IH]; simpl; [reflexivity|].
    now rewrite insert_insert, IH.
  Qed.

Lemma sort_app l1 l2 : sort (l1 ++ l2) = foldr insert (sort l2) l1.
  Proof using Type. unfold sort. now rewrite foldr_app. Qed.

  (** Swapping two adjacent blocks whose elements the comparator tells
      apart pairwise does not change the sorted array. *)
Lemma sort_swap_blocks l1 l2 rest :
    Forall (fun a => Forall (distinguished a) l2) l1 ->
    sort (l1 ++ l2 ++ rest) = sort (l2 ++ l1 ++ rest).
  Proof using before_total before_trans.
    intros H. rewrite !sort_app.
    induction H as [|a l1 Ha _ IH]; simpl; [reflexivity|].
    now rewrite IH, insert_foldr.
  Qed.

End Sort.
End JsArray.

(** ** String comparison ([<] and [>] on JavaScript strings)

    Lexicographic on code units, which is [String.compare]. *)

Module JsString.

Definition lt (s1 s2 : string) : bool := String.ltb s1 s2.

Lemma ascii_compare_lt_trans a b c :
    Ascii.compare a b = Lt -> Ascii.compare b c = Lt -> Ascii.compare a c = Lt.
  Proof.
    unfold Ascii.compare. rewrite !N.compare_lt_iff. lia.
  Qed.

Lemma compare_refl s : String.compare s s = Eq.
  Proof.
    induction s as [|a s IH]; simpl; [reflexivity|].
    unfold Ascii.compare. now rewrite N.compare_refl.
  Qed.

Lemma compare_lt_trans s1 : forall s2 s3,
    String.compare s1 s2 = Lt -> String.compare s2 s3 = Lt ->
    String.compare s1 s3 = Lt.
  Proof.
    induction s1 as [|a s1 IH]; intros [|b s2] [|c s3]; simpl;
      try congruence.
    destruct (Ascii.compare a b) eqn:Hab; try discriminate;
      destruct (Ascii.compare b c) eqn:Hbc; try discriminate; intros H1 H2.
    - apply Ascii.compare_eq_iff in Hab, Hbc. subst.
      unfold Ascii.compare. rewrite N.compare_refl. eauto.
    - apply Ascii.compare_eq_iff in Hab. subst. now rewrite Hbc.
    - apply Ascii.compare_eq_iff in Hbc. subst. now rewrite Hab.
    - now rewrite (ascii_compare_lt_trans a b c).
  Qed.

Lemma lt_irrefl s : lt s s = false.
  Proof. unfold lt, String.ltb. now rewrite compare_refl. Qed.

Lemma lt_trans s1 s2 s3 : lt s1 s2 = true -> lt s2 s3 = true -> lt s1 s3 = true.
  Proof.
    unfold lt, String.ltb. intros H1 H2.
    destruct (String.compare s1 s2) eqn:E1; try discriminate.
    destruct (String.compare s2 s3) eqn:E2; try discriminate.
    now rewrite (compare_lt_trans _ _ _ E1 E2).
  Qed.

Lemma lt_asym s1 s2 : lt s1 s2 = true -> lt s2 s1 = false.
  Proof.
    unfold lt, String.ltb. rewrite (String.compare_antisym s2 s1).
    now destruct (String.compare s1 s2).
  Qed.

Lemma lt_connected s1 s2 : lt s1 s2 = false -> lt s2 s1 = false -> s1 = s2.
  Proof.
    unfold lt, String.ltb. rewrite (String.compare_antisym s2 s1).
    destruct (String.compare s1 s2) eqn:E; simpl; try discriminate.
    intros _ _. now apply String.compare_eq_iff.
  Qed.

End JsString.

(** ** The static analyzer: [runAnalysis] of [cli/src/index.ts] *)

Module Analyzer.

  (** A message of [Linter.verify], restricted to the fields read. *)
Record LintMessage : Type := {
    m_line : Z;
    m_column : Z;
    m_ruleId : option string;
    m_message : string;
    m_fix : bool        (* whether the message carries a [fix] object *)
  }.

Record Finding : Type := {
    id : Z;
    file : string;
    line : Z;
    column : Z;
    pattern : string;
    message : string;
    fixable : bool
  }.

Definition set_id (i : Z) (r : Finding) : Finding :=
    {| id := i; file := file r; line := line r; column := column r;
       pattern := pattern r; message := message r; fixable := fixable r |}.

  (** A discovered source file: its path and the text read from it. *)
Definition SourceFile : Type := string * string.

  (** the object pushed for message [m] of file [filePath] *)
Definition toFinding (filePath : string) (m : LintMessage) : Finding :=
    {| id := 0;
       file := filePath;
       line := m_line m;
       column := m_column m;
       pattern := default ""%string (m_ruleId m);
       message := m_message m;
       fixable := m_fix m |}.

  (** the comparator passed to [results.sort] *)
Definition compareFindings (a b : Finding) : Z :=
    if JsString.lt (file a) (file b) then -1
    else if JsString.lt (file b) (file a) then 1
    else if (line a <? line b)%Z then -1
    else if (line b <? line a)%Z then 1
    else (column a - column b)%Z.

Definition before (a b : Finding) : bool := (compareFindings a b <=? 0)%Z.

  (** [results.forEach((res, idx) => { res.id = idx + 1; })] *)
Definition assignIds (results : list Finding) : list Finding :=
    imap (fun idx res => set_id (Z.of_nat idx + 1) res) results.

Section WithLinter.
    (** [linter.verify(code, config, { filename })] with the eight rules
        registered; it returns the messages or throws. *)
Variable verify : string -> string -> outcome (list LintMessage).

    (** [files.forEach(filePath => ...)], pushing onto [results]; nothing
        catches what [verify] throws. *)
Fixpoint collect (files : list SourceFile) (results : list Finding)
      : outcome (list Finding) :=
      match files with
      | [] => Returns results
      | (filePath, code) :: rest =>
          match verify code filePath with
          | Throws e => Throws e
          | Returns messages =>
              collect rest (results ++ List.map (toFinding filePath) messages)
          end
      end.

Definition runAnalysis (files : list SourceFile) : outcome (list Finding) :=
      match collect files [] with
      | Throws e => Throws e
      | Returns results => Returns (assignIds (JsArray.sort before results))
      end.

    (** what the messages of one file contribute *)
Definition findingsOf (f : SourceFile) : list Finding :=
      match verify (snd f) (fst f) with
      | Returns messages => List.map (toFinding (fst f)) messages
      | Throws _ => []
      end.

    (** the exception of the first file on which [verify] throws *)
Fixpoint firstFailure (files : list SourceFile) : option exn :=
      match files with
      | [] => None
      | (filePath, code) :: rest =>
          match verify code filePath with
          | Throws e => Some e
          | Returns _ => firstFailure rest
          end
      end.

End WithLinter.

  (** (file, line, column) in ascending lexicographic order *)
Definition position_le (a b : Finding) : Prop :=
    JsString.lt (file a) (file b) = true \/
    (file a = file b /\
     ((line a < line b)%Z \/ (line a = line b /\ (column a <= column b)%Z))).

(** *** The comparator is a total preorder on positions *)

Lemma before_position_le a b : before a b = true <-> position_le a b.
Proof.
  unfold before, compareFindings, position_le.
  destruct (JsString.lt (file a) (file b)) eqn:Hab.
  { split; [now left | reflexivity]. }
  destruct (JsString.lt (file b) (file a)) eqn:Hba.
  { split; [discriminate|].
    intros [H|[H _]]; [discriminate|].
    rewrite H, JsString.lt_irrefl in Hba. discriminate. }
  pose proof (JsString.lt_connected _ _ Hab Hba) as Hf.
  destruct (Z.ltb_spec (line a) (line b)).
  { split; [|reflexivity]. intros _. right. split; [exact Hf|]. now left. }
  destruct (Z.ltb_spec (line b) (line a)).
  { split; [discriminate|]. intros [?|[_ ?]]; [discriminate|lia]. }
  rewrite Z.leb_le. split.
  - intros Hc. right. split; [exact Hf|]. right. lia.
  - intros [?|[_ ?]]; [discriminate|lia].
Qed.

Lemma position_le_total a b : position_le a b \/ position_le b a.
Proof.
  unfold position_le.
  destruct (JsString.lt (file a) (file b)) eqn:Hab; [now left; left|].
  destruct (JsString.lt (file b) (file a)) eqn:Hba; [now right; left|].
  pose proof (JsString.lt_connected _ _ Hab Hba) as Hf.
  destruct (Z.lt_trichotomy (line a) (line b)) as [H|[H|H]].
  - left. right. split; [exact Hf|]. now left.
  - destruct (Z.le_ge_cases (column a) (column b)).
    + left. right. split; [exact Hf|]. right. lia.
    + right. right. split; [now symmetry|]. right. lia.
  - right. right. split; [now symmetry|]. now left.
Qed.

Lemma position_le_trans a b c :
  position_le a b -> position_le b c -> position_le a c.
Proof.
  unfold position_le.
  intros [Hab|[Hab Hl1]] [Hbc|[Hbc Hl2]].
  - left. eapply JsString.lt_trans; eassumption.
  - left. now rewrite <- Hbc.
  - left. now rewrite Hab.
  - right. split; [congruence|]. lia.
Qed.

Lemma before_total a b : before a b = true \/ before b a = true.
Proof. rewrite !before_position_le. apply position_le_total. Qed.

Lemma before_trans a b c :
  before a b = true -> before b c = true -> before a c = true.
Proof. rewrite !before_position_le. apply position_le_trans. Qed.

Lemma distinguished_files a b :
  file a <> file b -> JsArray.distinguished before a b.
Proof.
  intros Hne. unfold JsArray.distinguished.
  destruct (before a b) eqn:Hab; [|now left].
  destruct (before b a) eqn:Hba; [|now right].
  exfalso. apply Hne.
  apply before_position_le in Hab, Hba.
  destruct Hab as [Hab|[? _]]; [|assumption].
  destruct Hba as [Hba|[? _]]; [|now symmetry].
  apply JsString.lt_asym in Hab. congruence.
Qed.

Lemma ascending_lookup (l : list Finding) :
  JsArray.ascending before l ->
  forall i j a b, i < j -> l !! i = Some a -> l !! j = Some b -> position_le a b.
Proof.
  induction 1 as [|x l Hl IH Hx]; intros i j a b Hij Hi Hj.
  - discriminate.
  - destruct j as [|j]; [lia|]. simpl in Hj.
    destruct i as [|i]; simpl in Hi.
    + inversion Hi; subst. apply before_position_le.
      rewrite Forall_forall in Hx. apply Hx.
      eapply list_elem_of_lookup_2. exact Hj.
    + eapply IH; [|eassumption..]. lia.
Qed.

(** *** Numbering *)

Lemma assignIds_lookup results i :
  assignIds results !! i = set_id (Z.of_nat i + 1) <$> results !! i.
Proof.
  unfold assignIds.
  exact (list_lookup_imap (fun idx res => set_id (Z.of_nat idx + 1) res) results i).
Qed.

Lemma assignIds_forget results :
  List.map (set_id 0) (assignIds results) = List.map (set_id 0) results.
Proof.
  unfold assignIds.
  enough (H : forall g : nat -> Z,
    List.map (set_id 0) (imap (fun idx res => set_id (g idx) res) results) =
    List.map (set_id 0) results) by apply (H (fun idx => Z.of_nat idx + 1)%Z).
  induction results as [|r results IH]; intros g; [reflexivity|].
  simpl. f_equal. apply (IH (fun idx => g (S idx))).
Qed.

Section Reproducible.
Variable verify : string -> string -> outcome (list LintMessage).

Lemma collect_unfold files results :
  collect verify files results =
  match firstFailure verify files with
  | Some e => Throws e
  | None => Returns (results ++ concat (List.map (findingsOf verify) files))
  end.
Proof.
  revert results.
  induction files as [|[filePath code] files IH]; intros results; simpl.
  - now rewrite app_nil_r.
  - unfold findingsOf at 1. simpl.
    destruct (verify code filePath) as [messages|e]; [|reflexivity].
    rewrite IH. destruct (firstFailure verify files); [reflexivity|].
    now rewrite app_assoc.
Qed.

Lemma firstFailure_None files :
  firstFailure verify files = None <->
  Forall (fun f => exists ms, verify (snd f) (fst f) = Returns ms) files.
Proof.
  induction files as [|[filePath code] files IH]; simpl.
  - split; [constructor|reflexivity].
  - rewrite Forall_cons. simpl. rewrite <- IH.
    destruct (verify code filePath) as [ms|e].
    + split; [intros H; split; eauto | now intros [_ H]].
    + split; [discriminate | intros [[ms Hms] _]; discriminate].
Qed.

Lemma findingsOf_file f r : In r (findingsOf verify f) -> file r = fst f.
Proof.
  unfold findingsOf. destruct (verify (snd f) (fst f)); [|intros []].
  rewrite in_map_iff. now intros (m & <- & _).
Qed.

Lemma findingsOf_fresh f r : In r (findingsOf verify f) -> set_id 0 r = r.
Proof.
  unfold findingsOf. destruct (verify (snd f) (fst f)); [|intros []].
  rewrite in_map_iff. now intros (m & <- & _).
Qed.

(** The sorted array does not depend on the order in which the files were
    enumerated, as long as no path is listed twice. *)
Lemma sort_enumeration files files' :
  Permutation files files' ->
  NoDup (List.map fst files) ->
  JsArray.sort before (concat (List.map (findingsOf verify) files)) =
  JsArray.sort before (concat (List.map (findingsOf verify) files')).
Proof.
  induction 1 as [|x l l' Hp IH|x y l|l l' l'' Hp1 IH1 Hp2 IH2]; intros Hnd.
  - reflexivity.
  - simpl. rewrite !JsArray.sort_app, IH; [reflexivity|].
    simpl in Hnd. now apply NoDup_cons_1_2 in Hnd.
  - simpl. rewrite !app_assoc, <- !(app_assoc _ _ (concat _)).
    apply JsArray.sort_swap_blocks; [apply before_total|apply before_trans|].
    simpl in Hnd. apply NoDup_cons in Hnd as [Hy _].
    rewrite Forall_forall. intros a Ha. rewrite Forall_forall. intros b Hb.
    apply distinguished_files.
    apply list_elem_of_In, findingsOf_file in Ha.
    apply list_elem_of_In, findingsOf_file in Hb.
    rewrite Ha, Hb. intros Heq. apply Hy. rewrite <- Heq. now left.
  - rewrite IH1, IH2; [reflexivity| |assumption].
    now rewrite <- (Permutation_map fst Hp1).
Qed.

End Reproducible.

(** *** Reproducibility of the report *)

(** C1: runAnalysis sorts the collected findings by (file, line, column)
    ascending and then numbers them 1, 2, 3, ...; the report is therefore
    the same, ids included, for every order in which the same files (each
    path once) are enumerated.  The report holds exactly the collected
    findings, the finding at index [i] has id [i + 1], and findings at
    increasing indices have ascending positions. *)
Theorem runAnalysis_reproducible
  (verify : string -> string -> outcome (list LintMessage))
  (files files' : list SourceFile) (report : list Finding) :
  NoDup (List.map fst files) ->
  Permutation files files' ->
  runAnalysis verify files = Returns report ->
  runAnalysis verify files' = Returns report /\
  Permutation (List.map (set_id 0) report)
              (concat (List.map (findingsOf verify) files)) /\
  (forall i j a b, i < j -> report !! i = Some a -> report !! j = Some b ->
                   position_le a b) /\
  (forall i a, report !! i = Some a -> id a = (Z.of_nat i + 1)%Z).
Proof.
  intros Hnd Hperm. unfold runAnalysis. rewrite !collect_unfold.
  destruct (firstFailure verify files) eqn:Hff; [discriminate|].
  intros [= <-]. simpl.
  assert (Hff' : firstFailure verify files' = None).
  { apply firstFailure_None. rewrite <- Hperm. now apply firstFailure_None. }
  rewrite Hff'. simpl.
  rewrite <- (sort_enumeration verify files files' Hperm Hnd).
  split; [reflexivity|]. split; [|split].
  - rewrite assignIds_forget.
    rewrite (Permutation_map _ (JsArray.sort_perm before _)).
    erewrite map_ext_in; [rewrite map_id; reflexivity|].
    intros r Hr. apply in_concat in Hr as (l & Hl & Hr).
    apply in_map_iff in Hl as (f & <- & _).
    eapply findingsOf_fresh, Hr.
  - intros i j a b Hij. rewrite !assignIds_lookup.
    destruct (JsArray.sort before _ !! i) as [a0|] eqn:Hi; [|discriminate].
    destruct (JsArray.sort before _ !! j) as [b0|] eqn:Hj; [|discriminate].
    simpl. intros [= <-] [= <-].
    change (position_le a0 b0).
    eapply ascending_lookup; [|exact Hij|exact Hi|exact Hj].
    apply JsArray.sort_ascending; [apply before_total|apply before_trans].
  - intros i a. rewrite assignIds_lookup.
    destruct (JsArray.sort before _ !! i); [|discriminate].
    simpl. now intros [= <-].
Qed.

(** A linter that reports one message per file, at a line that depends on
    the file. *)
Definition sample_verify (code filePath : string) : outcome (list LintMessage) :=
  Returns [ {| m_line := Z.of_nat (String.length code); m_column := 5;
               m_ruleId := Some "await-in-loop"%string;
               m_message := filePath; m_fix := false |} ].

Lemma runAnalysis_reproducible_witness :
  runAnalysis sample_verify [("a.js", "xx"); ("b.js", "x")]%string =
    Returns [ {| id := 1; file := "a.js"; line := 2; column := 5;
                 pattern := "await-in-loop"; message := "a.js";
                 fixable := false |};
              {| id := 2; file := "b.js"; line := 1; column := 5;
                 pattern := "await-in-loop"; message := "b.js";
                 fixable := false |} ]%string.
Proof.
  refine (proj1 (runAnalysis_reproducible sample_verify
           [("b.js", "x"); ("a.js", "xx")]%string
           [("a.js", "xx"); ("b.js", "x")]%string _ _ _ _)).
  - apply (bool_decide_unpack _). vm_compute. exact I.
  - apply perm_swap.
  - vm_compute. reflexivity.
Defined.

(** *** Exceptions of the linter *)

(** C5 as the specification states it: whatever a rule throws, a report
    comes back and holds the findings of every file the linter got
    through. *)
Definition survives_rule_exceptions : Prop :=
  forall (verify : string -> string -> outcome (list LintMessage))
         (files : list SourceFile),
  exists report,
    runAnalysis verify files = Returns report /\
    forall f messages m,
      In f files -> verify (snd f) (fst f) = Returns messages -> In m messages ->
      exists r, In r report /\ set_id 0 r = toFinding (fst f) m.

(** A linter in which a rule throws while [b.js] is traversed. *)
Definition crashing_verify (code filePath : string) : outcome (list LintMessage) :=
  if String.eqb filePath "b.js"
  then Throws (Error "TypeError: Cannot read properties of undefined")
  else sample_verify code filePath.

(** C5, counterexample: with three files of which the second makes a rule
    throw, [runAnalysis] ends with that exception and yields no report, so
    the findings of [a.js] and [c.js] are lost as well. *)
Lemma rule_exception_aborts :
  runAnalysis crashing_verify [("a.js", "x"); ("b.js", "x"); ("c.js", "x")]%string
    = Throws (Error "TypeError: Cannot read properties of undefined") /\
  ~ survives_rule_exceptions.
Proof.
  split; [reflexivity|].
  intros H.
  destruct (H crashing_verify [("a.js", "x"); ("b.js", "x"); ("c.js", "x")]%string)
    as (report & Hr & _).
  discriminate Hr.
Qed.

(** C5 (amended): [runAnalysis] installs no handler around [linter.verify].
    If the linter throws on some file (as it does when a rule throws), the
    exception of the first such file leaves [runAnalysis] and no report is
    produced; if it returns for every file, the report is produced and
    holds a finding for every message of every file. *)
Theorem runAnalysis_propagates
  (verify : string -> string -> outcome (list LintMessage))
  (files : list SourceFile) :
  match firstFailure verify files with
  | Some e => runAnalysis verify files = Throws e
  | None =>
      exists report,
        runAnalysis verify files = Returns report /\
        forall f messages m,
          In f files -> verify (snd f) (fst f) = Returns messages ->
          In m messages ->
          exists r, In r report /\ set_id 0 r = toFinding (fst f) m
  end.
Proof.
  unfold runAnalysis. rewrite collect_unfold.
  destruct (firstFailure verify files) eqn:Hff; [reflexivity|].
  eexists. split; [reflexivity|].
  intros f messages m Hf Hv Hm. simpl.
  set (sorted := JsArray.sort before _).
  assert (Hin : In (toFinding (fst f) m) (List.map (set_id 0) (assignIds sorted))).
  { rewrite assignIds_forget. subst sorted.
    eapply Permutation_in.
    - symmetry. apply Permutation_map, JsArray.sort_perm.
    - apply in_map_iff. exists (toFinding (fst f) m). split; [reflexivity|].
      apply in_concat. exists (findingsOf verify f). split.
      + now apply in_map.
      + unfold findingsOf. rewrite Hv. now apply in_map. }
  apply in_map_iff in Hin as (r & Hr & Hin). eauto.
Qed.

End Analyzer.

(** ** The tracer: [tracer/src/hook.ts] *)

Module Tracer.

Inductive Origin : Type := user | library | io.

Record PromiseEvent : Type := {
  id : Z;
  triggerId : Z;
  type : string;
  start : Q;                   (* ms since tracer start *)
  end_ : option Q;             (* the optional field [end] *)
  location : option string;
  origin : option Origin;
  stack : option string
}.

(** what [captureLocation()] returns *)
Record CallSite : Type := {
  cs_location : option string;
  cs_origin : option Origin;
  cs_stack : option string
}.

(** [evt.end = t], an update in place of the object held by the map *)
Definition with_end (evt : PromiseEvent) (t : Q) : PromiseEvent :=
  {| id := id evt; triggerId := triggerId evt; type := type evt;
     start := start evt; end_ := Some t; location := location evt;
     origin := origin evt; stack := stack evt |}.

(** [const events = new Map<number, PromiseEvent>()]: a JavaScript [Map]
    iterates in insertion order, and [set] on a present key keeps the
    key's place. *)
Definition EventMap : Type := list (Z * PromiseEvent).

Fixpoint get (k : Z) (m : EventMap) : option PromiseEvent :=
  match m with
  | [] => None
  | (k', v) :: m' => if (k' =? k)%Z then Some v else get k m'
  end.

Fixpoint set (k : Z) (v : PromiseEvent) (m : EventMap) : EventMap :=
  match m with
  | [] => [(k, v)]
  | (k', v') :: m' => if (k' =? k)%Z then (k, v) :: m' else (k', v') :: set k v m'
  end.

Definition values (m : EventMap) : list PromiseEvent := List.map snd m.

(** *** The hook callbacks.  [now] is the value [nowRel()] has when the
    callback runs, [meta] what [captureLocation()] finds. *)

Definition init (asyncId : Z) (type : string) (triggerAsyncId : Z)
    (meta : CallSite) (now : Q) (events : EventMap) : EventMap :=
  if negb (String.eqb type "PROMISE") then events
  else set asyncId
         {| id := asyncId; triggerId := triggerAsyncId; type := type;
            start := now; end_ := None; location := cs_location meta;
            origin := cs_origin meta; stack := cs_stack meta |}
         events.

Definition promiseResolve (asyncId : Z) (now : Q) (events : EventMap) : EventMap :=
  match get asyncId events with
  | Some evt =>
      match end_ evt with
      | None => set asyncId (with_end evt now) events
      | Some _ => events
      end
  | None => events
  end.

Definition destroy (asyncId : Z) (now : Q) (events : EventMap) : EventMap :=
  match get asyncId events with
  | Some evt =>
      match end_ evt with
      | None => set asyncId (with_end evt now) events
      | Some _ => events
      end
  | None => events
  end.

(** One invocation of a callback by the runtime. *)
Inductive Callback : Type :=
| Init (asyncId : Z) (type : string) (triggerAsyncId : Z) (meta : CallSite) (now : Q)
| PromiseResolve (asyncId : Z) (now : Q)
| Destroy (asyncId : Z) (now : Q).

Definition step (events : EventMap) (c : Callback) : EventMap :=
  match c with
  | Init a ty tr meta now => init a ty tr meta now events
  | PromiseResolve a now => promiseResolve a now events
  | Destroy a now => destroy a now events
  end.

Definition run (cs : list Callback) (events : EventMap) : EventMap :=
  foldl step events cs.

(** settlement and teardown callbacks *)
Definition completion (c : Callback) : bool :=
  match c with
  | Init _ _ _ _ _ => false
  | PromiseResolve _ _ | Destroy _ _ => true
  end.

(** the time of the first settlement or teardown of task [i] in [cs] *)
Fixpoint firstCompletion (i : Z) (cs : list Callback) : option Q :=
  match cs with
  | [] => None
  | PromiseResolve a t :: cs' | Destroy a t :: cs' =>
      if (a =? i)%Z then Some t else firstCompletion i cs'
  | Init _ _ _ _ _ :: cs' => firstCompletion i cs'
  end.

Lemma get_set_same k v m : get k (set k v m) = Some v.
Proof.
  induction m as [|[k' v'] m IH]; simpl.
  - now rewrite Z.eqb_refl.
  - destruct (k' =? k)%Z eqn:E; simpl; [now rewrite Z.eqb_refl | now rewrite E].
Qed.

Lemma get_set_other k k' v m : k <> k' -> get k' (set k v m) = get k' m.
Proof.
  intros Hne. induction m as [|[k0 v0] m IH]; simpl.
  - destruct (Z.eqb_spec k k'); [contradiction|reflexivity].
  - destruct (Z.eqb_spec k0 k) as [->|Hk]; simpl.
    + destruct (Z.eqb_spec k k'); [contradiction|reflexivity].
    + now rewrite IH.
Qed.

Lemma step_completion_get events c i evt :
  completion c = true -> get i events = Some evt ->
  get i (step events c) =
    Some match end_ evt, firstCompletion i [c] with
         | None, Some t => with_end evt t
         | _, _ => evt
         end.
Proof.
  intros Hc Hget.
  assert (Hclose : forall a t,
    get i (promiseResolve a t events) =
      Some match end_ evt, (if (a =? i)%Z then Some t else None) with
           | None, Some t => with_end evt t
           | _, _ => evt
           end).
  { intros a t. unfold promiseResolve.
    destruct (Z.eqb_spec a i) as [->|Hne].
    - rewrite Hget. destruct (end_ evt); [exact Hget|apply get_set_same].
    - destruct (get a events) as [ea|]; [|now rewrite Hget; destruct (end_ evt)].
      destruct (end_ ea).
      + rewrite Hget. now destruct (end_ evt).
      + rewrite get_set_other, Hget by assumption. now destruct (end_ evt). }
  destruct c as [| a t | a t]; [discriminate| |]; simpl.
  - rewrite Hclose. now destruct (a =? i)%Z.
  - change (destroy a t events) with (promiseResolve a t events).
    rewrite Hclose. now destruct (a =? i)%Z.
Qed.

(** C2: the end time stamp of a task's record is assigned once.  Over any
    run of settlement ([promiseResolve]) and teardown ([destroy])
    callbacks, a record whose [end] is set keeps its [end] (and every other
    field); a record whose [end] is unset receives the time of the first
    of these callbacks for its id, and nothing after that changes it. *)
Theorem end_single_assignment (cs : list Callback) (events : EventMap)
    (i : Z) (evt : PromiseEvent) :
  Forall (fun c => completion c = true) cs ->
  get i events = Some evt ->
  get i (run cs events) =
    Some match end_ evt, firstCompletion i cs with
         | None, Some t => with_end evt t
         | _, _ => evt
         end.
Proof.
  intros Hcs. revert events evt.
  induction Hcs as [|c cs Hc _ IH]; intros events evt Hget.
  - simpl. rewrite Hget. now destruct (end_ evt).
  - unfold run. simpl. fold (run cs (step events c)).
    pose proof (step_completion_get events c i evt Hc Hget) as Hstep.
    rewrite (IH _ _ Hstep). f_equal.
    destruct c as [| a t | a t]; [discriminate| |]; simpl;
      destruct (a =? i)%Z; destruct (end_ evt) eqn:E; simpl; rewrite ?E;
      try reflexivity; now destruct (firstCompletion i cs).
Qed.

(** A task created at 1 ms, then torn down at 5 ms, then settled at 7 ms and
    torn down again at 9 ms: its [end] stays 5. *)
Lemma end_single_assignment_witness :
  end_ <$> get 7 (run [Destroy 7 5%Q; PromiseResolve 7 7%Q; Destroy 7 9%Q]
                    (init 7 "PROMISE" 1 (Build_CallSite None None None) 1%Q []))
  = Some (Some 5%Q).
Proof.
  rewrite (end_single_assignment
             [Destroy 7 5%Q; PromiseResolve 7 7%Q; Destroy 7 9%Q]
             (init 7 "PROMISE" 1 (Build_CallSite None None None) 1%Q [])
             7
             {| id := 7; triggerId := 1; type := "PROMISE"; start := 1%Q;
                end_ := None; location := None; origin := None;
                stack := None |}).
  - reflexivity.
  - repeat constructor.
  - reflexivity.
Defined.

(** *** Flushing the trace on exit *)

(** a line written by [console.error] *)
Inductive LogLine : Type :=
| Wrote (n : nat) (path : string)      (* "wrote n events to path" *)
| FailedToWrite (e : exn).             (* "failed to write trace:" e *)

(** What [flush] and the exit listeners act on: the event map, the files
    on disk, the terminal, and the exit code once [process.exit] ran. *)
Record World : Type := {
  events : EventMap;
  disk : gmap string string;
  stderr : list LogLine;
  exitCode : option Z
}.

(** Computations that read and change the world and may throw. *)
Definition M (A : Type) : Type := World -> outcome A * World.






(** the comparator of [arr.sort((a, b) => a.start - b.start)] *)
Definition compareStart (a b : PromiseEvent) : Q := (start a - start b)%Q.

Definition before (a b : PromiseEvent) : bool := Qle_bool (compareStart a b) 0.


Section Flush.
(** [OUT_PATH]; [JSON.stringify(arr, null, 2)]; [path.dirname]; and the
    file system, which may refuse either call: [mkdir_fault] and
    [write_fault] give the exception [fs.mkdirSync] and [fs.writeFileSync]
    throw, if any, on the disk as it is. *)
Variable OUT_PATH : string.
Variable stringify : list PromiseEvent -> string.
Variable dirname : string -> string.
Variable mkdir_fault : string -> gmap string string -> option exn.
Variable write_fault : string -> string -> gmap string string -> option exn.


Definition writeFileSync (file data : string) : M unit :=
  fun w =>
    match write_fault file data (disk w) with
    | Some e => (Throws e, w)
    | None => (Returns tt,
               {| events := events w; disk := <[file := data]> (disk w);
                  stderr := stderr w; exitCode := exitCode w |})
    end.






(** what [flush] writes *)
Definition traceContent (w : World) : string :=
  stringify (JsArray.sort before (values (events w))).

(** the world [flush] leaves *)
Definition flushed (w : World) : World :=
  match write_fault OUT_PATH (traceContent w) (disk w) with
  | None =>
      {| events := events w;
         disk := <[OUT_PATH := traceContent w]> (disk w);
         stderr := stderr w ++
                   [Wrote (length (JsArray.sort before (values (events w))))
                          OUT_PATH];
         exitCode := exitCode w |}
  | Some e =>
      {| events := events w; disk := disk w;
         stderr := stderr w ++ [FailedToWrite e]; exitCode := exitCode w |}
  end.


Lemma events_flushed w : events (flushed w) = events w.
Proof using Type.
  unfold flushed. now destruct (write_fault OUT_PATH _ (disk w)).
Qed.

Lemma traceContent_flushed w : traceContent (flushed w) = traceContent w.
Proof using Type. unfold traceContent. now rewrite events_flushed. Qed.

Lemma disk_flushed w :
  disk (flushed w) =
  match write_fault OUT_PATH (traceContent w) (disk w) with
  | None => <[OUT_PATH := traceContent w]> (disk w)
  | Some _ => disk w
  end.
Proof using Type.
  unfold flushed. now destruct (write_fault OUT_PATH _ (disk w)).
Qed.

(** Once the trace is on disk, flushing again leaves the disk as it is. *)
Lemma disk_flushed_again w :
  disk (flushed w) = <[OUT_PATH := traceContent w]> (disk w) ->
  disk (flushed (flushed w)) = disk (flushed w).
Proof using Type.
  intros H. rewrite (disk_flushed (flushed w)), traceContent_flushed.
  destruct (write_fault _ _ (disk (flushed w))); [reflexivity|].
  rewrite H. apply insert_insert_eq.
Qed.

End Flush.





End Tracer.

(** ** The correlator: [parseLocation] and [crossReference] of
    [server/src/server.ts] *)

Module Correlator.

(** A finding of the stored report, with the fields [crossReference] reads. *)
Record Finding : Type := {
  id : Z;
  file : string;
  funcStart : Z;
  funcSnippet : option string;
  rule : string
}.

(** A trace event, with the fields [crossReference] reads. *)
Record TraceEvent : Type := {
  location : option string;     (* "path:line:col" or "path:line" *)
  origin : option string
}.

(** *** Regular expressions of the correlator *)

Definition is_digit (c : ascii) : bool :=
  (48 <=? nat_of_ascii c) && (nat_of_ascii c <=? 57).

(** [.] matches any code unit but a line terminator *)
Definition is_line_terminator (c : ascii) : bool :=
  (nat_of_ascii c =? 10) || (nat_of_ascii c =? 13).

(** the longest run of digits at the head of [s], and what follows it *)
Fixpoint span_digits (s : string) : string * string :=
  match s with
  | String c s' =>
      if is_digit c
      then let (ds, rest) := span_digits s' in (String c ds, rest)
      else (EmptyString, s)
  | EmptyString => (EmptyString, EmptyString)
  end.

Definition is_empty (s : string) : bool :=
  match s with EmptyString => true | _ => false end.

(** [:(\d+)(?::\d+)?$] matched at the head of [s]; the result is group 2.
    [\d+] takes the longest run of digits (giving digits back cannot help,
    a digit would follow); then either the input ends, or [:] and digits
    up to the end follow. *)
Definition match_tail (s : string) : option string :=
  match s with
  | String ":" s1 =>
      let (ds, rest) := span_digits s1 in
      if is_empty ds then None
      else match rest with
           | EmptyString => Some ds
           | String ":" s2 =>
               let (ds2, rest2) := span_digits s2 in
               if negb (is_empty ds2) && is_empty rest2 then Some ds else None
           | _ => None
           end
  | _ => None
  end.

(** The pattern of [parseLocation] against [s]: a greedy group of any
    code units but line terminators (group 1), then what [match_tail]
    matches.  The greedy group first takes as much as it can and gives
    code units back one at a time until the rest matches, so group 1 is
    the longest prefix after which [match_tail] succeeds.  The result is
    (group 1, group 2). *)
Fixpoint match_location (s : string) : option (string * string) :=
  match s with
  | EmptyString => None
  | String c s' =>
      match (if is_line_terminator c then None else match_location s') with
      | Some (g1, g2) => Some (String c g1, g2)
      | None =>
          match match_tail s with
          | Some g2 => Some (EmptyString, g2)
          | None => None
          end
      end
  end.

(** [Number(digits)] for a string of decimal digits *)
Definition Number (digits : string) : Z :=
  fold_left (fun n c => (10 * n + (Z.of_nat (nat_of_ascii c) - 48))%Z)
            (list_ascii_of_string digits) 0%Z.

Record Location : Type := { abs : string; line : Z }.

Definition parseLocation (loc : string) : option Location :=
  match (if is_empty loc then None else match_location loc) with
  | None => None
  | Some (g1, g2) =>
      Some {| abs := g1;
              line := if (Number g2 =? 0)%Z then 0%Z else Number g2 |}
  end.

(** [s.split(/\r?\n/)] *)
Fixpoint split_lines_from (s : string) (current : string) : list string :=
  match s with
  | EmptyString => [current]
  | String c s' =>
      if (nat_of_ascii c =? 10) then current :: split_lines_from s' EmptyString
      else if (nat_of_ascii c =? 13) then
        match s' with
        | String c' s'' =>
            if (nat_of_ascii c' =? 10)
            then current :: split_lines_from s'' EmptyString
            else split_lines_from s' (current ++ String c EmptyString)
        | EmptyString => split_lines_from s' (current ++ String c EmptyString)
        end
      else split_lines_from s' (current ++ String c EmptyString)
  end.

Definition split_lines (s : string) : list string := split_lines_from s EmptyString.

(** [s.replace(/\\/g, '/')] *)
Fixpoint slashes (s : string) : string :=
  match s with
  | EmptyString => EmptyString
  | String c s' => String (if (nat_of_ascii c =? 92) then "/"%char else c) (slashes s')
  end.

(** *** [crossReference] *)

Record FnRange : Type := {
  r_id : Z;
  r_file : string;
  r_start : Z;
  r_end : Z;
  r_rule : string
}.

Definition fnRange (f : Finding) : FnRange :=
  let n := length (split_lines (default EmptyString (funcSnippet f))) in
  let fnLen := if n =? 0 then 1 else n in
  {| r_id := id f; r_file := file f; r_start := funcStart f;
     r_end := (funcStart f + Z.of_nat fnLen - 1)%Z; r_rule := rule f |}.

Record Summary : Type := {
  totalTraceEvents : nat;
  userEvents : nat;
  libEvents : nat;
  executedFindingCount : nat;
  byRuleExecuted : gmap string nat
}.

Record Overlay : Type := {
  execCounts : gmap Z nat;
  summary : Summary
}.

(** [m[k] = (m[k] || 0) + 1] *)
Definition bump `{Countable K} (k : K) (m : gmap K nat) : gmap K nat :=
  <[k := default 0 (m !! k) + 1]> m.

(** the variables the loop over the events updates *)
Record Counters : Type := {
  c_execCounts : gmap Z nat;
  c_byRuleExecuted : gmap string nat;
  c_userEvents : nat;
  c_libEvents : nat
}.

Definition executes (rel : string) (loc : Location) (r : FnRange) : bool :=
  String.eqb (r_file r) rel && (r_start r <=? line loc)%Z && (line loc <=? r_end r)%Z.

(** [ev.location && parseLocation(ev.location)] *)
Definition resolve (ev : TraceEvent) : option Location :=
  match location ev with
  | Some l => parseLocation l
  | None => None
  end.

Section CrossReference.
(** [path.relative] of Node *)
Variable relative : string -> string -> string.

(** the inner loop, over the function ranges *)
Definition correlate (rel : string) (loc : Location)
    (fnRanges : list FnRange) (c : Counters) : Counters :=
  foldl (fun c r =>
           if executes rel loc r
           then {| c_execCounts := bump (r_id r) (c_execCounts c);
                   c_byRuleExecuted := bump (r_rule r) (c_byRuleExecuted c);
                   c_userEvents := c_userEvents c;
                   c_libEvents := c_libEvents c |}
           else c)
        c fnRanges.

(** the body of the loop over the events *)
Definition visit (root : string) (fnRanges : list FnRange)
    (c : Counters) (ev : TraceEvent) : Counters :=
  match resolve ev with
  | None => c                                       (* [continue] *)
  | Some loc =>
      let rel := slashes (relative root (abs loc)) in
      let c := correlate rel loc fnRanges c in
      if bool_decide (origin ev = Some "user"%string)
      then {| c_execCounts := c_execCounts c;
              c_byRuleExecuted := c_byRuleExecuted c;
              c_userEvents := S (c_userEvents c);
              c_libEvents := c_libEvents c |}
      else {| c_execCounts := c_execCounts c;
              c_byRuleExecuted := c_byRuleExecuted c;
              c_userEvents := c_userEvents c;
              c_libEvents := S (c_libEvents c) |}
  end.

(** [report] is [Some findings] when [report?.findings] is an array. *)
Definition crossReference (root : string) (report : option (list Finding))
    (events : list TraceEvent) : Overlay :=
  let findings := default [] report in
  let fnRanges := List.map fnRange findings in
  let c := foldl (visit root fnRanges)
                 {| c_execCounts := ∅; c_byRuleExecuted := ∅;
                    c_userEvents := 0; c_libEvents := 0 |}
                 events in
  {| execCounts := c_execCounts c;
     summary := {| totalTraceEvents := length events;
                   userEvents := c_userEvents c;
                   libEvents := c_libEvents c;
                   executedFindingCount := size (c_execCounts c);
                   byRuleExecuted := c_byRuleExecuted c |} |}.

End CrossReference.

Example parse_two_parts :
  parseLocation "/proj/a.js:12" = Some {| abs := "/proj/a.js"; line := 12 |}.
Proof. reflexivity. Qed.

Example parse_no_line : parseLocation "/proj/a.js" = None.
Proof. reflexivity. Qed.

Example split_lines_crlf :
  split_lines ("a" ++ String (ascii_of_nat 13) (String (ascii_of_nat 10) "b") ++
               String (ascii_of_nat 10) "c" ++ String (ascii_of_nat 13) "d")%string
  = ["a"; "b"; "c" ++ String (ascii_of_nat 13) "d"]%string.
Proof. reflexivity. Qed.

Example slashes_windows :
  slashes ("src" ++ String (ascii_of_nat 92) "a.js")%string = "src/a.js"%string.
Proof. reflexivity. Qed.


(** *** Locations with a column *)

Lemma span_digits_all ds :
  forallb is_digit (list_ascii_of_string ds) = true ->
  span_digits ds = (ds, EmptyString).
Proof.
  induction ds as [|c ds IH]; simpl; [reflexivity|].
  intros H. apply andb_prop in H as [Hc Hds].
  now rewrite Hc, IH.
Qed.

Lemma match_location_digits ds :
  forallb is_digit (list_ascii_of_string ds) = true ->
  match_location ds = None.
Proof.
  induction ds as [|c ds IH]; simpl; [reflexivity|].
  intros H. apply andb_prop in H as [Hc Hds].
  rewrite (IH Hds).
  assert (Hcolon : c <> ":"%char) by (intros ->; discriminate Hc).
  destruct (is_line_terminator c).
  - destruct c as [[] [] [] [] [] [] [] []]; try reflexivity; now elim Hcolon.
  - destruct c as [[] [] [] [] [] [] [] []]; try reflexivity; now elim Hcolon.
Qed.

(** Every location that ends in [:digits] after a prefix free of line
    terminators is split at its last colon: for [path:line:col] group 1 is
    [path:line] and the number taken for the line is [col]. *)
Lemma match_location_last_colon prefix ds :
  forallb (fun c => negb (is_line_terminator c)) (list_ascii_of_string prefix) = true ->
  forallb is_digit (list_ascii_of_string ds) = true ->
  ds <> EmptyString ->
  match_location (prefix ++ String ":" ds) = Some (prefix, ds).
Proof.
  intros Hp Hds Hne.
  induction prefix as [|c prefix IH]; simpl.
  - rewrite (match_location_digits ds Hds), (span_digits_all ds Hds).
    destruct ds; [contradiction|reflexivity].
  - simpl in Hp. apply andb_prop in Hp as [Hc Hp].
    apply negb_true_iff in Hc. now rewrite Hc, (IH Hp).
Qed.

(** the finding of the specification's example: lines 10 to 14 of [a.js] *)
Definition sample_finding : Finding :=
  {| id := 1; file := "a.js"; funcStart := 10;
     funcSnippet := Some "async function f() {
  for (const x of xs) {
    await g(x);
  }
}"%string;
     rule := "await-in-loop" |}.

Example sample_finding_range :
  (r_start (fnRange sample_finding), r_end (fnRange sample_finding)) = (10%Z, 14%Z).
Proof. reflexivity. Qed.

(** [path.relative] when [abs] lies under [root]: the path below the root *)
Definition below_root (root abs : string) : string :=
  if String.prefix (root ++ "/") abs
  then String.substring (String.length root + 1)
         (String.length abs - (String.length root + 1)) abs
  else abs.

(** The example of the specification, with the location in the form
    [path:line]: the finding is counted once at line 12, not at line 20. *)
Example two_part_location_counts :
  execCounts (crossReference below_root "/proj" (Some [sample_finding])
                [ {| location := Some "/proj/a.js:12"%string; origin := Some "user"%string |} ])
    = {[ 1%Z := 1 ]} /\
  execCounts (crossReference below_root "/proj" (Some [sample_finding])
                [ {| location := Some "/proj/a.js:20"%string; origin := Some "user"%string |} ])
    = ∅.
Proof. split; reflexivity. Qed.

(** C3, at an input on which the code departs from the specification: an event
    located at [/proj/a.js:12:7] (line 12, column 7, the form the tracer
    writes) lies in the range 10..14 of the finding in [a.js], yet
    [parseLocation] yields the path [/proj/a.js:12] and the line 7, and no
    counter is incremented, whatever [path.relative] returns. *)
Theorem column_taken_for_line (relative : string -> string -> string) (root : string) :
  parseLocation "/proj/a.js:12:7" =
    Some {| abs := "/proj/a.js:12"; line := 7 |} /\
  execCounts (crossReference relative root (Some [sample_finding])
                [ {| location := Some "/proj/a.js:12:7"%string;
                     origin := Some "user"%string |} ]) = ∅ /\
  byRuleExecuted (summary (crossReference relative root (Some [sample_finding])
                [ {| location := Some "/proj/a.js:12:7"%string;
                     origin := Some "user"%string |} ])) = ∅.
Proof.
  split; [reflexivity|].
  unfold crossReference, visit, resolve. simpl.
  change (parseLocation "/proj/a.js:12:7")
    with (Some {| abs := "/proj/a.js:12"; line := 7 |}).
  simpl. unfold executes. simpl.
  rewrite andb_false_r. simpl. split; reflexivity.
Qed.

(** *** Events that are skipped *)

Definition shift (u l : nat) (c : Counters) : Counters :=
  {| c_execCounts := c_execCounts c;
     c_byRuleExecuted := c_byRuleExecuted c;
     c_userEvents := u + c_userEvents c;
     c_libEvents := l + c_libEvents c |}.

Section Skipped.
Variable relative : string -> string -> string.
Variable root : string.
Variable fnRanges : list FnRange.

Lemma correlate_shift rel loc u l rs c :
  correlate rel loc rs (shift u l c) = shift u l (correlate rel loc rs c).
Proof using Type.
  revert c. induction rs as [|r rs IH]; intros c; [reflexivity|].
  unfold correlate in *. simpl.
  destruct (executes rel loc r); [|apply IH].
  rewrite <- IH. reflexivity.
Qed.

Lemma visit_shift u l c ev :
  visit relative root fnRanges (shift u l c) ev =
  shift u l (visit relative root fnRanges c ev).
Proof using Type.
  unfold visit. destruct (resolve ev) as [loc|]; [|reflexivity].
  rewrite correlate_shift.
  destruct (bool_decide _); unfold shift; simpl; f_equal; lia.
Qed.

Lemma foldl_visit_shift u l evs c :
  foldl (visit relative root fnRanges) (shift u l c) evs =
  shift u l (foldl (visit relative root fnRanges) c evs).
Proof using Type.
  revert c. induction evs as [|ev evs IH]; intros c; [reflexivity|].
  simpl. now rewrite visit_shift, IH.
Qed.

Lemma correlate_no_match rel loc rs c :
  forallb (fun r => negb (executes rel loc r)) rs = true ->
  correlate rel loc rs c = c.
Proof using Type.
  revert c. induction rs as [|r rs IH]; intros c; [reflexivity|].
  simpl. intros H. apply andb_prop in H as [Hr Hrs].
  apply negb_true_iff in Hr. unfold correlate in *. simpl.
  rewrite Hr. now apply IH.
Qed.

End Skipped.

(** C4 as the specification states it: every event, located or not, is
    counted in one of the two origin tallies, so the tallies add up to the
    number of events. *)
Definition tallies_cover_all_events : Prop :=
  forall (relative : string -> string -> string) (root : string)
         (report : option (list Finding)) (events : list TraceEvent),
    let s := summary (crossReference relative root report events) in
    userEvents s + libEvents s = totalTraceEvents s.

(** C4, counterexample: one event of origin [user] without a location.
    It is counted in [totalTraceEvents], but the loop leaves the iteration
    before the tallies, so neither [userEvents] nor [libEvents] counts
    it. *)
Lemma unlocated_event_not_tallied :
  summary (crossReference below_root "/proj" (Some [sample_finding])
             [ {| location := None; origin := Some "user"%string |} ])
    = {| totalTraceEvents := 1; userEvents := 0; libEvents := 0;
         executedFindingCount := 0; byRuleExecuted := ∅ |} /\
  ~ tallies_cover_all_events.
Proof.
  split; [reflexivity|].
  intros H.
  specialize (H below_root "/proj"%string (Some [sample_finding])
                [ {| location := None; origin := Some "user"%string |} ]).
  discriminate H.
Qed.

(** an event that reaches the tallies, with origin [user] *)
Definition located_user (ev : TraceEvent) : bool :=
  match resolve ev with
  | Some _ => bool_decide (origin ev = Some "user"%string)
  | None => false
  end.

(** an event that reaches the tallies, with another origin or none *)
Definition located_other (ev : TraceEvent) : bool :=
  match resolve ev with
  | Some _ => negb (bool_decide (origin ev = Some "user"%string))
  | None => false
  end.

(** an event that is skipped for correlation: its location is absent or
    does not parse, or it lies in the range of no finding *)
Definition skipped (relative : string -> string -> string) (root : string)
    (fnRanges : list FnRange) (ev : TraceEvent) : bool :=
  match resolve ev with
  | None => true
  | Some loc =>
      forallb (fun r => negb (executes (slashes (relative root (abs loc))) loc r))
              fnRanges
  end.

Section Tallies.
Variable relative : string -> string -> string.
Variable root : string.
Variable fnRanges : list FnRange.

Lemma correlate_tallies rel loc rs c :
  c_userEvents (correlate rel loc rs c) = c_userEvents c /\
  c_libEvents (correlate rel loc rs c) = c_libEvents c.
Proof using Type.
  revert c. induction rs as [|r rs IH]; intros c; [now split|].
  unfold correlate in *. simpl.
  destruct (executes rel loc r); [|apply IH].
  destruct (IH {| c_execCounts := bump (r_id r) (c_execCounts c);
                  c_byRuleExecuted := bump (r_rule r) (c_byRuleExecuted c);
                  c_userEvents := c_userEvents c;
                  c_libEvents := c_libEvents c |}) as [-> ->].
  now split.
Qed.

Lemma foldl_visit_tallies evs c :
  c_userEvents (foldl (visit relative root fnRanges) c evs) =
    c_userEvents c + length (List.filter located_user evs) /\
  c_libEvents (foldl (visit relative root fnRanges) c evs) =
    c_libEvents c + length (List.filter located_other evs).
Proof using Type.
  revert c. induction evs as [|ev evs IH]; intros c; simpl; [lia|].
  destruct (IH (visit relative root fnRanges c ev)) as [-> ->].
  unfold visit, located_user, located_other.
  destruct (resolve ev) as [loc|]; [|lia].
  destruct (correlate_tallies (slashes (relative root (abs loc))) loc fnRanges c)
    as [Hu Hl].
  destruct (bool_decide (origin ev = Some "user"%string)); simpl;
    rewrite ?Hu, ?Hl; lia.
Qed.

Lemma visit_skipped c ev :
  skipped relative root fnRanges ev = true ->
  exists u l, visit relative root fnRanges c ev = shift u l c.
Proof using Type.
  unfold skipped, visit. destruct (resolve ev) as [loc|]; intros H.
  - rewrite (correlate_no_match _ _ _ _ H).
    destruct (bool_decide _); [exists 1, 0 | exists 0, 1]; reflexivity.
  - exists 0, 0. now destruct c.
Qed.

End Tallies.

(** C4 (amended): [totalTraceEvents] counts every event; [userEvents]
    counts the events whose location parses and whose origin is [user],
    [libEvents] the events whose location parses and whose origin is
    anything else; an event without a location, or with one that does not
    parse, is in neither tally.  An event that is skipped (no parsable
    location, or a line in the range of no finding) contributes to no
    per-finding and no per-rule counter: the overlay has the same counters
    as the overlay of the trace without that event. *)
Theorem skipped_event_contribution
    (relative : string -> string -> string) (root : string)
    (report : option (list Finding)) (earlier later : list TraceEvent)
    (ev : TraceEvent) :
  let events := earlier ++ ev :: later in
  let with_ev := crossReference relative root report events in
  let without := crossReference relative root report (earlier ++ later) in
  totalTraceEvents (summary with_ev) = length events /\
  userEvents (summary with_ev) = length (List.filter located_user events) /\
  libEvents (summary with_ev) = length (List.filter located_other events) /\
  (skipped relative root (List.map fnRange (default [] report)) ev = true ->
   execCounts with_ev = execCounts without /\
   executedFindingCount (summary with_ev) =
     executedFindingCount (summary without) /\
   byRuleExecuted (summary with_ev) = byRuleExecuted (summary without)).
Proof.
  intros events with_ev without. subst events with_ev without.
  unfold crossReference. simpl.
  set (rs := List.map fnRange (default [] report)).
  set (c0 := {| c_execCounts := ∅; c_byRuleExecuted := ∅;
                c_userEvents := 0; c_libEvents := 0 |}).
  destruct (foldl_visit_tallies relative root rs (earlier ++ ev :: later) c0)
    as [Hu Hl].
  split; [reflexivity|]. split; [exact Hu|]. split; [exact Hl|].
  intros Hskip. rewrite !foldl_app. simpl.
  destruct (visit_skipped relative root rs
              (foldl (visit relative root rs) c0 earlier) ev Hskip)
    as (u & l & ->).
  rewrite foldl_visit_shift. simpl. auto.
Qed.

(** An event without a location between two located ones. *)
Lemma skipped_event_contribution_witness :
  execCounts
    (crossReference below_root "/proj" (Some [sample_finding])
       [ {| location := Some "/proj/a.js:12"%string; origin := Some "user"%string |};
         {| location := None; origin := Some "user"%string |};
         {| location := Some "/proj/a.js:13"%string; origin := None |} ])
  = execCounts
    (crossReference below_root "/proj" (Some [sample_finding])
       [ {| location := Some "/proj/a.js:12"%string; origin := Some "user"%string |};
         {| location := Some "/proj/a.js:13"%string; origin := None |} ]).
Proof.
  refine (proj1 (proj2 (proj2 (proj2
    (skipped_event_contribution below_root "/proj" (Some [sample_finding])
       [ {| location := Some "/proj/a.js:12"%string; origin := Some "user"%string |} ]
       [ {| location := Some "/proj/a.js:13"%string; origin := None |} ]
       {| location := None; origin := Some "user"%string |}))) _)).
  reflexivity.
Defined.


End Correlator.

(** ** The syntax tree the rules inspect

    The node kinds of ESTree that some rule looks into have a constructor
    of their own; every other kind is an [Other] node with its children in
    the order of its visitor keys. *)

Module Ast.

(** [node.range] and the start of [node.loc] *)
Record Info : Type := {
  range : nat * nat;
  line : nat;
  column : nat
}.

Inductive FunctionKind : Type :=
| FunctionDeclaration | FunctionExpression | ArrowFunctionExpression.

(** [ForOfStatement] carries its [await] flag *)
Inductive LoopKind : Type :=
| ForStatement | ForInStatement | ForOfStatement (await : bool)
| WhileStatement | DoWhileStatement.

#[local] Set Warnings "-register-all".

Inductive Node : Type :=
| Identifier (i : Info) (name : string)
| MemberExpression (i : Info) (object property : Node) (computed : bool)
| CallExpression (i : Info) (callee : Node) (arguments : list Node)
| NewExpression (i : Info) (callee : Node) (arguments : list Node)
| AwaitExpression (i : Info) (argument : Node)
| ReturnStatement (i : Info) (argument : option Node)
| ExpressionStatement (i : Info) (expression : Node)
| BlockStatement (i : Info) (body : list Node)
| Function_ (i : Info) (kind : FunctionKind) (async : bool)
            (id : option Node) (params : list Node) (body : Node)
| Loop (i : Info) (kind : LoopKind) (header : list Node) (body : Node)
| TryStatement (i : Info) (parts : list Node)
| Other (i : Info) (type : string) (children : list Node).

Definition info (n : Node) : Info :=
  match n with
  | Identifier i _ | MemberExpression i _ _ _ | CallExpression i _ _
  | NewExpression i _ _ | AwaitExpression i _ | ReturnStatement i _
  | ExpressionStatement i _ | BlockStatement i _ | Function_ i _ _ _ _ _
  | Loop i _ _ _ | TryStatement i _ | Other i _ _ => i
  end.

(** The child nodes of [n] with the key each is stored under, in the
    order of the visitor keys of the kind of [n]. *)
Definition entries (n : Node) : list (string * Node) :=
  match n with
  | Identifier _ _ => []
  | MemberExpression _ o p _ => [("object", o); ("property", p)]
  | CallExpression _ c a | NewExpression _ c a =>
      ("callee", c) :: List.map (pair "arguments") a
  | AwaitExpression _ a => [("argument", a)]
  | ReturnStatement _ a =>
      match a with Some a => [("argument", a)] | None => [] end
  | ExpressionStatement _ e => [("expression", e)]
  | BlockStatement _ b => List.map (pair "body") b
  | Function_ _ _ _ id ps b =>
      match id with Some x => [("id", x)] | None => [] end ++
      List.map (pair "params") ps ++ [("body", b)]
  | Loop _ DoWhileStatement h b => ("body", b) :: List.map (pair "test") h
  | Loop _ _ h b => List.map (pair "header") h ++ [("body", b)]
  | TryStatement _ ps => List.map (pair "parts") ps
  | Other _ _ cs => List.map (pair "children") cs
  end.

Definition children (n : Node) : list Node := List.map snd (entries n).

(** Recursion over the tree: [f] receives a node and the results for its
    children, in the order of [children]. *)
Fixpoint fold {A : Type} (f : Node -> list A -> A) (n : Node) : A :=
  f n match n with
      | Identifier _ _ => []
      | MemberExpression _ o p _ => [fold f o; fold f p]
      | CallExpression _ c a | NewExpression _ c a =>
          fold f c :: List.map (fold f) a
      | AwaitExpression _ a => [fold f a]
      | ReturnStatement _ a =>
          match a with Some a => [fold f a] | None => [] end
      | ExpressionStatement _ e => [fold f e]
      | BlockStatement _ b => List.map (fold f) b
      | Function_ _ _ _ id ps b =>
          match id with Some x => [fold f x] | None => [] end ++
          List.map (fold f) ps ++ [fold f b]
      | Loop _ DoWhileStatement h b => fold f b :: List.map (fold f) h
      | Loop _ _ h b => List.map (fold f) h ++ [fold f b]
      | TryStatement _ ps => List.map (fold f) ps
      | Other _ _ cs => List.map (fold f) cs
      end.

Lemma fold_children {A : Type} (f : Node -> list A -> A) (n : Node) :
  fold f n = f n (List.map (fold f) (children n)).
Proof.
  unfold children.
  destruct n as [| | | | |? []| | |? ? ? [] ? ?|? [] ? ?| |]; simpl;
    rewrite ?List.map_app, ?List.map_map; reflexivity.
Qed.

Definition size : Node -> nat := fold (fun _ sizes => S (list_sum sizes)).

Lemma size_children n : size n = S (list_sum (List.map size (children n))).
Proof. unfold size at 1. now rewrite fold_children. Qed.

Lemma size_child n c : In c (children n) -> size c < size n.
Proof.
  rewrite (size_children n). generalize (children n) as cs.
  induction cs as [|x cs IH]; simpl; [intros []|].
  intros [->|H]; [lia|]. specialize (IH H). lia.
Qed.

(** Induction over the tree: a property that passes from the children of
    a node to the node holds of every node. *)
Lemma Node_children_ind (P : Node -> Prop) :
  (forall n, (forall c, In c (children n) -> P c) -> P n) ->
  forall n, P n.
Proof.
  intros step n.
  remember (size n) as k eqn:Hk. revert n Hk.
  induction k as [k IH] using lt_wf_ind. intros n ->.
  apply step. intros c Hc.
  eapply IH; [apply size_child; eassumption | reflexivity].
Qed.

(** the nodes of the tree that satisfy [p], in the order of a depth-first
    traversal *)
Definition collect (p : Node -> bool) : Node -> list Node :=
  fold (fun n found => (if p n then [n] else []) ++ concat found).

Lemma collect_children p n :
  collect p n = (if p n then [n] else []) ++ flat_map (collect p) (children n).
Proof.
  unfold collect at 1. rewrite fold_children. now rewrite flat_map_concat_map.
Qed.

(** *** What a rule reports *)

Record Fix : Type := { fix_range : nat * nat; fix_text : string }.

Record Report : Type := {
  r_node : Node;               (* the node the report is located at *)
  r_messageId : string;
  r_fix : option Fix           (* what the [fix] function yields, if any *)
}.

(** *** The linter's traversal

    Depth first; [handler ancestors node] is what the rule's listener for
    the kind of [node] reports, [ancestors] being [context.getAncestors()]:
    the nodes from the root down to the parent of [node]. *)
Definition traverse (handler : list Node -> Node -> list Report)
    (ancestors : list Node) (n : Node) : list Report :=
  fold (fun n below ancestors =>
          handler ancestors n ++
          flat_map (fun visit => visit (ancestors ++ [n])) below)
       n ancestors.

Lemma traverse_children handler ancestors n :
  traverse handler ancestors n =
  handler ancestors n ++
  flat_map (traverse handler (ancestors ++ [n])) (children n).
Proof.
  unfold traverse at 1. rewrite fold_children.
  f_equal. now rewrite flat_map_concat_map, List.map_map, <- flat_map_concat_map.
Qed.

End Ast.

(** ** The rules of [cli/src/rules] *)

Module Rules.
Import Ast.

(** *** [awaitInLoop.ts] *)

(** [loops.has(ancestor.type)] *)
Definition is_loop (n : Node) : bool :=
  match n with Loop _ _ _ _ => true | _ => false end.

(** [ancestor.type === ForOfStatement && ancestor.await] *)
Definition is_for_await (n : Node) : bool :=
  match n with Loop _ (ForOfStatement true) _ _ => true | _ => false end.

Definition noAwaitInLoop (node : Node) : Report :=
  {| r_node := node; r_messageId := "noAwaitInLoop"; r_fix := None |}.

(** [for (const ancestor of context.getAncestors()) ...] *)
Fixpoint scanAncestors (node : Node) (ancestors : list Node) : list Report :=
  match ancestors with
  | [] => []
  | ancestor :: rest =>
      if negb (is_loop ancestor) then scanAncestors node rest       (* continue *)
      else if is_for_await ancestor then scanAncestors node rest    (* continue *)
      else [noAwaitInLoop node]                                     (* report, break *)
  end.

(** the listener [AwaitExpression(node)] *)
Definition awaitInLoop (ancestors : list Node) (node : Node) : list Report :=
  match node with
  | AwaitExpression _ _ => scanAncestors node ancestors
  | _ => []
  end.

Definition is_await (n : Node) : bool :=
  match n with AwaitExpression _ _ => true | _ => false end.

(** a loop that is not of the form [for await (... of ...)] *)
Definition ordinary_loop (n : Node) : bool := is_loop n && negb (is_for_await n).

(** the await expressions in [n] *)
Definition awaits (n : Node) : list Node := collect is_await n.

(** the ordinary loops in [n] *)
Definition ordinary_loops (n : Node) : list Node := collect ordinary_loop n.

Lemma scanAncestors_spec node ancestors :
  scanAncestors node ancestors =
  if existsb ordinary_loop ancestors then [noAwaitInLoop node] else [].
Proof.
  induction ancestors as [|a rest IH]; simpl; [reflexivity|].
  unfold ordinary_loop at 1.
  destruct (is_loop a); simpl; [|exact IH].
  destruct (is_for_await a); simpl; [exact IH|reflexivity].
Qed.

Lemma flat_map_nil_inv {A B} (f : A -> list B) (l : list A) :
  flat_map f l = [] -> forall x, In x l -> f x = [].
Proof.
  induction l as [|y l IH]; simpl; [intros _ x []|].
  intros H x [->|Hx].
  - now apply app_eq_nil in H.
  - apply IH; [|exact Hx]. now apply app_eq_nil in H.
Qed.

Lemma flat_map_ext_In {A B} (f g : A -> list B) (l : list A) :
  (forall x, In x l -> f x = g x) -> flat_map f l = flat_map g l.
Proof.
  induction l as [|y l IH]; simpl; intros H; [reflexivity|].
  rewrite (H y) by now left. f_equal. apply IH. intros x Hx. apply H. now right.
Qed.

Lemma flat_map_all_nil {A B} (f : A -> list B) (l : list A) :
  (forall x, In x l -> f x = []) -> flat_map f l = [].
Proof.
  intros H. rewrite (flat_map_ext_In f (fun _ => []) l H).
  clear H. induction l as [|y l IH]; [reflexivity|exact IH].
Qed.

(** The await expressions of [n] that an ordinary loop encloses, [under]
    telling whether one already encloses [n]. *)
Definition enclosed_awaits (under : bool) (n : Node) : list Node :=
  fold (fun n below under =>
          (if is_await n && under then [n] else []) ++
          flat_map (fun b => b (under || ordinary_loop n)) below)
       n under.

Lemma enclosed_awaits_children under n :
  enclosed_awaits under n =
  (if is_await n && under then [n] else []) ++
  flat_map (enclosed_awaits (under || ordinary_loop n)) (children n).
Proof.
  unfold enclosed_awaits at 1. rewrite fold_children. f_equal.
  now rewrite flat_map_concat_map, List.map_map, <- flat_map_concat_map.
Qed.

(** What the rule reports in [n]: the await expressions that an ordinary
    loop encloses, each once. *)
Lemma awaitInLoop_reports n : forall ancestors,
  traverse awaitInLoop ancestors n =
  List.map noAwaitInLoop (enclosed_awaits (existsb ordinary_loop ancestors) n).
Proof.
  induction n as [n IH] using Node_children_ind. intros ancestors.
  rewrite traverse_children, enclosed_awaits_children, List.map_app.
  f_equal.
  - unfold awaitInLoop. destruct n; simpl; try reflexivity.
    rewrite scanAncestors_spec. now destruct (existsb ordinary_loop ancestors).
  - rewrite (flat_map_ext_In _
      (fun c => List.map noAwaitInLoop
                  (enclosed_awaits (existsb ordinary_loop ancestors || ordinary_loop n) c))).
    + generalize (children n) as cs.
      induction cs as [|c cs IHcs]; simpl; [reflexivity|].
      now rewrite List.map_app, IHcs.
    + intros c Hc. rewrite (IH c Hc), existsb_app. simpl.
      now rewrite orb_false_r.
Qed.

(** Under an ordinary loop every await expression is enclosed. *)
Lemma enclosed_awaits_under n : enclosed_awaits true n = awaits n.
Proof.
  induction n as [n IH] using Node_children_ind.
  unfold awaits in *. rewrite enclosed_awaits_children, collect_children.
  rewrite andb_true_r. f_equal. apply flat_map_ext_In. exact IH.
Qed.

Lemma enclosed_awaits_no_await n : forall under,
  awaits n = [] -> enclosed_awaits under n = [].
Proof.
  induction n as [n IH] using Node_children_ind. intros under.
  unfold awaits in *. rewrite enclosed_awaits_children, collect_children.
  intros H. apply app_eq_nil in H as [Hn Hcs].
  destruct (is_await n); [discriminate Hn|]. simpl.
  apply flat_map_all_nil. intros c Hc. apply IH; [exact Hc|].
  eapply flat_map_nil_inv; eassumption.
Qed.

(** Where there is no ordinary loop, no await expression is enclosed. *)
Lemma enclosed_awaits_no_loop n :
  ordinary_loops n = [] -> enclosed_awaits false n = [].
Proof.
  induction n as [n IH] using Node_children_ind.
  unfold ordinary_loops in *. rewrite enclosed_awaits_children, collect_children.
  intros H. apply app_eq_nil in H as [Hn Hcs].
  rewrite andb_false_r. simpl.
  destruct (ordinary_loop n); [discriminate Hn|].
  apply flat_map_all_nil. intros c Hc. apply IH; [exact Hc|].
  eapply flat_map_nil_inv; eassumption.
Qed.

(** C6 as the specification states its second half: a body with exactly
    one await expression, placed under a [for await] loop that no ordinary
    loop encloses, yields no finding. *)
Definition for_await_body_unflagged : Prop :=
  forall (outer : list Node) (i : Info) (header : list Node) (body a : Node),
    existsb ordinary_loop outer = false ->
    awaits body = [a] ->
    flat_map awaits header = [] ->
    traverse awaitInLoop outer (Loop i (ForOfStatement true) header body) = [].

Definition at_ (l c : nat) : Info := {| range := (0, 0); line := l; column := c |}.

(** [await next()] at line 3 *)
Definition sample_await : Node :=
  AwaitExpression (at_ 3 5) (CallExpression (at_ 3 11) (Identifier (at_ 3 11) "next") []).

(** [{ while (more) { await next(); } }] *)
Definition nested_loop_body : Node :=
  BlockStatement (at_ 1 30)
    [Loop (at_ 2 3) WhileStatement [Identifier (at_ 2 10) "more"]
       (BlockStatement (at_ 2 16) [ExpressionStatement (at_ 3 5) sample_await])].

(** C6, counterexample: [for await (const x of xs) { while (more) { await
    next(); } }].  The body holds exactly one await expression, yet the
    rule reports it: the [while] loop is among its ancestors. *)
Lemma for_await_nested_loop_flagged :
  awaits nested_loop_body = [sample_await] /\
  traverse awaitInLoop []
    (Loop (at_ 1 1) (ForOfStatement true)
       [Identifier (at_ 1 18) "x"; Identifier (at_ 1 23) "xs"] nested_loop_body)
    = [noAwaitInLoop sample_await] /\
  ~ for_await_body_unflagged.
Proof.
  split; [reflexivity|]. split; [reflexivity|].
  intros H.
  specialize (H [] (at_ 1 1) [Identifier (at_ 1 18) "x"; Identifier (at_ 1 23) "xs"]
                nested_loop_body sample_await eq_refl eq_refl eq_refl).
  discriminate H.
Qed.

(** C6 (amended): take a loop whose only await expression [a] lies in its
    body.  If the loop is not of the form [for await], the rule reports
    exactly one finding, located at [a], whatever encloses the loop.  If
    the loop is of the form [for await] and no ordinary loop encloses it,
    the rule reports [a] exactly when an ordinary loop inside the body
    encloses [a]; in particular it reports nothing when the body contains
    no ordinary loop. *)
Theorem awaitInLoop_single_await (outer : list Node) (i : Info)
    (kind : LoopKind) (header : list Node) (body a : Node) :
  awaits body = [a] ->
  flat_map awaits header = [] ->
  (kind <> ForOfStatement true ->
   traverse awaitInLoop outer (Loop i kind header body) = [noAwaitInLoop a]) /\
  (kind = ForOfStatement true ->
   existsb ordinary_loop outer = false ->
   traverse awaitInLoop outer (Loop i kind header body) =
     List.map noAwaitInLoop (enclosed_awaits false body) /\
   (ordinary_loops body = [] ->
    traverse awaitInLoop outer (Loop i kind header body) = [])).
Proof.
  intros Hbody Hheader.
  assert (Hh : flat_map (traverse awaitInLoop (outer ++ [Loop i kind header body]))
                        header = []).
  { apply flat_map_all_nil. intros c Hc.
    rewrite awaitInLoop_reports, enclosed_awaits_no_await; [reflexivity|].
    eapply flat_map_nil_inv; eassumption. }
  assert (Hsplit : traverse awaitInLoop outer (Loop i kind header body) =
                   traverse awaitInLoop (outer ++ [Loop i kind header body]) body).
  { rewrite traverse_children. unfold children.
    destruct kind; simpl; rewrite ?List.map_app, ?List.map_map; simpl;
      rewrite ?List.map_id, ?flat_map_app; simpl;
      rewrite ?Hh, ?app_nil_r; reflexivity. }
  rewrite Hsplit, awaitInLoop_reports, existsb_app. simpl.
  rewrite orb_false_r. split.
  - intros Hkind.
    assert (Hloop : ordinary_loop (Loop i kind header body) = true).
    { unfold ordinary_loop. simpl.
      destruct kind as [| |[]| |]; try reflexivity. now elim Hkind. }
    now rewrite Hloop, orb_true_r, enclosed_awaits_under, Hbody.
  - intros -> Houter. rewrite Houter. simpl. split; [reflexivity|].
    intros Hloops. now rewrite enclosed_awaits_no_loop.
Qed.

(** [for (const x of xs) { await next(); }] *)
Lemma awaitInLoop_single_await_witness :
  traverse awaitInLoop []
    (Loop (at_ 1 1) (ForOfStatement false)
       [Identifier (at_ 1 12) "x"; Identifier (at_ 1 17) "xs"]
       (BlockStatement (at_ 1 21) [ExpressionStatement (at_ 3 5) sample_await]))
  = [noAwaitInLoop sample_await].
Proof.
  refine (proj1 (awaitInLoop_single_await [] (at_ 1 1) (ForOfStatement false)
                   [Identifier (at_ 1 12) "x"; Identifier (at_ 1 17) "xs"]
                   (BlockStatement (at_ 1 21) [ExpressionStatement (at_ 3 5) sample_await])
                   sample_await _ _) _).
  - reflexivity.
  - reflexivity.
  - discriminate.
Defined.

(** *** [asyncFunctionAwaitedReturn.ts] *)

(** a token of the source, as [SourceCode.getFirstToken] returns it *)
Record Token : Type := { tok_value : string; tok_range : nat * nat }.

(** [fixer.remove(token)] *)
Definition remove (tok : Token) : Fix :=
  {| fix_range := tok_range tok; fix_text := "" |}.

Definition is_function (n : Node) : bool :=
  match n with Function_ _ _ _ _ _ _ => true | _ => false end.

Definition is_try (n : Node) : bool :=
  match n with TryStatement _ _ => true | _ => false end.

(** [func.async] *)
Definition async (n : Node) : bool :=
  match n with Function_ _ _ a _ _ _ => a | _ => false end.

Section AsyncAwaitedReturn.
(** [context.getSourceCode().getFirstToken] *)
Variable getFirstToken : Node -> option Token.

(** the listener [ReturnStatement(node)] *)
Definition asyncAwaitedReturn (ancestors : list Node) (node : Node) : list Report :=
  match node with
  | ReturnStatement _ (Some (AwaitExpression _ _ as argument)) =>
      match List.find is_function (List.rev ancestors) with
      | Some func =>
          if negb (async func) then []
          else
            [ {| r_node := argument;
                 r_messageId := "noReturnAwait";
                 r_fix :=
                   if existsb is_try ancestors then None
                   else match getFirstToken argument with
                        | None => None
                        | Some awaitToken => Some (remove awaitToken)
                        end |} ]
      | None => []
      end
  | _ => []
  end.

End AsyncAwaitedReturn.

(** C7: a return statement whose argument is an await expression, in a
    function (the innermost enclosing one) that is async, is reported, at
    the await expression.  If a try statement is among its ancestors the
    report carries no fix; otherwise the fix removes the first token of
    the await expression, its [await] keyword. *)
Theorem asyncAwaitedReturn_fix (getFirstToken : Node -> option Token)
    (ancestors : list Node) (i ai : Info) (x func : Node) (awaitToken : Token) :
  List.find is_function (List.rev ancestors) = Some func ->
  async func = true ->
  getFirstToken (AwaitExpression ai x) = Some awaitToken ->
  asyncAwaitedReturn getFirstToken ancestors
      (ReturnStatement i (Some (AwaitExpression ai x))) =
    [ {| r_node := AwaitExpression ai x;
         r_messageId := "noReturnAwait";
         r_fix := if existsb is_try ancestors then None
                  else Some {| fix_range := tok_range awaitToken; fix_text := "" |} |} ].
Proof.
  intros Hfunc Hasync Htok. unfold asyncAwaitedReturn.
  rewrite Hfunc, Hasync, Htok. reflexivity.
Qed.

(** the first token of a node starts where the node starts; for an await
    expression it is the keyword, five code units long *)
Definition sample_getFirstToken (n : Node) : option Token :=
  match n with
  | AwaitExpression i _ =>
      Some {| tok_value := "await";
              tok_range := (fst (range i), fst (range i) + 5) |}
  | _ => None
  end.

(** [async function f() { try { return await g; } catch (e) {} }]: the
    finding is reported and carries no fix. *)
Lemma asyncAwaitedReturn_fix_witness :
  let g := Identifier {| range := (37, 38); line := 1; column := 38 |} "g" in
  let argument := AwaitExpression {| range := (31, 38); line := 1; column := 32 |} g in
  let ret := ReturnStatement {| range := (24, 39); line := 1; column := 25 |} (Some argument) in
  let block := BlockStatement (at_ 1 23) [ret] in
  let try := TryStatement (at_ 1 19) [block] in
  let func := Function_ (at_ 1 1) FunctionDeclaration true
                (Some (Identifier (at_ 1 16) "f")) [] (BlockStatement (at_ 1 18) [try]) in
  asyncAwaitedReturn sample_getFirstToken
    [Other (at_ 1 1) "Program" [func]; func; BlockStatement (at_ 1 18) [try]; try; block] ret
  = [ {| r_node := argument; r_messageId := "noReturnAwait"; r_fix := None |} ].
Proof.
  intros g argument ret block try func.
  exact (asyncAwaitedReturn_fix sample_getFirstToken
           [Other (at_ 1 1) "Program" [func]; func; BlockStatement (at_ 1 18) [try]; try; block]
           {| range := (24, 39); line := 1; column := 25 |}
           {| range := (31, 38); line := 1; column := 32 |}
           g func
           {| tok_value := "await"; tok_range := (31, 36) |}
           eq_refl eq_refl eq_refl).
Defined.

(** *** [executorOneArgUsed.ts] *)

(** An entry of the work list of [isIdentifierUsed]: a node, its parent,
    and the key of the parent the node was read from.  The tree has no
    sharing, so a node is reached once (the set [seen] never holds the
    node taken from the list) and the test [parent.property === node]
    holds exactly of the child read from the key [property]. *)
Record Entry : Type := { e_node : Node; e_parent : Node; e_key : string }.

(** [node.params.some(param => param.type === Identifier && param.name === name)]
    for a function node *)
Definition shadows (name : string) (n : Node) : bool :=
  match n with
  | Function_ _ _ _ _ params _ =>
      existsb (fun param => match param with
                            | Identifier _ x => String.eqb x name
                            | _ => false
                            end) params
  | _ => false
  end.

(** [node.type === Identifier && node.name === name] *)
Definition is_named (name : string) (n : Node) : bool :=
  match n with Identifier _ x => String.eqb x name | _ => false end.

(** [parent.type === MemberExpression && parent.property === node &&
    !parent.computed] *)
Definition is_property_name (parent : Node) (key : string) : bool :=
  match parent with
  | MemberExpression _ _ _ computed => String.eqb key "property" && negb computed
  | _ => false
  end.

(** the children of [n], pushed in the order of its visitor keys; the
    last one pushed is the next one popped *)
Definition push (n : Node) (stack : list Entry) : list Entry :=
  List.rev (List.map (fun kc => {| e_node := snd kc; e_parent := n; e_key := fst kc |})
                     (entries n)) ++ stack.

(** [while (stack.length && !used) ...]; the head of [stack] is the top.
    [fuel] bounds the number of iterations. *)
Fixpoint search (fuel : nat) (name : string) (stack : list Entry) : option bool :=
  match stack with
  | [] => Some false
  | e :: rest =>
      match fuel with
      | 0 => None
      | S fuel =>
          if shadows name (e_node e) then search fuel name rest     (* continue *)
          else if is_named name (e_node e) &&
                  negb (is_property_name (e_parent e) (e_key e))
          then Some true                                            (* used = true, break *)
          else search fuel name (push (e_node e) rest)
      end
  end.

(** [func.body] *)
Definition body_of (func : Node) : option Node :=
  match func with Function_ _ _ _ _ _ b => Some b | _ => None end.

(** Every iteration takes one node from the list, and every node of the
    body enters the list at most once: [size body] iterations suffice. *)
Definition isIdentifierUsed (name : string) (func : Node) : bool :=
  match body_of func with
  | Some body =>
      default false
        (search (size body) name
                [ {| e_node := body; e_parent := func; e_key := "body" |} ])
  | None => false
  end.

Definition oneArgExecutor (node : Node) : Report :=
  {| r_node := node; r_messageId := "oneArgExecutor"; r_fix := None |}.

(** [params[k] && params[k].type === Identifier ? params[k].name : null] *)
Definition param_name (params : list Node) (k : nat) : option string :=
  match params !! k with
  | Some (Identifier _ x) => Some x
  | _ => None
  end.

(** [if (param) { uses = isIdentifierUsed(param, executor) }], [uses]
    being [false] before; the empty string is falsy *)
Definition uses (param : option string) (executor : Node) : bool :=
  match param with
  | Some name => if String.eqb name "" then false else isIdentifierUsed name executor
  | None => false
  end.

(** the listener [NewExpression(node)] *)
Definition executorOneArgUsed (node : Node) : list Report :=
  match node with
  | NewExpression _ callee arguments =>
      if is_named "Promise" callee && (length arguments =? 1) then
        match arguments with
        | (Function_ _ kind _ _ params _ as executor) :: _ =>
            match kind with
            | FunctionExpression | ArrowFunctionExpression =>
                let resolveParam := param_name params 0 in
                let rejectParam := param_name params 1 in
                let usesResolve := uses resolveParam executor in
                let usesReject := uses rejectParam executor in
                let paramCount := length params in
                if (paramCount <? 2) || negb (usesResolve && usesReject)
                then [oneArgExecutor executor]
                else []
            | FunctionDeclaration => []
            end
        | _ => []
        end
      else []
  | _ => []
  end.

(** **** What the search computes *)

(** [occurs name is_property n]: in the subtree of [n], outside the
    functions that have a parameter [name], there is an identifier [name]
    that is not the property name of a non-computed member expression.
    [is_property] tells whether [n] itself is such a property name. *)
Definition occurs (name : string) (n : Node) (is_property : bool) : bool :=
  fold (fun n below is_property =>
          if shadows name n then false
          else if is_named name n && negb is_property then true
          else existsb (fun kb => snd kb (is_property_name n (fst kb)))
                       (combine (List.map fst (entries n)) below))
       n is_property.

Lemma occurs_children name n is_property :
  occurs name n is_property =
  if shadows name n then false
  else if is_named name n && negb is_property then true
  else existsb (fun kc => occurs name (snd kc) (is_property_name n (fst kc)))
               (entries n).
Proof.
  unfold occurs at 1. rewrite fold_children. fold (occurs name).
  destruct (shadows name n); [reflexivity|].
  destruct (is_named name n && negb is_property); [reflexivity|].
  unfold children. generalize (entries n) as es.
  induction es as [|[k c] es IH]; simpl; [reflexivity|].
  now rewrite IH.
Qed.

Definition entry_occurs (name : string) (e : Entry) : bool :=
  occurs name (e_node e) (is_property_name (e_parent e) (e_key e)).

Definition stack_size (stack : list Entry) : nat :=
  list_sum (List.map (fun e => size (e_node e)) stack).

Lemma existsb_rev {A} (p : A -> bool) (l : list A) :
  existsb p (List.rev l) = existsb p l.
Proof.
  induction l as [|x l IH]; simpl; [reflexivity|].
  rewrite existsb_app, IH. simpl. rewrite orb_false_r. apply orb_comm.
Qed.

Lemma stack_size_push n rest :
  S (stack_size (push n rest)) = size n + stack_size rest.
Proof.
  unfold push, stack_size.
  rewrite List.map_app, list_sum_app, List.map_rev, List.map_map. simpl.
  rewrite (size_children n). unfold children.
  rewrite List.map_map.
  assert (H : forall l : list nat, list_sum (List.rev l) = list_sum l).
  { induction l as [|x l IH]; simpl; [reflexivity|].
    rewrite list_sum_app, IH. simpl. lia. }
  rewrite H. reflexivity.
Qed.

Lemma size_pos n : 0 < size n.
Proof. rewrite size_children. lia. Qed.

(** With enough fuel the search ends, and it finds exactly the
    occurrences. *)
Lemma search_occurs name fuel : forall stack,
  stack_size stack <= fuel ->
  search fuel name stack = Some (existsb (entry_occurs name) stack).
Proof.
  induction fuel as [|fuel IH]; intros [|e rest] Hsize; try reflexivity.
  - exfalso. unfold stack_size in Hsize. simpl in Hsize.
    pose proof (size_pos (e_node e)). lia.
  - assert (Hsz : stack_size (e :: rest) = size (e_node e) + stack_size rest)
      by reflexivity.
    simpl. unfold entry_occurs at 1. rewrite occurs_children.
    destruct (shadows name (e_node e)).
    + simpl. apply IH. pose proof (size_pos (e_node e)). lia.
    + destruct (is_named name (e_node e) && negb _); [reflexivity|].
      rewrite IH.
      * f_equal. unfold push. rewrite existsb_app, existsb_rev.
        f_equal. generalize (entries (e_node e)) as es.
        induction es as [|[k c] es IHes]; simpl; [reflexivity|].
        now rewrite IHes.
      * pose proof (stack_size_push (e_node e) rest). lia.
Qed.

Lemma isIdentifierUsed_occurs name i kind a id params body :
  isIdentifierUsed name (Function_ i kind a id params body) =
  occurs name body false.
Proof.
  unfold isIdentifierUsed. simpl. rewrite search_occurs.
  - simpl. unfold entry_occurs. simpl. apply orb_false_r.
  - unfold stack_size. simpl. lia.
Qed.





(** *** [redundantNewPromiseWrapper.ts] *)

Definition is_expression_statement (n : Node) : bool :=
  match n with ExpressionStatement _ _ => true | _ => false end.

(** [fixer.replaceText(node, text)] *)
Definition replaceText (node : Node) (replacement : string) : Fix :=
  {| fix_range := range (info node); fix_text := replacement |}.

Section RedundantWrapper.
(** the text of the file being linted *)
Variable text : string.

(** [context.getSourceCode().getText(node)] *)
Definition getText (node : Node) : string :=
  String.substring (fst (range (info node)))
                   (snd (range (info node)) - fst (range (info node))) text.

(** the first test: the first expression statement of the block is a call
    of [.then] whose first argument is the first parameter; the result is
    ([isRedundant], [replacement]) *)
Definition forwardsThroughThen (params : list Node) (body : Node)
  : bool * option string :=
  let firstExprStmt :=
    match body with
    | BlockStatement _ stmts => List.find is_expression_statement stmts
    | _ => None
    end in
  match firstExprStmt with
  | Some (ExpressionStatement _
            (CallExpression _ (MemberExpression _ object (Identifier _ prop) _) args)) =>
      if String.eqb prop "then" && (1 <=? length args) then
        match args, params with
        | arg0 :: _, Identifier _ p0 :: _ =>
            if is_named p0 arg0 then
              let base := getText object in
              match args, params with
              | _ :: arg1 :: _, _ :: Identifier _ p1 :: _ =>
                  if is_named p1 arg1 then (true, Some base)
                  else (true, Some base)
              | _, _ => (true, Some base)
              end
            else (false, None)
        | _, _ => (false, None)
        end
      else (false, None)
  | _ => (false, None)
  end.

(** the second test: the block is the single statement [resolve(arg)] *)
Definition resolvesDirectly (params : list Node) (body : Node)
  : bool * option string :=
  match params with
  | Identifier _ resParam :: _ =>
      match body with
      | BlockStatement _ [ExpressionStatement _ (CallExpression _ callee [arg])] =>
          if is_named resParam callee then
            match arg with
            | Identifier _ _ | CallExpression _ _ _ | MemberExpression _ _ _ _ =>
                (true, Some (getText arg))
            | _ => (false, None)
            end
          else (false, None)
      | _ => (false, None)
      end
  | _ => (false, None)
  end.

Definition redundantWrapper (node : Node) (replacement : string) : Report :=
  {| r_node := node; r_messageId := "redundantWrapper";
     r_fix := Some (replaceText node replacement) |}.

(** the listener [NewExpression(node)] *)
Definition redundantNewPromiseWrapper (node : Node) : list Report :=
  match node with
  | NewExpression _ callee arguments =>
      if negb (is_named "Promise" callee) || negb (length arguments =? 1) then []
      else
        match arguments with
        | Function_ _ kind _ _ params body :: _ =>
            match kind with
            | FunctionDeclaration => []
            | _ =>
                let state := forwardsThroughThen params body in
                let state :=
                  if negb (fst state) && (1 <=? length params)
                  then match resolvesDirectly params body with
                       | (true, r) => (true, r)
                       | (false, _) => state
                       end
                  else state in
                match state with
                | (true, Some replacement) =>
                    if String.eqb replacement "" then []   (* the empty string is falsy *)
                    else [redundantWrapper node replacement]
                | _ => []
                end
            end
        | _ => []
        end
  | _ => []
  end.

End RedundantWrapper.

(** C9: for [new Promise(executor)] where the body of the executor is the
    single statement [inner.then(resolve, reject)], [resolve] and [reject]
    being the first two parameters of the executor, the rule reports the
    construction with a fix that replaces the whole [new] expression by
    the source text of [inner]. *)
Theorem redundantWrapper_fix (text : string)
    (i ci fi bi si ti mi pi r1 j1 r2 j2 : Info) (arrow a computed : bool)
    (id : option Node) (resolve reject : string)
    (more_params more_args : list Node) (inner : Node) :
  let kind := if arrow then ArrowFunctionExpression else FunctionExpression in
  let thenCall :=
    CallExpression ti (MemberExpression mi inner (Identifier pi "then") computed)
      (Identifier r2 resolve :: Identifier j2 reject :: more_args) in
  let executor :=
    Function_ fi kind a id
      (Identifier r1 resolve :: Identifier j1 reject :: more_params)
      (BlockStatement bi [ExpressionStatement si thenCall]) in
  let node := NewExpression i (Identifier ci "Promise") [executor] in
  getText text inner <> ""%string ->
  redundantNewPromiseWrapper text node =
    [ {| r_node := node;
         r_messageId := "redundantWrapper";
         r_fix := Some {| fix_range := range i; fix_text := getText text inner |} |} ].
Proof.
  intros kind thenCall executor node Hne.
  assert (Hfirst :
    forwardsThroughThen text
      (Identifier r1 resolve :: Identifier j1 reject :: more_params)
      (BlockStatement bi [ExpressionStatement si thenCall]) =
    (true, Some (getText text inner))).
  { unfold forwardsThroughThen, thenCall. simpl.
    now rewrite !String.eqb_refl. }
  unfold redundantNewPromiseWrapper, node, executor. simpl.
  rewrite Hfirst. simpl.
  destruct (String.eqb_spec (getText text inner) "") as [E|_]; [contradiction|].
  subst kind. now destruct arrow.
Qed.

(** [new Promise((resolve, reject) => { p.then(resolve, reject); })]: the
    fix replaces the 62 code units of the construction by [p]. *)
Lemma redundantWrapper_fix_witness :
  let src := "new Promise((resolve, reject) => { p.then(resolve, reject); })"%string in
  let span s e := {| range := (s, e); line := 1; column := S s |} in
  let p := Identifier (span 35 36) "p" in
  let thenCall :=
    CallExpression (span 35 58) (MemberExpression (span 35 41) p (Identifier (span 37 41) "then") false)
      [Identifier (span 42 49) "resolve"; Identifier (span 51 57) "reject"] in
  let executor :=
    Function_ (span 12 61) ArrowFunctionExpression false None
      [Identifier (span 13 20) "resolve"; Identifier (span 22 28) "reject"]
      (BlockStatement (span 33 61) [ExpressionStatement (span 35 59) thenCall]) in
  let node := NewExpression (span 0 62) (Identifier (span 4 11) "Promise") [executor] in
  redundantNewPromiseWrapper src node =
    [ {| r_node := node; r_messageId := "redundantWrapper";
         r_fix := Some {| fix_range := (0, 62); fix_text := "p" |} |} ].
Proof.
  intros src span p thenCall executor node.
  refine (redundantWrapper_fix src (span 0 62) (span 4 11) (span 12 61)
            (span 33 61) (span 35 59) (span 35 58) (span 35 41) (span 37 41)
            (span 13 20) (span 22 28) (span 42 49) (span 51 57)
            true false false None "resolve" "reject" [] [] p _).
  discriminate.
Defined.

(** C9, as first stated, fails when the sole statement of the executor
    returns the chained call:
    [new Promise((resolve, reject) => { return p.then(resolve, reject); })]
    forwards both parameters through [.then] and is not reported, because
    both tests of the rule look for an expression statement. *)
Lemma returned_forwarding_not_reported :
  let src := "new Promise((resolve, reject) => { return p.then(resolve, reject); })"%string in
  let span s e := {| range := (s, e); line := 1; column := S s |} in
  let p := Identifier (span 42 43) "p" in
  let thenCall :=
    CallExpression (span 42 65) (MemberExpression (span 42 48) p (Identifier (span 44 48) "then") false)
      [Identifier (span 49 56) "resolve"; Identifier (span 58 64) "reject"] in
  let executor :=
    Function_ (span 12 68) ArrowFunctionExpression false None
      [Identifier (span 13 20) "resolve"; Identifier (span 22 28) "reject"]
      (BlockStatement (span 33 68) [ReturnStatement (span 35 66) (Some thenCall)]) in
  let node := NewExpression (span 0 69) (Identifier (span 4 11) "Promise") [executor] in
  getText src p = "p"%string /\
  redundantNewPromiseWrapper src node = [].
Proof. split; reflexivity. Qed.

End Rules.

(** * Further properties of the code *)

(** ** The overlay computed by [crossReference], and [mergeReportWithExec] *)

Module Overlay.
Import Correlator.

(** [bump] applied for every key of a list, in order *)
Definition bump_all `{Countable K} (ks : list K) (m : gmap K nat) : gmap K nat :=
  foldl (fun m k => bump k m) m ks.

Definition occurrences `{EqDecision K} (i : K) (ks : list K) : nat :=
  length (List.filter (fun k => bool_decide (k = i)) ks).

Lemma bump_lookup `{Countable K} (k i : K) (m : gmap K nat) :
  bump k m !! i = if decide (k = i) then Some (default 0 (m !! i) + 1) else m !! i.
Proof.
  unfold bump. destruct (decide (k = i)) as [->|Hne].
  - apply lookup_insert_eq.
  - now apply lookup_insert_ne.
Qed.

(** After a run of increments a key is present exactly when it was present
    before or was incremented, and its count has grown by the number of
    its increments. *)
Lemma bump_all_lookup `{Countable K} (ks : list K) : forall (m : gmap K nat) (i : K),
  bump_all ks m !! i =
  match m !! i, occurrences i ks with
  | None, 0 => None
  | o, n => Some (default 0 o + n)
  end.
Proof.
  unfold bump_all, occurrences.
  induction ks as [|k ks IH]; intros m i; simpl.
  - destruct (m !! i); simpl; [f_equal; lia | reflexivity].
  - rewrite IH, bump_lookup.
    destruct (decide (k = i)) as [->|Hne].
    + rewrite bool_decide_eq_true_2 by reflexivity. simpl.
      destruct (m !! i); simpl; f_equal; lia.
    + rewrite bool_decide_eq_false_2 by assumption. reflexivity.
Qed.

Section Counting.
Variable relative : string -> string -> string.
Variable root : string.

(** the event resolves to a location in the range of [r] *)
Definition executing (r : FnRange) (ev : TraceEvent) : bool :=
  match resolve ev with
  | Some loc => executes (slashes (relative root (abs loc))) loc r
  | None => false
  end.

(** the number of events of the trace that execute [r] *)
Definition executionsOf (events : list TraceEvent) (r : FnRange) : nat :=
  length (List.filter (executing r) events).

(** the ranges an event executes *)
Definition executedBy (fnRanges : list FnRange) (ev : TraceEvent) : list FnRange :=
  List.filter (fun r => executing r ev) fnRanges.

Lemma correlate_bumps rel loc rs c :
  c_execCounts (correlate rel loc rs c) =
    bump_all (List.map r_id (List.filter (executes rel loc) rs)) (c_execCounts c) /\
  c_byRuleExecuted (correlate rel loc rs c) =
    bump_all (List.map r_rule (List.filter (executes rel loc) rs)) (c_byRuleExecuted c).
Proof using Type.
  revert c. unfold correlate, bump_all.
  induction rs as [|r rs IH]; intros c; simpl; [now split|].
  destruct (executes rel loc r); simpl; apply IH.
Qed.

Lemma visit_bumps rs c ev :
  c_execCounts (visit relative root rs c ev) =
    bump_all (List.map r_id (executedBy rs ev)) (c_execCounts c) /\
  c_byRuleExecuted (visit relative root rs c ev) =
    bump_all (List.map r_rule (executedBy rs ev)) (c_byRuleExecuted c).
Proof using Type.
  unfold visit, executedBy, executing.
  destruct (resolve ev) as [loc|].
  - destruct (correlate_bumps (slashes (relative root (abs loc))) loc rs c)
      as [H1 H2].
    destruct (bool_decide _); simpl; now rewrite H1, H2.
  - assert (Hnil : List.filter (fun _ : FnRange => false) rs = []).
    { clear. induction rs; simpl; auto. }
    rewrite Hnil. now split.
Qed.

Lemma foldl_visit_bumps rs evs : forall c,
  c_execCounts (foldl (visit relative root rs) c evs) =
    bump_all (List.map r_id (flat_map (executedBy rs) evs)) (c_execCounts c) /\
  c_byRuleExecuted (foldl (visit relative root rs) c evs) =
    bump_all (List.map r_rule (flat_map (executedBy rs) evs)) (c_byRuleExecuted c).
Proof using Type.
  induction evs as [|ev evs IH]; intros c; simpl; [now split|].
  destruct (IH (visit relative root rs c ev)) as [-> ->].
  destruct (visit_bumps rs c ev) as [-> ->].
  unfold bump_all. rewrite !List.map_app, !foldl_app. now split.
Qed.

(** Counting pairs (event, range) by event or by range gives the same
    number. *)
Lemma occurrences_executed {K} `{EqDecision K} (key : FnRange -> K) (i : K) rs evs :
  occurrences i (List.map key (flat_map (executedBy rs) evs)) =
  list_sum (List.map (executionsOf evs)
              (List.filter (fun r => bool_decide (key r = i)) rs)).
Proof using Type.
  unfold occurrences, executionsOf.
  induction evs as [|ev evs IH]; simpl.
  - induction rs as [|r rs IHrs]; simpl; [reflexivity|].
    destruct (bool_decide (key r = i)); simpl; exact IHrs.
  - rewrite List.map_app, List.filter_app, length_app, IH. clear IH.
    unfold executedBy.
    induction rs as [|r rs IHrs]; simpl; [reflexivity|].
    destruct (executing r ev) eqn:He; simpl;
      destruct (bool_decide (key r = i)) eqn:Hk; simpl; rewrite ?He; simpl; lia.
Qed.

End Counting.

Lemma filter_length_Permutation {A} (p : A -> bool) (l l' : list A) :
  Permutation l l' -> length (List.filter p l) = length (List.filter p l').
Proof.
  induction 1 as [|x l l' _ IH|x y l|l l' l'' _ IH1 _ IH2]; simpl.
  - reflexivity.
  - destruct (p x); simpl; now rewrite IH.
  - destruct (p x), (p y); reflexivity.
  - now rewrite IH1.
Qed.

Lemma counters_eq (c c' : Counters) :
  c_execCounts c = c_execCounts c' ->
  c_byRuleExecuted c = c_byRuleExecuted c' ->
  c_userEvents c = c_userEvents c' ->
  c_libEvents c = c_libEvents c' ->
  c = c'.
Proof. destruct c, c'; simpl; intros; now subst. Qed.

Definition no_counters : Counters :=
  {| c_execCounts := ∅; c_byRuleExecuted := ∅; c_userEvents := 0; c_libEvents := 0 |}.

Lemma counts_of_trace relative root rs evs :
  (forall i,
     c_execCounts (foldl (visit relative root rs) no_counters evs) !! i =
     match list_sum (List.map (executionsOf relative root evs)
                       (List.filter (fun r => bool_decide (r_id r = i)) rs)) with
     | 0 => None
     | n => Some n
     end) /\
  (forall s,
     c_byRuleExecuted (foldl (visit relative root rs) no_counters evs) !! s =
     match list_sum (List.map (executionsOf relative root evs)
                       (List.filter (fun r => bool_decide (r_rule r = s)) rs)) with
     | 0 => None
     | n => Some n
     end).
Proof.
  destruct (foldl_visit_bumps relative root rs evs no_counters) as [-> ->].
  split; intros k; rewrite bump_all_lookup, occurrences_executed; simpl;
    rewrite lookup_empty; reflexivity.
Qed.

(** X1: the overlay counts executions exactly.  The counter stored under
    a finding id is the number of pairs (event, finding with that id) such
    that the event resolves to the finding's file and to a line in the
    finding's function range; the counter stored under a rule is the same
    number over the findings of that rule.  A key whose number is zero is
    absent from the object. *)
Theorem overlay_counts_exact (relative : string -> string -> string)
    (root : string) (report : option (list Finding)) (events : list TraceEvent) :
  let overlay := crossReference relative root report events in
  let total (select : Finding -> bool) :=
    list_sum (List.map (fun f => executionsOf relative root events (fnRange f))
                (List.filter select (default [] report))) in
  (forall i, execCounts overlay !! i =
             match total (fun f => bool_decide (id f = i)) with
             | 0 => None
             | n => Some n
             end) /\
  (forall s, byRuleExecuted (summary overlay) !! s =
             match total (fun f => bool_decide (rule f = s)) with
             | 0 => None
             | n => Some n
             end).
Proof.
  intros overlay total. subst overlay total. unfold crossReference. simpl.
  fold no_counters.
  destruct (counts_of_trace relative root (List.map fnRange (default [] report)) events)
    as [Hid Hrule].
  assert (Hsel : forall (sel : FnRange -> bool) (sel' : Finding -> bool),
    (forall f, sel (fnRange f) = sel' f) ->
    list_sum (List.map (executionsOf relative root events)
                (List.filter sel (List.map fnRange (default [] report)))) =
    list_sum (List.map (fun f => executionsOf relative root events (fnRange f))
                (List.filter sel' (default [] report)))).
  { intros sel sel' Hs. clear Hid Hrule.
    generalize (default [] report) as fs.
    induction fs as [|f fs IH]; simpl; [reflexivity|].
    rewrite Hs. destruct (sel' f); simpl; now rewrite IH. }
  split.
  - intros i. rewrite Hid. now rewrite (Hsel _ (fun f => bool_decide (id f = i))).
  - intros s. rewrite Hrule. now rewrite (Hsel _ (fun f => bool_decide (rule f = s))).
Qed.

(** X2: the overlay does not depend on the order of the events in the
    trace. *)
Theorem overlay_order_independent (relative : string -> string -> string)
    (root : string) (report : option (list Finding))
    (events events' : list TraceEvent) :
  Permutation events events' ->
  crossReference relative root report events =
  crossReference relative root report events'.
Proof.
  intros Hperm. unfold crossReference. fold no_counters.
  set (rs := List.map fnRange (default [] report)).
  assert (Hc : foldl (visit relative root rs) no_counters events =
               foldl (visit relative root rs) no_counters events').
  { assert (Hex : forall r, executionsOf relative root events r =
                            executionsOf relative root events' r)
      by (intros r; apply filter_length_Permutation, Hperm).
    destruct (counts_of_trace relative root rs events) as [Hid Hrule].
    destruct (counts_of_trace relative root rs events') as [Hid' Hrule'].
    destruct (foldl_visit_tallies relative root rs events no_counters) as [Hu Hl].
    destruct (foldl_visit_tallies relative root rs events' no_counters) as [Hu' Hl'].
    apply counters_eq.
    - apply map_eq. intros i. rewrite Hid, Hid'.
      now rewrite (List.map_ext _ _ Hex).
    - apply map_eq. intros s. rewrite Hrule, Hrule'.
      now rewrite (List.map_ext _ _ Hex).
    - rewrite Hu, Hu'. f_equal. now apply filter_length_Permutation.
    - rewrite Hl, Hl'. f_equal. now apply filter_length_Permutation. }
  rewrite Hc, (Permutation_length Hperm). reflexivity.
Qed.

Lemma overlay_order_independent_witness :
  crossReference below_root "/proj" (Some [sample_finding])
    [ {| location := Some "/proj/a.js:12"%string; origin := Some "user"%string |};
      {| location := Some "/proj/b.js:3"%string; origin := None |} ]
  = crossReference below_root "/proj" (Some [sample_finding])
    [ {| location := Some "/proj/b.js:3"%string; origin := None |};
      {| location := Some "/proj/a.js:12"%string; origin := Some "user"%string |} ].
Proof.
  apply (overlay_order_independent below_root "/proj" (Some [sample_finding])).
  apply perm_swap.
Defined.

(** *** [mergeReportWithExec] *)

(** a finding of the merged report: [{ ...f, execCount }] *)
Record MergedFinding : Type := { finding : Finding; execCount : nat }.

(** the merged report, restricted to the fields the function sets *)
Record MergedReport : Type := {
  findings : list MergedFinding;
  dynamic : Summary
}.

(** [staticReport.findings.map] throws when [findings] is no array. *)
Definition mergeReportWithExec (staticReport : option (list Finding))
    (overlay : Overlay) : outcome MergedReport :=
  match staticReport with
  | None => Throws (Error "TypeError: Cannot read properties of undefined (reading 'map')")
  | Some fs =>
      Returns {| findings :=
                   List.map (fun f => {| finding := f;
                                         execCount := default 0 (execCounts overlay !! id f) |})
                            fs;
                 dynamic := summary overlay |}
  end.

Lemma list_sum_zero {A} (g : A -> nat) (l : list A) :
  list_sum (List.map g l) = 0 <-> forall x, In x l -> g x = 0.
Proof.
  induction l as [|x l IH]; simpl.
  - split; [intros _ x []|reflexivity].
  - split.
    + intros H y [<-|Hy]; [lia|]. apply IH; [lia|exact Hy].
    + intros H. rewrite (H x) by now left.
      apply IH. intros y Hy. apply H. now right.
Qed.

Lemma list_sum_nonzero {A} (g : A -> nat) (l : list A) :
  list_sum (List.map g l) <> 0 <-> exists x, In x l /\ g x <> 0.
Proof.
  induction l as [|x l IH]; simpl.
  - split; [intros H; now elim H | intros (x & [] & _)].
  - split.
    + intros H. destruct (Nat.eq_dec (g x) 0) as [E|E].
      * destruct (proj1 IH) as (y & Hy & Hg); [lia|]. exists y. auto.
      * exists x. auto.
    + intros (y & [<-|Hy] & Hg); [lia|].
      assert (list_sum (List.map g l) <> 0) by (apply IH; eauto). lia.
Qed.

Lemma filter_unique_id (fs : list Finding) (f : Finding) :
  NoDup (List.map id fs) -> In f fs ->
  List.filter (fun g => bool_decide (id g = id f)) fs = [f].
Proof.
  induction fs as [|g fs IH]; simpl; [intros _ []|].
  intros Hnd Hin. apply NoDup_cons in Hnd as [Hg Hnd].
  destruct Hin as [->|Hin].
  - rewrite bool_decide_eq_true_2 by reflexivity. f_equal.
    clear IH Hnd. induction fs as [|h fs IH]; simpl; [reflexivity|].
    rewrite bool_decide_eq_false_2.
    + apply IH. intros H. apply Hg. now right.
    + intros Heq. apply Hg. rewrite <- Heq. now left.
  - rewrite bool_decide_eq_false_2; [now apply IH|].
    intros Heq. apply Hg. rewrite Heq.
    apply list_elem_of_In, in_map, Hin.
Qed.

Lemma total_by_finding relative root events
    (sel : FnRange -> bool) (sel' : Finding -> bool) (fs : list Finding) :
  (forall f, sel (fnRange f) = sel' f) ->
  list_sum (List.map (executionsOf relative root events)
              (List.filter sel (List.map fnRange fs))) =
  list_sum (List.map (fun f => executionsOf relative root events (fnRange f))
              (List.filter sel' fs)).
Proof.
  intros Hs. induction fs as [|f fs IH]; simpl; [reflexivity|].
  rewrite Hs. destruct (sel' f); simpl; now rewrite IH.
Qed.

Lemma execCounts_of_finding relative root fs events i :
  execCounts (crossReference relative root (Some fs) events) !! i =
  match list_sum (List.map (fun f => executionsOf relative root events (fnRange f))
                    (List.filter (fun f => bool_decide (id f = i)) fs)) with
  | 0 => None
  | n => Some n
  end.
Proof.
  unfold crossReference. simpl. fold no_counters.
  destruct (counts_of_trace relative root (List.map fnRange fs) events) as [Hid _].
  rewrite Hid.
  now rewrite (total_by_finding relative root events _
                 (fun f => bool_decide (id f = i))).
Qed.

(** X3: what the trace-upload handler returns.  For a report whose
    finding ids are distinct, merging the report with the overlay of a
    trace gives the findings in their order, each with [execCount] equal
    to the number of events of the trace that resolve to its file and to a
    line of its function range (0 when there is none), and attaches the
    overlay's summary. *)
Theorem merge_after_crossReference (relative : string -> string -> string)
    (root : string) (fs : list Finding) (events : list TraceEvent) :
  NoDup (List.map id fs) ->
  mergeReportWithExec (Some fs) (crossReference relative root (Some fs) events) =
  Returns {| findings :=
               List.map (fun f => {| finding := f;
                                     execCount := executionsOf relative root events (fnRange f) |})
                        fs;
             dynamic := summary (crossReference relative root (Some fs) events) |}.
Proof.
  intros Hnd. unfold mergeReportWithExec. do 2 f_equal.
  apply List.map_ext_in. intros f Hf. f_equal.
  rewrite execCounts_of_finding, (filter_unique_id fs f Hnd Hf). simpl.
  rewrite Nat.add_0_r.
  now destruct (executionsOf relative root events (fnRange f)).
Qed.

Lemma merge_after_crossReference_witness :
  findings <$>
    match mergeReportWithExec (Some [sample_finding])
            (crossReference below_root "/proj" (Some [sample_finding])
               [ {| location := Some "/proj/a.js:12"%string; origin := Some "user"%string |};
                 {| location := Some "/proj/a.js:14"%string; origin := None |};
                 {| location := Some "/proj/a.js:15"%string; origin := None |} ])
    with Returns r => Some r | Throws _ => None end
  = Some [ {| finding := sample_finding; execCount := 2 |} ].
Proof.
  rewrite (merge_after_crossReference below_root "/proj" [sample_finding]).
  - reflexivity.
  - apply (bool_decide_unpack _). vm_compute. exact I.
Defined.

(** X4: [executedFindingCount], the number of keys of [execCounts], never
    exceeds the number of findings that some event executes; when the
    finding ids are distinct it is exactly that number. *)
Theorem executedFindingCount_exact (relative : string -> string -> string)
    (root : string) (fs : list Finding) (events : list TraceEvent) :
  let executed :=
    List.filter (fun f => negb (executionsOf relative root events (fnRange f) =? 0)) fs in
  let count :=
    executedFindingCount (summary (crossReference relative root (Some fs) events)) in
  count <= length executed /\
  (NoDup (List.map id fs) -> count = length executed).
Proof.
  intros executed count.
  set (m := execCounts (crossReference relative root (Some fs) events)).
  assert (Hcount : count = size (dom m)) by (symmetry; apply size_dom).
  assert (Hdom : dom m ≡ list_to_set (List.map id executed)).
  { intros i. rewrite elem_of_dom, elem_of_list_to_set, list_elem_of_In, in_map_iff.
    unfold m. rewrite execCounts_of_finding.
    set (n := list_sum _).
    assert (Hn : n <> 0 <-> exists f, id f = i /\ In f executed).
    { unfold n, executed. rewrite list_sum_nonzero. split.
      - intros (f & Hin & Hex). apply filter_In in Hin as [Hin Hid].
        apply bool_decide_eq_true_1 in Hid.
        exists f. split; [exact Hid|]. apply filter_In. split; [exact Hin|].
        now apply negb_true_iff, Nat.eqb_neq.
      - intros (f & Hid & Hin). apply filter_In in Hin as [Hin Hex].
        apply negb_true_iff, Nat.eqb_neq in Hex.
        exists f. split; [|exact Hex]. apply filter_In. split; [exact Hin|].
        now apply bool_decide_eq_true_2. }
    destruct n; split.
    - intros [? [=]].
    - intros H. exfalso. now apply Hn in H.
    - intros _. apply Hn. lia.
    - eauto. }
  rewrite Hcount.
  assert (Hsize : size (dom m) = size (list_to_set (C := gset Z) (List.map id executed)))
    by now rewrite Hdom.
  rewrite Hsize. split.
  - unfold size, set_size. simpl. rewrite <- (length_map id executed).
    apply submseteq_length, NoDup_submseteq; [apply NoDup_elements|].
    intros i. now rewrite elem_of_elements, elem_of_list_to_set.
  - intros Hnd. rewrite size_list_to_set, length_map; [reflexivity|].
    unfold executed. clear -Hnd.
    induction fs as [|f fs IH]; simpl; [constructor|].
    simpl in Hnd. apply NoDup_cons in Hnd as [Hf Hnd].
    destruct (negb _); simpl; [|now apply IH].
    apply NoDup_cons. split; [|now apply IH].
    intros Hin. apply Hf.
    apply list_elem_of_In, in_map_iff in Hin as (g & Hg & Hin).
    apply filter_In in Hin as [Hin _].
    rewrite <- Hg. apply list_elem_of_In, in_map, Hin.
Qed.

End Overlay.

(** ** What [parseLocation] accepts *)

Module Locations.
Import Correlator.
Open Scope string_scope.

Definition digits (s : string) : bool := forallb is_digit (list_ascii_of_string s).

Definition one_line (s : string) : bool :=
  forallb (fun c => negb (is_line_terminator c)) (list_ascii_of_string s).

Lemma span_digits_spec s : forall ds rest,
  span_digits s = (ds, rest) -> s = ds ++ rest /\ digits ds = true.
Proof.
  induction s as [|c s IH]; simpl; intros ds rest.
  - intros [= <- <-]. now split.
  - destruct (is_digit c) eqn:Hc.
    + destruct (span_digits s) as [ds' rest'] eqn:E. intros [= <- <-].
      destruct (IH ds' rest' eq_refl) as [-> Hd]. split; [reflexivity|].
      unfold digits. simpl. now rewrite Hc.
    + intros [= <- <-]. now split.
Qed.

Lemma digits_one_line ds : digits ds = true -> one_line ds = true.
Proof.
  unfold digits, one_line. induction ds as [|c ds IH]; simpl; [reflexivity|].
  intros H. apply andb_prop in H as [Hc Hds]. rewrite (IH Hds), andb_true_r.
  destruct c as [[] [] [] [] [] [] [] []]; try reflexivity; discriminate Hc.
Qed.

Lemma match_tail_colon c s g : match_tail (String c s) = Some g -> c = ":"%char.
Proof.
  destruct c as [[] [] [] [] [] [] [] []]; simpl; intros H;
    try discriminate H; reflexivity.
Qed.

Lemma append_empty_r s : s ++ "" = s.
Proof.
  induction s as [|c s IH]; [reflexivity|].
  change (String c (s ++ "") = String c s). now rewrite IH.
Qed.

Lemma is_empty_false s : is_empty s = false <-> s <> "".
Proof. destruct s; simpl; split; congruence. Qed.

Lemma match_location_sound s : forall g1 g2,
  match_location s = Some (g1, g2) ->
  s = g1 ++ String ":" g2 /\ g2 <> "" /\ digits g2 = true /\ one_line g1 = true.
Proof.
  induction s as [|c s IH]; cbn [match_location]; intros g1 g2; [discriminate|].
  destruct (is_line_terminator c) eqn:Hlt.
  - destruct (match_tail (String c s)) as [g|] eqn:Ht; [|discriminate].
    apply match_tail_colon in Ht. subst c. discriminate Hlt.
  - destruct (match_location s) as [[g1' g2']|] eqn:E.
    + intros [= <- <-]. destruct (IH g1' g2' eq_refl) as (-> & Hne & Hd & Hl).
      repeat split; try assumption. unfold one_line. simpl.
      now rewrite Hlt.
    + destruct (match_tail (String c s)) as [g|] eqn:Ht; [|discriminate].
      intros [= <- <-].
      pose proof (match_tail_colon _ _ _ Ht) as ->. simpl in Ht.
      destruct (span_digits s) as [ds rest] eqn:Es.
      destruct (span_digits_spec s ds rest Es) as [-> Hds].
      destruct (is_empty ds) eqn:Hempty; [discriminate|].
      apply is_empty_false in Hempty.
      destruct rest as [|c2 s2].
      * injection Ht as <-. rewrite append_empty_r in *.
        now repeat split.
      * exfalso.
        assert (Hc2 : c2 = ":"%char).
        { destruct c2 as [[] [] [] [] [] [] [] []]; try discriminate Ht; reflexivity. }
        subst c2.
        destruct (span_digits s2) as [ds2 rest2] eqn:Es2.
        destruct (span_digits_spec s2 ds2 rest2 Es2) as [-> Hds2].
        destruct (is_empty ds2) eqn:He2; [discriminate|].
        destruct rest2; [|discriminate].
        apply is_empty_false in He2. rewrite append_empty_r in E.
        rewrite (match_location_last_colon ds ds2) in E;
          [discriminate|now apply digits_one_line|exact Hds2|exact He2].
Qed.

(** X5: [parseLocation] accepts exactly the strings [prefix:digits] whose
    prefix holds no line terminator, and always splits at the last colon:
    the path is everything before it and the line is the number after it.
    A location [path:line:col] therefore yields the path [path:line] and
    the line [col]; the column form is never recognised as such. *)
Theorem parseLocation_last_colon (loc : string) (l : Location) :
  parseLocation loc = Some l <->
  exists ds,
    loc = abs l ++ String ":" ds /\
    ds <> "" /\ digits ds = true /\ one_line (abs l) = true /\
    line l = Number ds.
Proof.
  unfold parseLocation. split.
  - destruct (is_empty loc); [discriminate|].
    destruct (match_location loc) as [[g1 g2]|] eqn:E; [|discriminate].
    intros [= <-]. simpl.
    destruct (match_location_sound loc g1 g2 E) as (-> & Hne & Hd & Hl).
    exists g2. repeat split; try assumption.
    now destruct (Z.eqb_spec (Number g2) 0) as [->|].
  - intros (ds & -> & Hne & Hd & Hl & Hline).
    assert (Hempty : is_empty (abs l ++ String ":" ds) = false)
      by (destruct (abs l); reflexivity).
    rewrite Hempty, (match_location_last_colon (abs l) ds Hl Hd Hne).
    destruct l as [a n]. simpl in *. subst n. do 2 f_equal.
    now destruct (Z.eqb_spec (Number ds) 0) as [->|].
Qed.

End Locations.

(** ** The events the tracer records *)

Module TraceLog.
Import Tracer.

(** the reading of the clock when the callback runs *)
Definition time (c : Callback) : Q :=
  match c with
  | Init _ _ _ _ t | PromiseResolve _ t | Destroy _ t => t
  end.

(** [performance.now()] never goes back: the readings do not decrease
    along the run. *)
Definition clock_monotone (cs : list Callback) : Prop :=
  StronglySorted Qle (List.map time cs).

(** the record ends no earlier than it starts *)
Definition well_timed (evt : PromiseEvent) : Prop :=
  match end_ evt with
  | Some t => (start evt <= t)%Q
  | None => True
  end.

(** the array [flush] sorts and writes after the callbacks [cs] *)
Definition recorded (cs : list Callback) : list PromiseEvent :=
  JsArray.sort before (values (run cs [])).

Lemma values_set P k v m :
  Forall P (values m) -> P v -> Forall P (values (set k v m)).
Proof.
  unfold values. induction m as [|[k' v'] m IH]; simpl; intros Hm Hv.
  - now constructor.
  - apply Forall_cons in Hm as [Hv' Hm].
    destruct (k' =? k)%Z; simpl; constructor; auto.
Qed.

Lemma get_values P k m evt :
  Forall P (values m) -> get k m = Some evt -> P evt.
Proof.
  unfold values. induction m as [|[k' v'] m IH]; simpl; [discriminate|].
  intros Hm. apply Forall_cons in Hm as [Hv' Hm].
  destruct (k' =? k)%Z; [now intros [= <-]|now apply IH].
Qed.

(** up to time [t]: the record started by [t] and, if closed, was closed
    between its start and [t] *)
Definition timed_by (t : Q) (evt : PromiseEvent) : Prop :=
  (start evt <= t)%Q /\
  match end_ evt with
  | Some x => (start evt <= x)%Q /\ (x <= t)%Q
  | None => True
  end.

Lemma timed_by_later t t' evt : (t <= t')%Q -> timed_by t evt -> timed_by t' evt.
Proof.
  unfold timed_by. intros Ht [Hs He]. split; [lra|].
  destruct (end_ evt); [|exact I]. split; [tauto|lra].
Qed.

Lemma step_timed t m c :
  (t <= time c)%Q ->
  Forall (timed_by t) (values m) ->
  Forall (timed_by (time c)) (values (step m c)).
Proof.
  intros Ht Hm.
  assert (Hm' : Forall (timed_by (time c)) (values m)).
  { eapply Forall_impl; [exact Hm|]. intros evt. now apply timed_by_later. }
  assert (Hclose : forall a now, now = time c ->
            Forall (timed_by (time c)) (values (promiseResolve a now m))).
  { intros a now ->. unfold promiseResolve.
    destruct (get a m) as [evt|] eqn:Hget; [|exact Hm'].
    destruct (end_ evt) eqn:Hend; [exact Hm'|].
    apply values_set; [exact Hm'|].
    pose proof (get_values _ _ _ _ Hm' Hget) as [Hs _].
    unfold timed_by. simpl. split; [exact Hs|]. split; [exact Hs|lra]. }
  destruct c as [a ty tr meta now | a now | a now]; simpl in *.
  - unfold init. destruct (negb _); [exact Hm'|].
    apply values_set; [exact Hm'|]. unfold timed_by. simpl. split; [lra|exact I].
  - now apply Hclose.
  - change (destroy a now m) with (promiseResolve a now m). now apply Hclose.
Qed.

Lemma run_timed cs : forall t m,
  Forall (fun c => (t <= time c)%Q) cs ->
  clock_monotone cs ->
  Forall (timed_by t) (values m) ->
  Forall well_timed (values (run cs m)).
Proof.
  unfold clock_monotone.
  induction cs as [|c cs IH]; intros t m Hfrom Hmono Hm.
  - simpl. eapply Forall_impl; [exact Hm|].
    intros evt [_ He]. unfold well_timed. destruct (end_ evt); tauto.
  - simpl in Hmono. apply StronglySorted_inv in Hmono as [Hmono Hc].
    apply Forall_cons in Hfrom as [Htc _].
    unfold run. simpl. apply (IH (time c)).
    + rewrite Forall_forall in Hc. apply Forall_forall. intros c' Hc'.
      apply Hc. apply list_elem_of_In, in_map, list_elem_of_In, Hc'.
    + exact Hmono.
    + now apply (step_timed t).
Qed.

(** X6: with a clock that never goes back, no event of the written trace
    ends before it starts, whatever callbacks ran and in whatever
    interleaving. *)
Theorem trace_end_not_before_start (cs : list Callback) :
  clock_monotone cs -> Forall well_timed (recorded cs).
Proof.
  intros Hmono. unfold recorded.
  assert (H : Forall well_timed (values (run cs []))).
  { destruct cs as [|c cs]; [constructor|].
    apply (run_timed (c :: cs) (time c) []); [|exact Hmono|constructor].
    unfold clock_monotone in Hmono. simpl in Hmono.
    apply StronglySorted_inv in Hmono as [_ Hc].
    constructor; [lra|].
    rewrite Forall_forall in Hc. apply Forall_forall. intros c' Hc'.
    apply Hc. apply list_elem_of_In, in_map, list_elem_of_In, Hc'. }
  rewrite Forall_forall in H. apply Forall_forall. intros evt Hevt.
  apply H. apply list_elem_of_In.
  eapply Permutation_in; [apply JsArray.sort_perm|].
  apply list_elem_of_In, Hevt.
Qed.

Lemma trace_end_not_before_start_witness :
  Forall well_timed
    (recorded [Init 7 "PROMISE" 1 (Build_CallSite None None None) 1%Q;
               Init 8 "PROMISE" 7 (Build_CallSite None None None) 2%Q;
               PromiseResolve 8 2%Q; Destroy 7 5%Q; PromiseResolve 7 6%Q]).
Proof.
  apply trace_end_not_before_start.
  unfold clock_monotone. simpl.
  repeat (constructor; [|repeat (constructor; [discriminate|]); constructor]).
  constructor.
Defined.

(** every record is stored under its own id and is of type [PROMISE] *)
Definition keyed (m : EventMap) : Prop :=
  NoDup (List.map fst m) /\
  Forall (fun kv => id (snd kv) = fst kv /\ type (snd kv) = "PROMISE"%string) m.

Lemma set_keys k v m x :
  In x (List.map fst (set k v m)) -> x = k \/ In x (List.map fst m).
Proof.
  induction m as [|[k' v'] m IH]; simpl.
  - intros [<-|[]]. now left.
  - destruct (Z.eqb_spec k' k) as [->|Hne]; simpl.
    + intros [<-|H]; auto.
    + intros [<-|H]; auto. destruct (IH H); auto.
Qed.

Lemma set_keyed k v m :
  id v = k -> type v = "PROMISE"%string -> keyed m -> keyed (set k v m).
Proof.
  intros Hid Hty [Hnd Hall]. split.
  - induction m as [|[k' v'] m IH]; simpl.
    + apply NoDup_cons. split; [apply not_elem_of_nil|constructor].
    + simpl in Hnd. apply NoDup_cons in Hnd as [Hk' Hnd].
      apply Forall_cons in Hall as [_ Hall].
      destruct (Z.eqb_spec k' k) as [->|Hne]; simpl.
      * apply NoDup_cons. split; assumption.
      * apply NoDup_cons. split; [|now apply IH].
        intros Hin. apply list_elem_of_In, set_keys in Hin as [->|Hin].
        -- now apply Hne.
        -- apply Hk', list_elem_of_In, Hin.
  - clear Hnd. induction m as [|[k' v'] m IH]; simpl.
    + constructor; [now split|constructor].
    + apply Forall_cons in Hall as [Hkv Hall].
      destruct (k' =? k)%Z; constructor; auto.
Qed.

Lemma get_keyed k m evt :
  keyed m -> get k m = Some evt -> id evt = k /\ type evt = "PROMISE"%string.
Proof.
  intros [_ Hall]. induction m as [|[k' v'] m IH]; simpl; [discriminate|].
  apply Forall_cons in Hall as [Hkv Hall].
  destruct (Z.eqb_spec k' k) as [->|Hne]; [|now apply IH].
  intros [= <-]. exact Hkv.
Qed.

Lemma step_keyed m c : keyed m -> keyed (step m c).
Proof.
  intros Hm.
  assert (Hclose : forall a now, keyed (promiseResolve a now m)).
  { intros a now. unfold promiseResolve.
    destruct (get a m) as [evt|] eqn:Hget; [|exact Hm].
    destruct (end_ evt); [exact Hm|].
    destruct (get_keyed a m evt Hm Hget) as [Hid Hty].
    now apply set_keyed. }
  destruct c as [a ty tr meta now | a now | a now]; simpl.
  - unfold init. destruct (String.eqb_spec ty "PROMISE") as [->|Hne]; simpl.
    + now apply set_keyed.
    + exact Hm.
  - apply Hclose.
  - change (destroy a now m) with (promiseResolve a now m). apply Hclose.
Qed.

Lemma run_keyed cs : forall m, keyed m -> keyed (run cs m).
Proof.
  induction cs as [|c cs IH]; intros m Hm; [exact Hm|].
  unfold run. simpl. apply IH. now apply step_keyed.
Qed.

(** X7: in the written trace the ids are pairwise distinct and every event
    is of type [PROMISE], whatever callbacks ran: resources of other types
    are never recorded, and creating, settling or tearing down a task
    never adds a second record for its id. *)
Theorem trace_ids_unique (cs : list Callback) :
  NoDup (List.map id (recorded cs)) /\
  Forall (fun evt => type evt = "PROMISE"%string) (recorded cs).
Proof.
  assert (Hk : keyed (run cs [])).
  { apply run_keyed. split; constructor. }
  destruct Hk as [Hnd Hall].
  assert (Hids : List.map id (values (run cs [])) = List.map fst (run cs [])).
  { unfold values. rewrite List.map_map.
    induction Hall as [|kv m [Hid _] _ IH]; simpl; [reflexivity|].
    simpl in Hnd. apply NoDup_cons in Hnd as [_ Hnd].
    now rewrite Hid, IH. }
  unfold recorded. split.
  - rewrite (Permutation_map id (JsArray.sort_perm before _)), Hids. exact Hnd.
  - rewrite (JsArray.sort_perm before _). unfold values.
    clear Hnd Hids. induction Hall as [|kv m [_ Hty] _ IH]; simpl; constructor; auto.
Qed.

End TraceLog.

(** ** File discovery: [walk] of [runAnalysis], and looking an issue up *)

Module Discovery.
Import Analyzer.

(** An entry of a directory, as [readdirSync(dir, { withFileTypes: true })]
    lists it: a file, a directory with its own entries, or something that
    is neither ([isDirectory()] and [isFile()] both false). *)
#[local] Set Warnings "-register-all".

Inductive Dirent : Type :=
| File (name : string)
| Directory (name : string) (entries : list Dirent)
| Special (name : string).

Definition name_of (e : Dirent) : string :=
  match e with File n | Directory n _ | Special n => n end.

(** [entry.name.startsWith('.') || entry.name === 'node_modules'] *)
Definition excluded (name : string) : bool :=
  String.prefix "." name || String.eqb name "node_modules".

(** [s.endsWith(suffix)] *)
Definition ends_with (suffix s : string) : bool :=
  (String.length suffix <=? String.length s) &&
  String.eqb (String.substring (String.length s - String.length suffix)
                               (String.length suffix) s) suffix.

(** the test of the name against the pattern of source extensions: a dot
    and one of js, jsx, ts, tsx, mjs, cjs at the end *)
Definition is_source (name : string) : bool :=
  existsb (fun ext => ends_with ext name)
          [".js"; ".jsx"; ".ts"; ".tsx"; ".mjs"; ".cjs"]%string.

Section Walk.
(** [path.join] *)
Variable join : string -> string -> string.

(** what one entry of [dir] adds to [files] *)
Fixpoint walk_entry (dir : string) (entry : Dirent) : list string :=
  match entry with
  | File name =>
      if excluded name then []                         (* continue *)
      else if is_source name then [join dir name] else []
  | Directory name entries =>
      if excluded name then []                         (* continue *)
      else flat_map (walk_entry (join dir name)) entries
  | Special name => []
  end.

(** [walk(dir)], given the entries of [dir]; the result is what the call
    pushes onto [files], in order *)
Definition walk (dir : string) (entries : list Dirent) : list string :=
  flat_map (walk_entry dir) entries.

End Walk.

Example walk_sample :
  walk (fun d n => d ++ "/" ++ n)%string "/proj"
    [ Directory ".git" [File "hook.js"];
      Directory "src" [File "a.ts"; File "notes.md"; Directory "node_modules" [File "x.js"]];
      File "index.mjs"; Special "link.js"; File ".eslintrc.js" ]%string
  = ["/proj/src/a.ts"; "/proj/index.mjs"]%string.
Proof. reflexivity. Qed.

(** Induction over a directory tree. *)
Fixpoint Dirent_tree_ind (P : Dirent -> Prop)
    (HF : forall n, P (File n))
    (HD : forall n es, Forall P es -> P (Directory n es))
    (HS : forall n, P (Special n)) (e : Dirent) : P e :=
  match e with
  | File n => HF n
  | Directory n es =>
      HD n es ((fix go (es : list Dirent) : Forall P es :=
                  match es with
                  | [] => @List.Forall_nil _ P
                  | e :: es =>
                      @List.Forall_cons _ P e es (Dirent_tree_ind P HF HD HS e) (go es)
                  end) es)
  | Special n => HS n
  end.

(** X8: every path [walk] lists is the join of some directory and a name
    that does not start with a dot, is not [node_modules] and ends in one
    of the source extensions; and an entry whose name starts with a dot
    or is [node_modules] contributes nothing, whatever it is and whatever
    it contains. *)
Theorem walk_lists_sources_only (join : string -> string -> string)
    (dir : string) (entries : list Dirent) :
  (forall p, In p (walk join dir entries) ->
     exists d name, p = join d name /\ excluded name = false /\ is_source name = true) /\
  (forall before_ entry after,
     entries = before_ ++ entry :: after ->
     excluded (name_of entry) = true ->
     walk join dir entries = walk join dir (before_ ++ after)).
Proof.
  split.
  - unfold walk. revert dir.
    induction entries as [|e es IHes]; intros dir p; simpl; [intros []|].
    rewrite in_app_iff. intros [Hp|Hp]; [|now apply (IHes dir)].
    clear IHes. revert dir p Hp.
    induction e as [n|n sub IH|n] using Dirent_tree_ind; intros dir p; simpl.
    + destruct (excluded n) eqn:Hex; [intros []|].
      destruct (is_source n) eqn:Hsrc; [|intros []].
      intros [<-|[]]. eauto.
    + destruct (excluded n); [intros []|].
      rewrite in_flat_map. intros (e & He & Hp).
      rewrite Forall_forall in IH.
      apply (IH e (proj2 (list_elem_of_In _ _) He) _ _ Hp).
    + intros [].
  - intros before_ entry after -> Hex. unfold walk.
    rewrite !flat_map_app. simpl.
    assert (Hnil : walk_entry join dir entry = []).
    { destruct entry; simpl in *; now rewrite ?Hex. }
    now rewrite Hnil.
Qed.

(** *** Distinct paths *)

(** [path.join(dir, name)] for a normalised [dir] and a plain name *)
Definition joined (dir name : string) : string := (dir ++ "/" ++ name)%string.

(** a name as a directory listing gives it: without a separator *)
Definition plain (name : string) : Prop :=
  forallb (fun c => negb (Ascii.eqb c "/")) (list_ascii_of_string name) = true.

(** the names in every directory are plain and pairwise distinct *)
Inductive well_named : Dirent -> Prop :=
| wn_file n : plain n -> well_named (File n)
| wn_special n : plain n -> well_named (Special n)
| wn_directory n es :
    plain n -> NoDup (List.map name_of es) -> Forall well_named es ->
    well_named (Directory n es).

Lemma well_named_plain e : well_named e -> plain (name_of e).
Proof. now destruct 1. Qed.

Lemma append_cons c (s t : string) : (String c s ++ t)%string = String c (s ++ t)%string.
Proof. reflexivity. Qed.

Lemma append_assoc (a b c : string) : ((a ++ b) ++ c)%string = (a ++ (b ++ c))%string.
Proof.
  induction a as [|x a IH]; [reflexivity|].
  now rewrite !append_cons, IH.
Qed.

Lemma append_nil_right (s : string) : (s ++ "")%string = s.
Proof.
  induction s as [|x s IH]; [reflexivity|]. now rewrite append_cons, IH.
Qed.

Lemma append_inv_head (a s t : string) : (a ++ s)%string = (a ++ t)%string -> s = t.
Proof.
  induction a as [|x a IH]; [trivial|].
  rewrite !append_cons. intros [= H]. now apply IH.
Qed.

(** what follows a name in a path: nothing, or a separator and more *)
Definition continues (r : string) : Prop :=
  r = ""%string \/ exists r', r = String "/" r'.

Lemma plain_name_determined n1 : forall n2 r1 r2,
  plain n1 -> plain n2 -> continues r1 -> continues r2 ->
  (n1 ++ r1)%string = (n2 ++ r2)%string -> n1 = n2.
Proof.
  unfold plain.
  induction n1 as [|c n1 IH]; intros [|d n2] r1 r2 H1 H2 C1 C2; simpl in *.
  - reflexivity.
  - change (r1 = String d (n2 ++ r2)%string -> EmptyString = String d n2).
    intros ->. destruct C1 as [C|[r' [= -> _]]]; [discriminate C|].
    discriminate H2.
  - change (String c (n1 ++ r1)%string = r2 -> String c n1 = EmptyString).
    intros <-. destruct C2 as [C|[r' [= -> _]]]; [discriminate C|].
    discriminate H1.
  - rewrite !append_cons. intros Heq. injection Heq as Hcd Htail. subst d.
    apply andb_prop in H1 as [_ H1]. apply andb_prop in H2 as [_ H2].
    f_equal. apply (IH n2 r1 r2); assumption.
Qed.

(** Every path listed for an entry of [dir] starts with [dir], a
    separator and the name of the entry. *)
Lemma walk_entry_prefix e : forall dir p,
  In p (walk_entry joined dir e) ->
  exists r, p = (dir ++ "/" ++ name_of e ++ r)%string /\ continues r.
Proof.
  induction e as [n|n sub IH|n] using Dirent_tree_ind; intros dir p; simpl.
  - destruct (excluded n); [intros []|].
    destruct (is_source n); [|intros []].
    intros [<-|[]]. exists ""%string. split; [|now left].
    unfold joined. now rewrite append_nil_right.
  - destruct (excluded n); [intros []|].
    rewrite in_flat_map. intros (e & He & Hp).
    rewrite Forall_forall in IH.
    destruct (IH e (proj2 (list_elem_of_In _ _) He) _ _ Hp) as (r & -> & Hr).
    exists ("/" ++ name_of e ++ r)%string. split; [|right; eauto].
    unfold joined. now rewrite !append_assoc.
  - intros [].
Qed.

Lemma walk_entries_NoDup es :
  NoDup (List.map name_of es) ->
  Forall (fun e => plain (name_of e)) es ->
  Forall (fun e => forall dir, NoDup (walk_entry joined dir e)) es ->
  forall dir, NoDup (walk joined dir es).
Proof.
  unfold walk.
  induction es as [|e es IH]; intros Hnames Hplain Hsub dir; simpl; [constructor|].
  simpl in Hnames. apply NoDup_cons in Hnames as [He Hnames].
  apply Forall_cons in Hplain as [Hpe Hplain].
  apply Forall_cons in Hsub as [Hse Hsub].
  apply NoDup_app. split; [apply Hse|]. split; [|now apply IH].
  intros p Hp Hp'.
  apply list_elem_of_In in Hp, Hp'.
  apply in_flat_map in Hp' as (e' & He' & Hp').
  destruct (walk_entry_prefix e dir p Hp) as (r & -> & Hr).
  destruct (walk_entry_prefix e' dir _ Hp') as (r' & Heq & Hr').
  apply append_inv_head in Heq.
  change ((String "/" (name_of e ++ r))%string = String "/" (name_of e' ++ r')%string) in Heq.
  injection Heq as Heq.
  apply (plain_name_determined (name_of e) (name_of e') r r') in Heq; auto.
  - apply He. rewrite Heq. apply list_elem_of_In, in_map, He'.
  - rewrite Forall_forall in Hplain. apply Hplain, list_elem_of_In, He'.
Qed.

Lemma walk_entry_NoDup e : well_named e -> forall dir, NoDup (walk_entry joined dir e).
Proof.
  induction e as [n|n sub IH|n] using Dirent_tree_ind; intros Hwn dir; simpl.
  - destruct (excluded n); [constructor|].
    destruct (is_source n); [|constructor].
    apply NoDup_cons. split; [apply not_elem_of_nil|constructor].
  - destruct (excluded n); [constructor|].
    inversion Hwn as [| |n' es' Hn Hnames Hall]; subst.
    apply (walk_entries_NoDup sub Hnames).
    + eapply Forall_impl; [exact Hall|]. intros e. apply well_named_plain.
    + rewrite Forall_forall in IH, Hall. apply Forall_forall.
      intros e He. apply IH; [exact He|]. now apply Hall.
  - constructor.
Qed.

(** X9: in a directory tree whose names are plain and pairwise distinct
    within each directory, [walk] lists no path twice. *)
Theorem walk_paths_distinct (dir : string) (entries : list Dirent) :
  NoDup (List.map name_of entries) ->
  Forall well_named entries ->
  NoDup (walk joined dir entries).
Proof.
  intros Hnames Hall.
  apply (walk_entries_NoDup entries Hnames).
  - eapply Forall_impl; [exact Hall|]. intros e. apply well_named_plain.
  - eapply Forall_impl; [exact Hall|]. intros e. apply walk_entry_NoDup.
Qed.

Definition sample_tree : list Dirent :=
  [ Directory "src" [File "a.ts"; File "b.js"; Directory "lib" [File "a.ts"]];
    File "a.ts"; Directory "node_modules" [File "x.js"] ]%string.

Lemma walk_paths_distinct_witness : NoDup (walk joined "/proj" sample_tree).
Proof.
  apply walk_paths_distinct.
  - apply (bool_decide_unpack _). vm_compute. exact I.
  - unfold sample_tree.
    repeat first
      [ apply List.Forall_nil
      | apply List.Forall_cons
      | apply wn_file; reflexivity
      | apply wn_directory; [reflexivity | apply (bool_decide_unpack _); vm_compute; exact I | ] ].
Defined.

(** *** The order of directory listings *)

(** the same tree, with the entries of any directory listed in another
    order *)
Inductive reordered : list Dirent -> list Dirent -> Prop :=
| ro_nil : reordered [] []
| ro_same e es es' : reordered es es' -> reordered (e :: es) (e :: es')
| ro_within n sub sub' es es' :
    reordered sub sub' -> reordered es es' ->
    reordered (Directory n sub :: es) (Directory n sub' :: es')
| ro_swap e1 e2 es : reordered (e1 :: e2 :: es) (e2 :: e1 :: es)
| ro_trans es1 es2 es3 : reordered es1 es2 -> reordered es2 es3 -> reordered es1 es3.

Lemma walk_reordered join es es' :
  reordered es es' -> forall dir, Permutation (walk join dir es) (walk join dir es').
Proof.
  unfold walk.
  induction 1 as [|e es es' _ IH|n sub sub' es es' _ IHsub _ IH|e1 e2 es
                  |es1 es2 es3 _ IH1 _ IH2]; intros dir; simpl.
  - constructor.
  - now rewrite IH.
  - rewrite IH. destruct (excluded n); [reflexivity|]. now rewrite IHsub.
  - rewrite !app_assoc. apply Permutation_app_tail, Permutation_app_comm.
  - now rewrite IH1.
Qed.

(** the files handed to the linter: every listed path with the text read
    from it *)
Definition sources (readFileSync : string -> string) (paths : list string)
  : list SourceFile :=
  List.map (fun p => (p, readFileSync p)) paths.

(** X10: the report does not depend on the order in which [readdirSync]
    lists the entries of any directory.  For a tree with plain names,
    distinct within each directory, whenever the analysis of the tree
    returns a report, the analysis of the same tree listed in any other
    order returns the same report, with the same ids. *)
Theorem report_independent_of_listing
    (verify : string -> string -> outcome (list LintMessage))
    (readFileSync : string -> string) (dir : string)
    (entries entries' : list Dirent) (report : list Finding) :
  NoDup (List.map name_of entries) ->
  Forall well_named entries ->
  reordered entries entries' ->
  runAnalysis verify (sources readFileSync (walk joined dir entries)) = Returns report ->
  runAnalysis verify (sources readFileSync (walk joined dir entries')) = Returns report.
Proof.
  intros Hnames Hwn Hre.
  pose proof (walk_reordered joined entries entries' Hre dir) as Hperm.
  assert (Hnd : NoDup (walk joined dir entries)).
  { apply (walk_entries_NoDup entries Hnames).
    - eapply Forall_impl; [exact Hwn|]. intros e. apply well_named_plain.
    - eapply Forall_impl; [exact Hwn|]. intros e. apply walk_entry_NoDup. }
  set (files := sources readFileSync (walk joined dir entries)).
  set (files' := sources readFileSync (walk joined dir entries')).
  assert (Hfiles : Permutation files files') by now apply Permutation_map.
  assert (Hpaths : NoDup (List.map fst files)).
  { unfold files, sources. rewrite List.map_map. simpl. now rewrite List.map_id. }
  unfold runAnalysis. rewrite !collect_unfold.
  destruct (firstFailure verify files) eqn:Hff; [discriminate|].
  assert (Hff' : firstFailure verify files' = None).
  { apply firstFailure_None. rewrite <- Hfiles. now apply firstFailure_None. }
  rewrite Hff'. simpl.
  now rewrite (sort_enumeration verify files files' Hfiles Hpaths).
Qed.

Lemma report_independent_of_listing_witness :
  runAnalysis sample_verify
    (sources (fun p => p) (walk joined "/proj"
       [ File "a.ts"; Directory "src" [File "b.js"; File "a.ts"] ]%string))
  = Returns
      [ {| id := 1; file := "/proj/a.ts"; line := 10; column := 5;
           pattern := "await-in-loop"; message := "/proj/a.ts"; fixable := false |};
        {| id := 2; file := "/proj/src/a.ts"; line := 14; column := 5;
           pattern := "await-in-loop"; message := "/proj/src/a.ts"; fixable := false |};
        {| id := 3; file := "/proj/src/b.js"; line := 14; column := 5;
           pattern := "await-in-loop"; message := "/proj/src/b.js"; fixable := false |} ]%string.
Proof.
  apply (report_independent_of_listing sample_verify (fun p => p) "/proj"
           [ Directory "src" [File "a.ts"; File "b.js"]; File "a.ts" ]%string).
  - apply (bool_decide_unpack _). vm_compute. exact I.
  - repeat first
      [ apply List.Forall_nil
      | apply List.Forall_cons
      | apply wn_file; reflexivity
      | apply wn_directory; [reflexivity | apply (bool_decide_unpack _); vm_compute; exact I | ] ].
  - eapply ro_trans; [apply ro_swap|].
    apply ro_same. apply ro_within; [apply ro_swap|apply ro_nil].
  - vm_compute. reflexivity.
Defined.

(** *** [results.find(res => res.id === issueId)] of the [fix] command *)

Definition findIssue (issueId : Z) (results : list Finding) : option Finding :=
  List.find (fun res => (id res =? issueId)%Z) results.

Lemma find_numbered (l : list Finding) : forall (off k : Z),
  (forall i a, l !! i = Some a -> id a = (off + Z.of_nat i + 1)%Z) ->
  findIssue k l =
  if (off + 1 <=? k)%Z then l !! Z.to_nat (k - off - 1) else None.
Proof.
  unfold findIssue.
  induction l as [|a l IH]; intros off k Hid; simpl.
  - now destruct (off + 1 <=? k)%Z.
  - pose proof (Hid 0 a eq_refl) as Ha. simpl in Ha.
    destruct (Z.eqb_spec (id a) k) as [Hk|Hk].
    + destruct (Z.leb_spec (off + 1) k); [|lia].
      replace (Z.to_nat (k - off - 1)) with 0 by lia. reflexivity.
    + rewrite (IH (off + 1)%Z k).
      * destruct (Z.leb_spec (off + 1 + 1) k); destruct (Z.leb_spec (off + 1) k);
          try lia; try reflexivity.
        replace (Z.to_nat (k - off - 1)) with (S (Z.to_nat (k - (off + 1) - 1))) by lia.
        reflexivity.
      * intros i b Hb. rewrite (Hid (S i) b Hb). lia.
Qed.

(** X11: in a report of [runAnalysis], looking an issue up by id finds the
    finding at index [id - 1]: every id from 1 to the number of findings
    names exactly one finding, and any other id names none. *)
Theorem findIssue_by_index
    (verify : string -> string -> outcome (list LintMessage))
    (files : list SourceFile) (report : list Finding) (issueId : Z) :
  runAnalysis verify files = Returns report ->
  findIssue issueId report =
    if (1 <=? issueId)%Z && (issueId <=? Z.of_nat (length report))%Z
    then report !! Z.to_nat (issueId - 1)
    else None.
Proof.
  unfold runAnalysis. destruct (collect verify files []) as [results|e]; [|discriminate].
  intros [= <-].
  rewrite (find_numbered _ 0 issueId).
  - change (0 + 1)%Z with 1%Z.
    replace (issueId - 0 - 1)%Z with (issueId - 1)%Z by lia.
    destruct (1 <=? issueId)%Z eqn:H1; [|reflexivity]. simpl.
    destruct (Z.leb_spec issueId (Z.of_nat (length (assignIds (JsArray.sort before results)))));
      [reflexivity|].
    apply lookup_ge_None_2. lia.
  - intros i a. rewrite assignIds_lookup.
    destruct (JsArray.sort before results !! i); [|discriminate].
    simpl. intros [= <-]. simpl. lia.
Qed.

Lemma findIssue_by_index_witness :
  findIssue 2
    [ {| id := 1; file := "a.js"; line := 2; column := 5;
         pattern := "await-in-loop"; message := "a.js"; fixable := false |};
      {| id := 2; file := "b.js"; line := 1; column := 5;
         pattern := "await-in-loop"; message := "b.js"; fixable := false |} ]%string
  = Some {| id := 2; file := "b.js"; line := 1; column := 5;
            pattern := "await-in-loop"; message := "b.js"; fixable := false |}%string.
Proof.
  rewrite (findIssue_by_index sample_verify [("b.js", "x"); ("a.js", "xx")]%string _ 2).
  - reflexivity.
  - vm_compute. reflexivity.
Defined.

End Discovery.

(** ** Further rules, and how the rules relate *)

Module RuleFacts.
Import Ast Rules.

(** *** [customPromisification.ts] *)

Definition avoidNewPromise (node : Node) : Report :=
  {| r_node := node; r_messageId := "avoidNewPromise"; r_fix := None |}.

(** the listener [NewExpression(node)] *)
Definition customPromisification (node : Node) : list Report :=
  match node with
  | NewExpression _ callee arguments =>
      if is_named "Promise" callee && (length arguments =? 1) then
        match arguments with
        | Function_ _ kind _ _ _ _ :: _ =>
            match kind with
            | FunctionExpression | ArrowFunctionExpression => [avoidNewPromise node]
            | FunctionDeclaration => []
            end
        | _ => []
        end
      else []
  | _ => []
  end.

(** *** [asyncExecutorInPromise.ts] *)

Section AsyncExecutor.
Variable getFirstToken : Node -> option Token.

(** the listener [NewExpression(node)] *)
Definition asyncExecutorInPromise (node : Node) : list Report :=
  match node with
  | NewExpression _ callee arguments =>
      if is_named "Promise" callee && (length arguments =? 1) then
        match arguments with
        | (Function_ _ kind isAsync _ _ _ as executor) :: _ =>
            match kind with
            | FunctionExpression | ArrowFunctionExpression =>
                if isAsync then
                  [ {| r_node := executor;
                       r_messageId := "noAsyncExecutor";
                       r_fix :=
                         match getFirstToken executor with
                         | Some firstToken =>
                             if String.eqb (tok_value firstToken) "async"
                             then Some (remove firstToken)
                             else None
                         | None => None
                         end |} ]
                else []
            | FunctionDeclaration => []
            end
        | _ => []
        end
      else []
  | _ => []
  end.

End AsyncExecutor.

(** X12: every construction that the single-arm rule, the
    redundant-wrapper rule or the async-executor rule reports is also
    reported by the manual-construction rule, at the [new] expression: one
    construction then yields several findings. *)
Theorem customPromisification_subsumes (text : string)
    (getFirstToken : Node -> option Token) (node : Node) :
  executorOneArgUsed node <> [] \/
  redundantNewPromiseWrapper text node <> [] \/
  asyncExecutorInPromise getFirstToken node <> [] ->
  customPromisification node = [avoidNewPromise node].
Proof.
  unfold executorOneArgUsed, redundantNewPromiseWrapper, asyncExecutorInPromise,
    customPromisification.
  destruct node as [| |? ? ?|i callee arguments| | | | | | | |];
    try (intros [H|[H|H]]; now elim H).
  destruct (is_named "Promise" callee); simpl;
    [|intros [H|[H|H]]; now elim H].
  destruct (length arguments =? 1); simpl;
    [|intros [H|[H|H]]; now elim H].
  destruct arguments as [|executor rest]; [intros [H|[H|H]]; now elim H|].
  destruct executor; try (intros [H|[H|H]]; now elim H).
  destruct kind; [intros [H|[H|H]]; now elim H|reflexivity|reflexivity].
Qed.

(** [new Promise(async (resolve) => { resolve(v); })]: reported by all
    four rules. *)
Definition async_single_arm : Node :=
  NewExpression {| range := (0, 45); line := 1; column := 1 |}
    (Identifier (at_ 1 5) "Promise")
    [ Function_ {| range := (12, 44); line := 1; column := 13 |}
        ArrowFunctionExpression true None
        [Identifier (at_ 1 20) "resolve"]
        (BlockStatement (at_ 1 32)
           [ExpressionStatement (at_ 1 34)
              (CallExpression (at_ 1 34) (Identifier (at_ 1 34) "resolve")
                 [Identifier {| range := (42, 43); line := 1; column := 43 |} "v"])]) ].

Lemma customPromisification_subsumes_witness :
  customPromisification async_single_arm = [avoidNewPromise async_single_arm].
Proof.
  apply (customPromisification_subsumes
           "new Promise(async (resolve) => { resolve(v); })"
           sample_getFirstToken async_single_arm).
  left. discriminate.
Defined.

(** *** Uses at statement level *)

Lemma occurs_child name n k c is_property :
  shadows name n = false ->
  In (k, c) (entries n) ->
  occurs name c (is_property_name n k) = true ->
  occurs name n is_property = true.
Proof.
  intros Hs Hin Hc. rewrite occurs_children, Hs.
  destruct (is_named name n && negb is_property); [reflexivity|].
  apply existsb_exists. exists (k, c). split; [exact Hin|exact Hc].
Qed.

Lemma occurs_call_statement name bi stmts si ci fi args :
  In (ExpressionStatement si (CallExpression ci (Identifier fi name) args)) stmts ->
  occurs name (BlockStatement bi stmts) false = true.
Proof.
  intros Hin.
  eapply (occurs_child name _ "body"); [reflexivity| |].
  - simpl. apply in_map_iff. eexists. split; [reflexivity|exact Hin].
  - eapply (occurs_child name _ "expression"); [reflexivity|simpl; now left|].
    eapply (occurs_child name _ "callee"); [reflexivity|simpl; now left|].
    rewrite occurs_children. simpl. now rewrite String.eqb_refl.
Qed.

(** X13: an executor whose block calls both of its first two parameters
    at statement level ([resolve(...)] and [reject(...)], whatever else
    the block holds) is not reported by the single-arm rule. *)
Theorem both_arms_called_not_reported (i ci fi bi r1 j1 : Info)
    (arrow a : bool) (id : option Node) (resolve reject : string)
    (more_params stmts : list Node)
    (s1 c1 f1 s2 c2 f2 : Info) (args1 args2 : list Node) :
  resolve <> ""%string -> reject <> ""%string ->
  In (ExpressionStatement s1 (CallExpression c1 (Identifier f1 resolve) args1)) stmts ->
  In (ExpressionStatement s2 (CallExpression c2 (Identifier f2 reject) args2)) stmts ->
  executorOneArgUsed
    (NewExpression i (Identifier ci "Promise")
       [Function_ fi (if arrow then ArrowFunctionExpression else FunctionExpression)
          a id (Identifier r1 resolve :: Identifier j1 reject :: more_params)
          (BlockStatement bi stmts)]) = [].
Proof.
  intros Hr Hj H1 H2. unfold executorOneArgUsed. simpl.
  unfold uses, param_name. simpl.
  apply String.eqb_neq in Hr, Hj. rewrite Hr, Hj.
  rewrite !isIdentifierUsed_occurs.
  rewrite (occurs_call_statement resolve bi stmts s1 c1 f1 args1 H1).
  rewrite (occurs_call_statement reject bi stmts s2 c2 f2 args2 H2).
  simpl. now destruct arrow.
Qed.

Lemma both_arms_called_not_reported_witness :
  executorOneArgUsed
    (NewExpression (at_ 1 1) (Identifier (at_ 1 5) "Promise")
       [Function_ (at_ 1 13) ArrowFunctionExpression false None
          [Identifier (at_ 1 14) "resolve"; Identifier (at_ 1 23) "reject"]
          (BlockStatement (at_ 1 34)
             [ExpressionStatement (at_ 2 3)
                (CallExpression (at_ 2 3) (Identifier (at_ 2 3) "resolve")
                   [Identifier (at_ 2 11) "v"]);
              ExpressionStatement (at_ 3 3)
                (CallExpression (at_ 3 3) (Identifier (at_ 3 3) "reject")
                   [Identifier (at_ 3 10) "e"])])]) = [].
Proof.
  apply (both_arms_called_not_reported (at_ 1 1) (at_ 1 5) (at_ 1 13) (at_ 1 34)
           (at_ 1 14) (at_ 1 23) true false None "resolve" "reject" []
           _ (at_ 2 3) (at_ 2 3) (at_ 2 3) (at_ 3 3) (at_ 3 3) (at_ 3 3)
           [Identifier (at_ 2 11) "v"] [Identifier (at_ 3 10) "e"]).
  - discriminate.
  - discriminate.
  - now left.
  - right. now left.
Defined.

(** *** The redundant-wrapper rule beyond the plain forwarding executor *)

Lemma find_after_prefix {A} (p : A -> bool) (before_ : list A) (x : A) (after : list A) :
  forallb (fun y => negb (p y)) before_ = true -> p x = true ->
  List.find p (before_ ++ x :: after) = Some x.
Proof.
  induction before_ as [|y before_ IH]; simpl; intros Hb Hx.
  - now rewrite Hx.
  - apply andb_prop in Hb as [Hy Hb]. apply negb_true_iff in Hy.
    rewrite Hy. now apply IH.
Qed.

(** X14: the first test of the redundant-wrapper rule looks only at the
    first expression statement of the block and only requires the first
    argument of [.then] to be the first parameter.  So an executor whose
    block holds other statements around [inner.then(resolve, ...)], or
    that does not forward its second parameter, is reported as well, and
    the fix replaces the whole construction by the text of [inner]: the
    other statements are not kept. *)
Theorem redundantWrapper_first_statement (text : string)
    (i ci fi bi si ti mi pi r1 r2 : Info) (arrow a computed : bool)
    (id : option Node) (resolve : string)
    (more_params more_args before_ after : list Node) (inner : Node) :
  let thenCall :=
    CallExpression ti (MemberExpression mi inner (Identifier pi "then") computed)
      (Identifier r2 resolve :: more_args) in
  let executor :=
    Function_ fi (if arrow then ArrowFunctionExpression else FunctionExpression)
      a id (Identifier r1 resolve :: more_params)
      (BlockStatement bi (before_ ++ ExpressionStatement si thenCall :: after)) in
  let node := NewExpression i (Identifier ci "Promise") [executor] in
  forallb (fun s => negb (is_expression_statement s)) before_ = true ->
  getText text inner <> ""%string ->
  redundantNewPromiseWrapper text node =
    [ {| r_node := node;
         r_messageId := "redundantWrapper";
         r_fix := Some {| fix_range := range i; fix_text := getText text inner |} |} ].
Proof.
  intros thenCall executor node Hbefore Hne.
  assert (Hfirst :
    forwardsThroughThen text (Identifier r1 resolve :: more_params)
      (BlockStatement bi (before_ ++ ExpressionStatement si thenCall :: after)) =
    (true, Some (getText text inner))).
  { unfold forwardsThroughThen.
    rewrite (find_after_prefix is_expression_statement before_
               (ExpressionStatement si thenCall) after Hbefore eq_refl).
    unfold thenCall. simpl. rewrite String.eqb_refl.
    destruct more_args as [|arg1 more_args]; [reflexivity|].
    destruct more_params as [|p1 more_params]; [reflexivity|].
    destruct p1; try reflexivity. now destruct (is_named name arg1). }
  unfold redundantNewPromiseWrapper, node, executor. simpl.
  rewrite Hfirst. simpl.
  destruct (String.eqb_spec (getText text inner) "") as [E|_]; [contradiction|].
  now destruct arrow.
Qed.

(** [new Promise(resolve => { const t = 1; p.then(resolve); done(); })] *)
Lemma redundantWrapper_first_statement_witness :
  let src := "new Promise(resolve => { const t = 1; p.then(resolve); done(); })"%string in
  let span s e := {| range := (s, e); line := 1; column := S s |} in
  let p := Identifier (span 38 39) "p" in
  let thenCall :=
    CallExpression (span 38 53) (MemberExpression (span 38 44) p (Identifier (span 40 44) "then") false)
      [Identifier (span 45 52) "resolve"] in
  let decl := Other (span 25 37) "VariableDeclaration" [] in
  let done := ExpressionStatement (span 55 62)
                (CallExpression (span 55 61) (Identifier (span 55 59) "done") []) in
  let executor :=
    Function_ (span 12 64) ArrowFunctionExpression false None
      [Identifier (span 12 19) "resolve"]
      (BlockStatement (span 23 64) [decl; ExpressionStatement (span 38 54) thenCall; done]) in
  let node := NewExpression (span 0 65) (Identifier (span 4 11) "Promise") [executor] in
  redundantNewPromiseWrapper src node =
    [ {| r_node := node; r_messageId := "redundantWrapper";
         r_fix := Some {| fix_range := (0, 65); fix_text := "p" |} |} ].
Proof.
  intros src span p thenCall decl done executor node.
  refine (redundantWrapper_first_statement src (span 0 65) (span 4 11) (span 12 64)
            (span 23 64) (span 38 54) (span 38 53) (span 38 44) (span 40 44)
            (span 12 19) (span 45 52) true false false None "resolve" [] []
            [decl] [done] p _ _).
  - reflexivity.
  - discriminate.
Defined.

(** the kinds of argument the second test accepts *)
Definition forwardable (arg : Node) : bool :=
  match arg with
  | Identifier _ _ | CallExpression _ _ _ | MemberExpression _ _ _ _ => true
  | _ => false
  end.

(** X15: for an executor whose block is the single statement
    [resolve(arg)], [resolve] being its first parameter, the
    redundant-wrapper rule reports the construction exactly when [arg] is
    an identifier, a call or a member expression (with non-empty text),
    and the fix then replaces the construction by the text of [arg]; any
    other argument, a literal for instance, is not reported. *)
Theorem redundantWrapper_direct_resolve (text : string)
    (i ci fi bi si ti r1 r2 : Info) (arrow a : bool) (id : option Node)
    (resolve : string) (more_params : list Node) (arg : Node) :
  let executor :=
    Function_ fi (if arrow then ArrowFunctionExpression else FunctionExpression)
      a id (Identifier r1 resolve :: more_params)
      (BlockStatement bi
         [ExpressionStatement si (CallExpression ti (Identifier r2 resolve) [arg])]) in
  let node := NewExpression i (Identifier ci "Promise") [executor] in
  redundantNewPromiseWrapper text node =
    if forwardable arg && negb (String.eqb (getText text arg) "")
    then [ {| r_node := node;
              r_messageId := "redundantWrapper";
              r_fix := Some {| fix_range := range i; fix_text := getText text arg |} |} ]
    else [].
Proof.
  intros executor node.
  unfold redundantNewPromiseWrapper, node, executor. simpl.
  unfold resolvesDirectly. simpl. rewrite String.eqb_refl.
  destruct arrow; destruct arg; simpl; try reflexivity;
    now destruct (String.eqb (getText text _) "").
Qed.

(** *** Awaits under a loop *)

(** X16: once an ordinary loop is among the ancestors, every await
    expression below is reported, each exactly once and in traversal
    order: neither a function nor a [for await] loop in between exempts
    it. *)
Theorem awaitInLoop_reports_all_under_loop (ancestors : list Node) (n : Node) :
  existsb ordinary_loop ancestors = true ->
  traverse awaitInLoop ancestors n = List.map noAwaitInLoop (awaits n).
Proof.
  intros H. now rewrite awaitInLoop_reports, H, enclosed_awaits_under.
Qed.

(** [while (more) { run(async () => { for await (const x of xs) { await
    next(); } }); }], seen from the body of the [while] loop *)
Lemma awaitInLoop_reports_all_under_loop_witness :
  let inner := Loop (at_ 2 20) (ForOfStatement true)
                 [Identifier (at_ 2 37) "x"; Identifier (at_ 2 42) "xs"]
                 (BlockStatement (at_ 2 46) [ExpressionStatement (at_ 3 5) sample_await]) in
  let callback := Function_ (at_ 2 7) ArrowFunctionExpression true None []
                    (BlockStatement (at_ 2 19) [inner]) in
  let body := BlockStatement (at_ 1 14)
                [ExpressionStatement (at_ 2 3)
                   (CallExpression (at_ 2 3) (Identifier (at_ 2 3) "run") [callback])] in
  traverse awaitInLoop
    [Loop (at_ 1 1) WhileStatement [Identifier (at_ 1 8) "more"] body] body
  = [noAwaitInLoop sample_await].
Proof.
  intros inner callback body.
  apply (awaitInLoop_reports_all_under_loop
           [Loop (at_ 1 1) WhileStatement [Identifier (at_ 1 8) "more"] body] body).
  reflexivity.
Defined.

End RuleFacts.

(** * The [fix] command of the command line

    [async-doctor fix --id n] runs the analysis again, looks the issue up,
    removes the [await] keyword at its position, runs the tests of the
    project and writes the old content back when they fail. *)

Module Fixer.
Import Analyzer.

(** ** The string methods used *)

(** how [slice] reads an index of a string of length [len] *)
Definition clamp (len i : Z) : Z :=
  if (i <? 0)%Z then Z.max (len + i) 0 else Z.min i len.

(** [s.slice(start, end)]; [s.slice(start)] when [end_] is [None] *)
Definition slice (s : string) (start : Z) (end_ : option Z) : string :=
  let len := Z.of_nat (String.length s) in
  let from := clamp len start in
  let to := match end_ with Some e => clamp len e | None => len end in
  String.substring (Z.to_nat from) (Z.to_nat (to - from)) s.

(** [s.charAt(pos)] *)
Definition charAt (s : string) (pos : Z) : string :=
  if (pos <? 0)%Z then EmptyString
  else match String.get (Z.to_nat pos) s with
       | Some c => String c EmptyString
       | None => EmptyString
       end.

(** ** The edit of the line

    [lineText] after the edit, or [None] when the five characters at
    [colIndex] are not [await]. *)
Definition removeAwait (lineText : string) (colIndex : Z) : option string :=
  if String.eqb (slice lineText colIndex (Some (colIndex + 5)%Z)) "await" then
    let after := charAt lineText (colIndex + 5) in
    let removeCount := if String.eqb after " " then 6%Z else 5%Z in
    Some (String.append (slice lineText 0 (Some colIndex))
                        (slice lineText (colIndex + removeCount) None))
  else None.

(** [rest] without one leading space *)
Definition skip_space (rest : string) : string :=
  match rest with
  | String c rest' => if Ascii.eqb c " " then rest' else rest
  | EmptyString => rest
  end.

(** ** The command *)

Inductive Message : Type :=
| NotFound (issueId : Z)
| NotFixable (issueId : Z) (pattern : string)
| Applied (issueId : Z)
| Reverted (issueId : Z)
| Succeeded (issueId : Z)
| TestError (e : exn)
| AwaitNotFound.

(** how the action ends: it returns, [process.exit(code)] ends the
    process, or an exception leaves it *)
Inductive Ending : Type :=
| Finished
| Exit (code : Z)
| Rejected (e : exn).

Record Sys : Type := {
  disk : gmap string string;
  console : list Message
}.

Definition log (m : Message) (w : Sys) : Sys :=
  {| disk := disk w; console := console w ++ [m] |}.

(** [lines[i]] *)
Definition at_index (lines : list string) (i : Z) : option string :=
  if (i <? 0)%Z then None else lines !! Z.to_nat i.

Definition newline : string := String (ascii_of_nat 10) EmptyString.

Section Command.

(** what [runAnalysis(process.cwd())] gives *)
Variable results : outcome (list Finding).
(** whether writing [data] to [file] fails on a given disk *)
Variable write_fault : string -> string -> gmap string string -> option exn.
(** [spawnSync('npm', ['test'])] on a given disk: the exit status ([None]
    when a signal ended the run) and the disk the tests leave *)
Variable npm_test : gmap string string -> outcome (option Z) * gmap string string.

Definition readFileSync (file : string) (w : Sys) : outcome string :=
  match disk w !! file with
  | Some content => Returns content
  | None => Throws (Error "ENOENT")
  end.

Definition writeFileSync (file data : string) (w : Sys) : outcome unit * Sys :=
  match write_fault file data (disk w) with
  | Some e => (Throws e, w)
  | None => (Returns tt, {| disk := <[file := data]> (disk w); console := console w |})
  end.

(** the [catch] block around the run of the tests *)
Definition onTestError (filePath fileContent : string) (err : exn) (w : Sys)
  : Ending * Sys :=
  match writeFileSync filePath fileContent w with
  | (Throws e, w') => (Rejected e, w')
  | (Returns _, w') => (Exit 1, log (TestError err) w')
  end.

(** the [try] block: run the tests, write the old content back unless
    they pass *)
Definition runTests (issueId : Z) (filePath fileContent : string) (w : Sys)
  : Ending * Sys :=
  let (res, after) := npm_test (disk w) in
  let w1 := {| disk := after; console := console w |} in
  match res with
  | Throws err => onTestError filePath fileContent err w1
  | Returns status =>
      if match status with Some 0%Z => false | _ => true end then
        match writeFileSync filePath fileContent w1 with
        | (Throws err, w2) => onTestError filePath fileContent err w2
        | (Returns _, w2) => (Exit 1, log (Reverted issueId) w2)
        end
      else (Finished, log (Succeeded issueId) w1)
  end.

(** what the command writes for [fileContent] when the issue is at
    [line_] and [column_] *)
Definition edited (fileContent : string) (line_ column_ : Z) : outcome (option string) :=
  let lines := Correlator.split_lines fileContent in
  let lineIndex := (line_ - 1)%Z in
  match at_index lines lineIndex with
  | None => Throws (Error "TypeError: Cannot read properties of undefined")
  | Some lineText =>
      match removeAwait lineText (column_ - 1) with
      | Some lineText' =>
          Returns (Some (String.concat newline (<[Z.to_nat lineIndex := lineText']> lines)))
      | None => Returns None
      end
  end.

Definition fixAction (issueId : Z) (w : Sys) : Ending * Sys :=
  match results with
  | Throws e => (Rejected e, w)
  | Returns results =>
      match Discovery.findIssue issueId results with
      | None => (Exit 1, log (NotFound issueId) w)
      | Some issue =>
          if negb (fixable issue) then
            (Exit 0, log (NotFixable issueId (pattern issue)) w)
          else
            let filePath := file issue in
            match readFileSync filePath w with
            | Throws e => (Rejected e, w)
            | Returns fileContent =>
                match edited fileContent (line issue) (column issue) with
                | Throws e => (Rejected e, w)
                | Returns None => (Finished, log AwaitNotFound w)
                | Returns (Some next) =>
                    match writeFileSync filePath next w with
                    | (Throws e, w1) => (Rejected e, w1)
                    | (Returns _, w1) =>
                        runTests issueId filePath fileContent (log (Applied issueId) w1)
                    end
                end
            end
      end
  end.

End Command.

(** ** The edit removes the keyword and one space *)

Lemma substring_length (s : string) : forall n m,
  String.length (String.substring n m s) = Nat.min m (String.length s - n).
Proof.
  induction s as [|c s IH]; intros [|n] [|m]; simpl; try reflexivity.
  - now rewrite IH, Nat.sub_0_r.
  - apply IH.
  - apply IH.
Qed.

Lemma substring_split (s : string) : forall n m,
  n + m <= String.length s ->
  s = String.append (String.substring 0 n s)
        (String.append (String.substring n m s)
           (String.substring (n + m) (String.length s - (n + m)) s)).
Proof.
  induction s as [|c s IH]; intros n m Hle.
  - simpl in Hle. assert (n = 0) as -> by lia. assert (m = 0) as -> by lia. reflexivity.
  - destruct n as [|n].
    + destruct m as [|m].
      * change (String c s = String.substring 0 (String.length (String c s)) (String c s)).
        simpl. f_equal. specialize (IH 0 0 ltac:(lia)). simpl in IH.
        rewrite Nat.sub_0_r in IH.
        destruct s; [reflexivity|]. exact IH.
      * simpl in Hle. specialize (IH 0 m ltac:(lia)).
        change (String c s =
                String c (String.append (String.substring 0 m s)
                            (String.substring (0 + S m) (String.length (String c s) - (0 + S m))
                               (String c s)))).
        f_equal. simpl.
        assert (E : String.substring 0 0 s = EmptyString) by now destruct s.
        rewrite E in IH. exact IH.
    + simpl in Hle. specialize (IH n m ltac:(lia)).
      change (String c s =
              String c (String.append (String.substring 0 n s)
                          (String.append (String.substring n m s)
                             (String.substring (n + m) (String.length s - (n + m)) s)))).
      now f_equal.
Qed.

Lemma substring_prefix (p r : string) :
  String.substring 0 (String.length p) (String.append p r) = p.
Proof.
  induction p as [|c p IH].
  - now destruct r.
  - change (String c (String.substring 0 (String.length p) (String.append p r)) = String c p).
    now rewrite IH.
Qed.

Lemma substring_skip (p r : string) (n m : nat) :
  String.substring (String.length p + n) m (String.append p r) = String.substring n m r.
Proof.
  induction p as [|c p IH]; [reflexivity|]. exact IH.
Qed.

Lemma substring_whole (s : string) :
  String.substring 0 (String.length s) s = s.
Proof. induction s as [|c s IH]; simpl; [reflexivity | now rewrite IH]. Qed.

Lemma get_skip (p r : string) (n : nat) :
  String.get (String.length p + n) (String.append p r) = String.get n r.
Proof. induction p as [|c p IH]; [reflexivity | exact IH]. Qed.

Lemma append_length (p r : string) :
  String.length (String.append p r) = String.length p + String.length r.
Proof. induction p as [|c p IH]; [reflexivity|]. change (S (String.length (String.append p r)) = S (String.length p + String.length r)). now rewrite IH. Qed.

Lemma removeAwait_at (pre rest : string) :
  removeAwait (String.append pre (String.append "await" rest))
              (Z.of_nat (String.length pre)) =
  Some (String.append pre (skip_space rest)).
Proof.
  set (line := String.append pre (String.append "await" rest)).
  assert (Hlen : String.length line = String.length pre + (5 + String.length rest)).
  { unfold line. rewrite append_length, append_length. reflexivity. }
  assert (Hslice : slice line (Z.of_nat (String.length pre))
                     (Some (Z.of_nat (String.length pre) + 5)%Z) = "await"%string).
  { unfold slice, clamp. rewrite Hlen.
    destruct (Z.ltb_spec (Z.of_nat (String.length pre)) 0); [lia|].
    destruct (Z.ltb_spec (Z.of_nat (String.length pre) + 5) 0); [lia|].
    rewrite !Z.min_l by lia.
    replace (Z.to_nat (Z.of_nat (String.length pre))) with (String.length pre + 0) by lia.
    replace (Z.to_nat _) with 5 by lia.
    unfold line. rewrite substring_skip. now destruct rest. }
  assert (Hpre : slice line 0 (Some (Z.of_nat (String.length pre))) = pre).
  { unfold slice, clamp. rewrite Hlen.
    destruct (Z.ltb_spec (Z.of_nat (String.length pre)) 0); [lia|].
    change (0 <? 0)%Z with false. cbv iota.
    rewrite !Z.min_l by lia.
    replace (Z.to_nat (_ - _)) with (String.length pre) by lia.
    change (Z.to_nat 0) with 0.
    unfold line. apply substring_prefix. }
  assert (Hfrom : forall k, k <= String.length rest ->
            slice line (Z.of_nat (String.length pre) + Z.of_nat (5 + k)) None =
            String.substring k (String.length rest - k) rest).
  { intros k Hk. unfold slice, clamp. rewrite Hlen.
    destruct (Z.ltb_spec (Z.of_nat (String.length pre) + Z.of_nat (5 + k)) 0); [lia|].
    rewrite Z.min_l by lia.
    replace (Z.to_nat (Z.of_nat (String.length pre) + Z.of_nat (5 + k)))
      with (String.length pre + (5 + k)) by lia.
    replace (Z.to_nat _) with (String.length rest - k) by lia.
    unfold line. rewrite substring_skip.
    apply (substring_skip "await" rest k). }
  assert (Hafter : charAt line (Z.of_nat (String.length pre) + 5) =
                   match rest with String c _ => String c EmptyString | EmptyString => EmptyString end).
  { unfold charAt.
    destruct (Z.ltb_spec (Z.of_nat (String.length pre) + 5) 0); [lia|].
    replace (Z.to_nat _) with (String.length pre + 5) by lia.
    unfold line. rewrite get_skip.
    change (String.get 5 (String.append "await" rest)) with (String.get 0 rest).
    now destruct rest. }
  unfold removeAwait. rewrite Hslice, Hafter, Hpre. simpl String.eqb. cbv iota.
  f_equal. f_equal.
  destruct rest as [|c rest'].
  - change (String.eqb EmptyString " ") with false. cbv iota.
    change 5%Z with (Z.of_nat (5 + 0)). rewrite Hfrom by (simpl; lia). reflexivity.
  - unfold skip_space.
    change (String.eqb (String c EmptyString) " ") with (Ascii.eqb c " " && true)%bool.
    rewrite andb_true_r.
    destruct (Ascii.eqb c " ").
    + change 6%Z with (Z.of_nat (5 + 1)). rewrite Hfrom by (simpl; lia).
      simpl. rewrite Nat.sub_0_r. apply substring_whole.
    + change 5%Z with (Z.of_nat (5 + 0)). rewrite Hfrom by (simpl; lia).
      rewrite Nat.sub_0_r. apply substring_whole.
Qed.

Lemma removeAwait_found (lineText : string) (colIndex : Z) (out : string) :
  (0 <= colIndex)%Z ->
  removeAwait lineText colIndex = Some out ->
  exists pre rest,
    lineText = String.append pre (String.append "await" rest) /\
    Z.of_nat (String.length pre) = colIndex.
Proof.
  intros Hcol. unfold removeAwait.
  destruct (String.eqb_spec (slice lineText colIndex (Some (colIndex + 5)%Z)) "await")
    as [E|_]; [|discriminate].
  intros _.
  unfold slice, clamp in E.
  destruct (Z.ltb_spec colIndex 0); [lia|].
  destruct (Z.ltb_spec (colIndex + 5) 0); [lia|].
  pose proof (f_equal String.length E) as L.
  rewrite substring_length in L. simpl in L.
  set (n := Z.to_nat colIndex) in *.
  assert (Hn : n + 5 <= String.length lineText) by lia.
  rewrite !Z.min_l in E by lia.
  replace (Z.to_nat (colIndex + 5 - colIndex)) with 5 in E by lia.
  fold n in E.
  exists (String.substring 0 n lineText),
         (String.substring (n + 5) (String.length lineText - (n + 5)) lineText).
  split.
  - rewrite <- E. now apply substring_split.
  - rewrite substring_length. lia.
Qed.

(** X17: for a column inside the line, the edit of the [fix] command
    succeeds exactly when the line reads [pre ++ "await" ++ rest] with
    [pre] ending at the column, and the new line is then [pre] followed by
    [rest] without one leading space: nothing else of the line changes,
    and a second space after the keyword stays. *)
Theorem removeAwait_spec (lineText : string) (colIndex : Z) (out : string) :
  (0 <= colIndex)%Z ->
  removeAwait lineText colIndex = Some out <->
  exists pre rest,
    lineText = String.append pre (String.append "await" rest) /\
    Z.of_nat (String.length pre) = colIndex /\
    out = String.append pre (skip_space rest).
Proof.
  intros Hcol. split.
  - intros H. destruct (removeAwait_found _ _ _ Hcol H) as (pre & rest & -> & <-).
    exists pre, rest. repeat split.
    rewrite removeAwait_at in H. now injection H as <-.
  - intros (pre & rest & -> & <- & ->). apply removeAwait_at.
Qed.

Lemma removeAwait_spec_witness :
  removeAwait "  return await  load();" 9 = Some "  return  load();"%string <->
  exists pre rest,
    "  return await  load();"%string = String.append pre (String.append "await" rest) /\
    Z.of_nat (String.length pre) = 9%Z /\
    "  return  load();"%string = String.append pre (skip_space rest).
Proof.
  apply (removeAwait_spec "  return await  load();" 9 "  return  load();"). lia.
Defined.

(** ** The file keeps its content unless the tests pass *)

Section Safety.
Variable results : outcome (list Finding).
Variable write_fault : string -> string -> gmap string string -> option exn.
Variable npm_test : gmap string string -> outcome (option Z) * gmap string string.

Lemma onTestError_restores (filePath fileContent : string) (err : exn) (w : Sys) :
  (forall d, write_fault filePath fileContent d = None) ->
  onTestError write_fault filePath fileContent err w =
    (Exit 1, log (TestError err)
               {| disk := <[filePath := fileContent]> (disk w); console := console w |}).
Proof. intros Hw. unfold onTestError, writeFileSync. now rewrite Hw. Qed.

Lemma runTests_restores (issueId : Z) (filePath fileContent : string) (w : Sys) :
  (forall d, write_fault filePath fileContent d = None) ->
  fst (npm_test (disk w)) <> Returns (Some 0%Z) ->
  exists m,
    runTests write_fault npm_test issueId filePath fileContent w =
      (Exit 1, {| disk := <[filePath := fileContent]> (snd (npm_test (disk w)));
                  console := console w ++ [m] |}).
Proof.
  intros Hw Hfail. unfold runTests.
  destruct (npm_test (disk w)) as [res after]. simpl in *.
  destruct res as [status|err].
  - destruct status as [[| |]|]; try contradiction;
      unfold writeFileSync; rewrite Hw; simpl; eexists; reflexivity.
  - rewrite onTestError_restores by assumption. eexists. reflexivity.
Qed.

Lemma runTests_passes (issueId : Z) (filePath fileContent : string) (w : Sys) :
  fst (npm_test (disk w)) = Returns (Some 0%Z) ->
  runTests write_fault npm_test issueId filePath fileContent w =
    (Finished, {| disk := snd (npm_test (disk w));
                  console := console w ++ [Succeeded issueId] |}).
Proof.
  intros Hpass. unfold runTests.
  destruct (npm_test (disk w)) as [res after]. simpl in *. now subst res.
Qed.

(** X18: take a file whose old content can always be written back.
    Whatever issue is asked for, after the [fix] command the file of the
    issue holds its old content, character for character, unless the
    tests were run on the edited file and ended with status 0; in that
    case the command returns normally and the disk is the one the tests
    left. *)
Theorem fix_keeps_file_unless_tests_pass (issueId : Z) (w : Sys)
    (rs : list Finding) (issue : Finding) (fileContent : string) :
  results = Returns rs ->
  Discovery.findIssue issueId rs = Some issue ->
  disk w !! file issue = Some fileContent ->
  (forall d, write_fault (file issue) fileContent d = None) ->
  let ending := fst (fixAction results write_fault npm_test issueId w) in
  let w' := snd (fixAction results write_fault npm_test issueId w) in
  disk w' !! file issue = Some fileContent \/
  exists next,
    edited fileContent (line issue) (column issue) = Returns (Some next) /\
    npm_test (<[file issue := next]> (disk w)) = (Returns (Some 0%Z), disk w') /\
    ending = Finished.
Proof.
  intros Hres Hfind Hold Hwrite ending w'. subst ending w'.
  unfold fixAction. rewrite Hres, Hfind.
  destruct (fixable issue); simpl; [|now left].
  unfold readFileSync. rewrite Hold.
  destruct (edited fileContent (line issue) (column issue)) as [[next|]|e];
    simpl; [|now left|now left].
  destruct (write_fault (file issue) next (disk w)) as [e|] eqn:Ew.
  { left. unfold writeFileSync. now rewrite Ew. }
  assert (Hw1 : writeFileSync write_fault (file issue) next w =
                (Returns tt, {| disk := <[file issue := next]> (disk w);
                                console := console w |}))
    by (unfold writeFileSync; now rewrite Ew).
  rewrite Hw1. clear Hw1.
  set (w1 := log (Applied issueId) _).
  assert (Hcases : fst (npm_test (disk w1)) = Returns (Some 0%Z) \/
                   fst (npm_test (disk w1)) <> Returns (Some 0%Z)).
  { destruct (fst (npm_test (disk w1))) as [[[| |]|]|]; (now left) || (now right). }
  destruct Hcases as [Hpass|Hfail].
  - right. exists next. split; [reflexivity|].
    rewrite (runTests_passes _ _ _ _ Hpass). simpl. split; [|reflexivity].
    change (disk w1) with (<[file issue := next]> (disk w)) in *.
    destruct (npm_test _) as [res after]. simpl in *. now subst res.
  - left. destruct (runTests_restores issueId _ _ w1 Hwrite Hfail) as [m ->].
    simpl. apply lookup_insert_eq.
Qed.

End Safety.

Definition sample_issue : Finding :=
  {| id := 1; file := "/app/a.js"; line := 2; column := 10;
     pattern := "noReturnAwait"; message := "Redundant await"; fixable := true |}.

Definition sample_disk : gmap string string :=
  {[ "/app/a.js"%string :=
       String.append "async function f() {"
         (String.append newline
            (String.append "  return await load();" (String.append newline "}"))) ]}.

(** the tests fail on the edited file: the old content is back *)
Lemma fix_keeps_file_unless_tests_pass_witness :
  let results := Returns [sample_issue] in
  let write_fault := fun _ _ _ => None in
  let npm_test := fun d : gmap string string => (Returns (Some 1%Z), d) in
  let w := {| disk := sample_disk; console := [] |} in
  disk (snd (fixAction results write_fault npm_test 1 w)) !! "/app/a.js"%string =
    sample_disk !! "/app/a.js"%string.
Proof.
  intros results write_fault npm_test w.
  destruct (fix_keeps_file_unless_tests_pass results write_fault npm_test 1 w
              [sample_issue] sample_issue
              (String.append "async function f() {"
                 (String.append newline
                    (String.append "  return await load();" (String.append newline "}")))))
    as [H | (next & _ & H & _)].
  - reflexivity.
  - reflexivity.
  - reflexivity.
  - reflexivity.
  - exact H.
  - discriminate H.
Defined.

End Fixer.

(** * Replacing a function in a file

    [replaceFunctionInFile] of the server splices the lines of the new
    function into the file in place of the lines of the old one, after
    saving the old content beside the file. *)

Module Patch.
Import Correlator.

Definition LF : ascii := ascii_of_nat 10.
Definition CR : ascii := ascii_of_nat 13.

(** [lines.join('\n')] *)
Definition join (lines : list string) : string :=
  String.concat (String LF EmptyString) lines.

(** the lines of [next] *)
Definition replaced (lines : list string) (funcStart : Z)
    (currentFunc newFunc : string) : list string :=
  let currLen := length (split_lines currentFunc) in
  let startIdx := Z.max 0 (funcStart - 1) in
  let endIdx := (startIdx + Z.of_nat currLen)%Z in
  take (Z.to_nat startIdx) lines ++ split_lines newFunc ++ drop (Z.to_nat endIdx) lines.

Section Replace.
(** whether writing [data] to [file] fails on a given disk *)
Variable write_fault : string -> string -> gmap string string -> option exn.

Definition writeFileSync (file data : string) (disk : gmap string string)
  : outcome unit * gmap string string :=
  match write_fault file data disk with
  | Some e => (Throws e, disk)
  | None => (Returns tt, <[file := data]> disk)
  end.

Definition replaceFunctionInFile (absFile : string) (funcStart : Z)
    (currentFunc newFunc : string) (disk : gmap string string)
  : outcome unit * gmap string string :=
  match disk !! absFile with
  | None => (Throws (Error "ENOENT"), disk)
  | Some content =>
      let lines := split_lines content in
      let next := join (replaced lines funcStart currentFunc newFunc) in
      (* try { fs.writeFileSync(absFile + '.bak', content) } catch {} *)
      let disk1 := snd (writeFileSync (String.append absFile ".bak") content disk) in
      writeFileSync absFile next disk1
  end.

End Replace.

(** ** The lines replaced are those of the finding *)

Lemma split_lines_from_nonempty (s : string) : forall current,
  split_lines_from s current <> [].
Proof.
  induction s as [|c s IH]; intros current; simpl; [discriminate|].
  destruct (nat_of_ascii c =? 10); [discriminate|].
  destruct (nat_of_ascii c =? 13); [|apply IH].
  destruct s as [|c' s']; [apply IH|].
  destruct (nat_of_ascii c' =? 10); [discriminate|apply IH].
Qed.

(** X19: for a finding that starts at line 1 or later, the lines
    [replaceFunctionInFile] takes out are exactly the lines of the range
    [crossReference] gives the finding: the lines before [start] and the
    lines after [end] are kept in place, and the lines of the new function
    stand between them. *)
Theorem replaced_lines_are_fnRange (f : Finding) (currentFunc newFunc : string)
    (lines : list string) :
  funcSnippet f = Some currentFunc ->
  (1 <= funcStart f)%Z ->
  replaced lines (funcStart f) currentFunc newFunc =
    take (Z.to_nat (r_start (fnRange f) - 1)) lines ++
    split_lines newFunc ++
    drop (Z.to_nat (r_end (fnRange f))) lines.
Proof.
  intros Hs Hstart. unfold replaced, fnRange. rewrite Hs. simpl.
  pose proof (split_lines_from_nonempty currentFunc EmptyString) as Hne.
  fold (split_lines currentFunc) in Hne.
  destruct (split_lines currentFunc) as [|l ls] eqn:E; [contradiction|].
  cbn [length Nat.eqb].
  rewrite Z.max_r by lia.
  do 3 f_equal. lia.
Qed.

Lemma replaced_lines_are_fnRange_witness :
  let f := {| id := 1; file := "/app/a.js"; funcStart := 2;
              funcSnippet := Some (String.append "b" (String LF "c"));
              rule := "await-in-loop" |} in
  replaced ["a"; "b"; "c"; "d"]%string 2 (String.append "b" (String LF "c")) "x"
  = ["a"; "x"; "d"]%string.
Proof.
  intros f.
  exact (replaced_lines_are_fnRange f (String.append "b" (String LF "c")) "x"
           ["a"; "b"; "c"; "d"]%string eq_refl ltac:(simpl; lia)).
Defined.

(** ** Reading the file back *)

(** a line that holds no line feed and does not end in a carriage return *)
Fixpoint clean (l : string) : bool :=
  match l with
  | EmptyString => true
  | String c l' =>
      negb (nat_of_ascii c =? 10) &&
      (if nat_of_ascii c =? 13 then match l' with EmptyString => false | _ => true end
       else true) &&
      clean l'
  end.

Lemma split_clean_line (l : string) : forall current s,
  clean l = true ->
  (s = EmptyString \/ exists s', s = String LF s') ->
  split_lines_from (String.append l s) current =
  split_lines_from s (String.append current l).
Proof.
  induction l as [|c l IH]; intros current s Hc Hs.
  - now rewrite Discovery.append_nil_right.
  - cbn [clean] in Hc.
    apply andb_prop in Hc as [Hc Hl]. apply andb_prop in Hc as [Hlf Hcr].
    apply negb_true_iff in Hlf.
    change (String.append (String c l) s) with (String c (String.append l s)).
    cbn [split_lines_from]. rewrite Hlf.
    replace (String.append current (String c l))
      with (String.append (String.append current (String c EmptyString)) l)
      by (rewrite Discovery.append_assoc; reflexivity).
    destruct (nat_of_ascii c =? 13).
    + destruct l as [|c' l']; [discriminate|].
      change (String.append (String c' l') s) with (String c' (String.append l' s)).
      pose proof Hl as Hl0. cbn [clean] in Hl0. apply andb_prop in Hl0 as [Hl' _].
      apply andb_prop in Hl' as [Hlf' _]. apply negb_true_iff in Hlf'.
      rewrite Hlf'.
      change (String c' (String.append l' s)) with (String.append (String c' l') s).
      now apply IH.
    + now apply IH.
Qed.

Lemma join_cons (l l' : string) (ls : list string) :
  join (l :: l' :: ls) = String.append l (String LF (join (l' :: ls))).
Proof. reflexivity. Qed.

Lemma split_join_clean (ls : list string) : forall l,
  Forall (fun x => clean x = true) (l :: ls) ->
  split_lines_from (join (l :: ls)) EmptyString = l :: ls.
Proof.
  induction ls as [|l' ls IH]; intros l Hc.
  - unfold join. simpl String.concat.
    rewrite <- (Discovery.append_nil_right l) at 1.
    rewrite split_clean_line; [reflexivity| |now left].
    now inversion Hc.
  - inversion Hc as [|? ? Hl Hrest]; subst.
    rewrite join_cons.
    rewrite split_clean_line; [|assumption|right; eexists; reflexivity].
    change (String.append EmptyString l) with l.
    cbn [split_lines_from]. change (nat_of_ascii LF =? 10) with true. cbv iota.
    f_equal. now apply IH.
Qed.

(** X20: when [replaceFunctionInFile] returns, the file read again and
    split into lines gives exactly the spliced lines, provided none of
    them ends in a carriage return; and unless the first write failed, the
    [.bak] file beside it holds the old content. *)
Theorem replaceFunctionInFile_written
    (write_fault : string -> string -> gmap string string -> option exn)
    (absFile : string) (funcStart : Z) (currentFunc newFunc content : string)
    (disk disk' : gmap string string) :
  disk !! absFile = Some content ->
  Forall (fun l => clean l = true)
         (replaced (split_lines content) funcStart currentFunc newFunc) ->
  replaceFunctionInFile write_fault absFile funcStart currentFunc newFunc disk =
    (Returns tt, disk') ->
  (exists next,
     disk' !! absFile = Some next /\
     split_lines next = replaced (split_lines content) funcStart currentFunc newFunc) /\
  (write_fault (String.append absFile ".bak") content disk = None ->
   disk' !! String.append absFile ".bak" = Some content).
Proof.
  intros Hold Hclean. unfold replaceFunctionInFile. rewrite Hold.
  set (lines' := replaced _ _ _ _) in *.
  unfold writeFileSync at 1.
  destruct (write_fault absFile (join lines') _) as [e|]; [discriminate|].
  intros [= <-]. split.
  - exists (join lines'). split; [apply lookup_insert_eq|].
    assert (Hne : lines' <> []).
    { unfold lines', replaced.
      pose proof (split_lines_from_nonempty newFunc EmptyString) as Hn.
      fold (split_lines newFunc) in Hn.
      destruct (split_lines newFunc); [contradiction|].
      intros H. apply app_eq_nil in H as [_ H]. discriminate H. }
    destruct lines' as [|l ls]; [contradiction|].
    now apply split_join_clean.
  - intros Hbak. unfold writeFileSync. rewrite Hbak. simpl.
    assert (Hdiff : absFile <> String.append absFile ".bak").
    { intros H. apply (f_equal String.length) in H.
      revert H. clear. induction absFile as [|c a IH]; simpl; [discriminate|].
      intros [= H]. now apply IH. }
    rewrite lookup_insert_ne by exact Hdiff.
    apply lookup_insert_eq.
Qed.

Lemma replaceFunctionInFile_written_witness :
  let write_fault := fun (_ _ : string) (_ : gmap string string) => @None exn in
  let content := String.append "a" (String LF (String.append "b" (String LF "c"))) in
  let disk : gmap string string := {[ "f.js"%string := content ]} in
  let disk' := snd (replaceFunctionInFile write_fault "f.js" 2 "b" "x" disk) in
  (exists next, disk' !! "f.js"%string = Some next /\
                split_lines next = replaced (split_lines content) 2 "b" "x") /\
  (write_fault "f.js.bak"%string content disk = None ->
   disk' !! "f.js.bak"%string = Some content).
Proof.
  intros write_fault content disk disk'.
  apply (replaceFunctionInFile_written write_fault "f.js" 2 "b" "x" content disk disk').
  - reflexivity.
  - repeat constructor.
  - reflexivity.
Defined.

End Patch.

(** * The launcher of the tracer

    [async-doctor-trace [--out f] [--stacks] [--quiet] [--cwd d] [--] command...] *)

Module Launcher.

Record Args : Type := {
  out : string;
  stacks : bool;
  quiet : bool;
  cwd : option string;
  cmdParts : list string
}.

Definition set_out (v : string) (r : Args) : Args :=
  {| out := v; stacks := stacks r; quiet := quiet r; cwd := cwd r; cmdParts := cmdParts r |}.
Definition set_stacks (r : Args) : Args :=
  {| out := out r; stacks := true; quiet := quiet r; cwd := cwd r; cmdParts := cmdParts r |}.
Definition set_quiet (r : Args) : Args :=
  {| out := out r; stacks := stacks r; quiet := true; cwd := cwd r; cmdParts := cmdParts r |}.
Definition set_cwd (v : string) (r : Args) : Args :=
  {| out := out r; stacks := stacks r; quiet := quiet r; cwd := Some v; cmdParts := cmdParts r |}.

(** the iterations with [inCmd] set: every argument is pushed *)
Definition push_all (rest : list string) (r : Args) : Args :=
  {| out := out r; stacks := stacks r; quiet := quiet r; cwd := cwd r;
     cmdParts := cmdParts r ++ rest |}.

(** a string is truthy unless it is empty *)
Definition truthy (s : string) : bool := negb (String.eqb s EmptyString).

(** [a.startsWith('-')] *)
Definition starts_with_dash (a : string) : bool :=
  match a with
  | String c _ => Ascii.eqb c "-"
  | EmptyString => false
  end.

(** the loop from argument [i] on while [inCmd] is not set; [argv] is what
    is left from [i] and [r] holds the variables *)
Fixpoint scan (argv : list string) (r : Args) : Args :=
  match argv with
  | [] => r
  | a :: rest =>
      if String.eqb a "--" then push_all rest r
      else
        match rest with
        | v :: rest' =>
            if String.eqb a "--out" && truthy v then scan rest' (set_out v r)
            else if String.eqb a "--stacks" then scan rest (set_stacks r)
            else if String.eqb a "--quiet" || String.eqb a "-q" then scan rest (set_quiet r)
            else if String.eqb a "--cwd" && truthy v then scan rest' (set_cwd v r)
            else if negb (starts_with_dash a) then push_all rest (push_all [a] r)
            else scan rest r
        | [] =>
            if String.eqb a "--stacks" then scan rest (set_stacks r)
            else if String.eqb a "--quiet" || String.eqb a "-q" then scan rest (set_quiet r)
            else if negb (starts_with_dash a) then push_all rest (push_all [a] r)
            else scan rest r
        end
  end.

Definition parseArgs (argv : list string) : Args :=
  scan argv {| out := "trace.json"; stacks := false; quiet := false;
               cwd := None; cmdParts := [] |}.

(** ** Where the command starts *)

Lemma pairs_ind (P : list string -> Prop) :
  P [] ->
  (forall a, P [] -> P [a]) ->
  (forall a v rest, P (v :: rest) -> P rest -> P (a :: v :: rest)) ->
  forall l, P l.
Proof.
  intros H0 H1 H2.
  assert (H : forall l, P l /\ forall a, P (a :: l)).
  { induction l as [|v rest [IH1 IH2]].
    - split; [exact H0 | intros a; now apply H1].
    - split; [apply IH2 | intros a; apply H2; [apply IH2 | exact IH1]]. }
  intros l. apply H.
Qed.

(** [--out] and [--cwd] take the next argument as their value when it is
    a non-empty string *)
Definition takes_value (a : string) : bool :=
  String.eqb a "--out" || String.eqb a "--cwd".

Definition value_follows (rest : list string) : bool :=
  match rest with
  | v :: _ => truthy v
  | [] => false
  end.

(** [options_then pre tail]: in the arguments [pre ++ tail], every
    argument of [pre] stands in option position and is an option or the
    value of one: [--out] or [--cwd] with the value that follows it, or
    an argument that starts with a dash, is not [--] and takes no value
    (among these [--out] and [--cwd] with no value after them, and
    options the launcher does not know). *)
Inductive options_then : list string -> list string -> Prop :=
| options_done (tail : list string) : options_then [] tail
| options_value (a v : string) (pre tail : list string) :
    takes_value a = true -> truthy v = true ->
    options_then pre tail -> options_then (a :: v :: pre) tail
| options_flag (a : string) (pre tail : list string) :
    starts_with_dash a = true -> a <> "--"%string ->
    (takes_value a = true -> value_follows (pre ++ tail) = false) ->
    options_then pre tail -> options_then (a :: pre) tail.

(** what follows the options is [--] and then the command, or the command
    itself, which then does not start with a dash, or nothing *)
Definition starts_command (tail cmd : list string) : Prop :=
  tail = "--"%string :: cmd \/
  (tail = cmd /\
   match cmd with c :: _ => starts_with_dash c = false | [] => True end).

(** [cmd] is what follows the leading options of [argv] *)
Definition command_of (argv cmd : list string) : Prop :=
  exists pre tail,
    argv = pre ++ tail /\ options_then pre tail /\ starts_command tail cmd.

Lemma command_of_nil : command_of [] [].
Proof. exists [], []. repeat split; [constructor | now right]. Qed.

Lemma command_of_dashes (rest : list string) : command_of ("--"%string :: rest) rest.
Proof. exists [], ("--"%string :: rest). repeat split; [constructor | now left]. Qed.

Lemma command_of_word (a : string) (rest : list string) :
  starts_with_dash a = false -> command_of (a :: rest) (a :: rest).
Proof. intros Hd. exists [], (a :: rest). repeat split; [constructor | now right]. Qed.

Lemma command_of_value (a v : string) (argv cmd : list string) :
  takes_value a = true -> truthy v = true ->
  command_of argv cmd -> command_of (a :: v :: argv) cmd.
Proof.
  intros Ha Hv (pre & tail & -> & Ho & Hs).
  exists (a :: v :: pre), tail. repeat split; [now constructor | exact Hs].
Qed.

Lemma command_of_flag (a : string) (argv cmd : list string) :
  starts_with_dash a = true -> a <> "--"%string ->
  (takes_value a = true -> value_follows argv = false) ->
  command_of argv cmd -> command_of (a :: argv) cmd.
Proof.
  intros Hd Hdd Hv (pre & tail & -> & Ho & Hs).
  exists (a :: pre), tail. repeat split; [now constructor | exact Hs].
Qed.

Lemma scan_splits (argv : list string) : forall r,
  cmdParts r = [] -> command_of argv (cmdParts (scan argv r)).
Proof.
  induction argv as [| a IH | a v rest IH1 IH2] using pairs_ind; intros r Hr.
  - simpl. rewrite Hr. apply command_of_nil.
  - simpl.
    destruct (String.eqb_spec a "--") as [->|Hdd].
    { simpl. rewrite Hr. apply command_of_dashes. }
    destruct (String.eqb_spec a "--stacks") as [->|Hs].
    { apply command_of_flag; [reflexivity|discriminate|discriminate|].
      simpl. rewrite Hr. apply command_of_nil. }
    destruct (String.eqb_spec a "--quiet") as [->|Hq].
    { apply command_of_flag; [reflexivity|discriminate|discriminate|].
      simpl. rewrite Hr. apply command_of_nil. }
    destruct (String.eqb_spec a "-q") as [->|Hq'].
    { apply command_of_flag; [reflexivity|discriminate|discriminate|].
      simpl. rewrite Hr. apply command_of_nil. }
    simpl. destruct (starts_with_dash a) eqn:Hd; simpl.
    + apply command_of_flag; [exact Hd|exact Hdd|reflexivity|].
      rewrite Hr. apply command_of_nil.
    + rewrite Hr. simpl. now apply command_of_word.
  - cbn [scan].
    destruct (String.eqb_spec a "--") as [->|Hdd].
    { simpl. rewrite Hr. apply command_of_dashes. }
    destruct (String.eqb_spec a "--out") as [->|Ho].
    { destruct (truthy v) eqn:Hv; simpl.
      - apply command_of_value; [reflexivity|exact Hv|]. now apply IH2.
      - apply command_of_flag; [reflexivity|discriminate|intros _; exact Hv|].
        now apply IH1. }
    simpl.
    destruct (String.eqb_spec a "--stacks") as [->|Hs].
    { apply command_of_flag; [reflexivity|discriminate|discriminate|]. now apply IH1. }
    destruct (String.eqb_spec a "--quiet") as [->|Hq].
    { apply command_of_flag; [reflexivity|discriminate|discriminate|]. now apply IH1. }
    destruct (String.eqb_spec a "-q") as [->|Hq'].
    { apply command_of_flag; [reflexivity|discriminate|discriminate|]. now apply IH1. }
    simpl.
    destruct (String.eqb_spec a "--cwd") as [->|Hc].
    { destruct (truthy v) eqn:Hv; simpl.
      - apply command_of_value; [reflexivity|exact Hv|]. now apply IH2.
      - apply command_of_flag; [reflexivity|discriminate|intros _; exact Hv|].
        now apply IH1. }
    simpl. destruct (starts_with_dash a) eqn:Hd; simpl.
    + apply command_of_flag; [exact Hd|exact Hdd| |now apply IH1].
      unfold takes_value.
      destruct (String.eqb_spec a "--out"); [contradiction|].
      destruct (String.eqb_spec a "--cwd"); [contradiction|discriminate].
    + rewrite Hr. simpl. now apply command_of_word.
Qed.

Lemma scan_options (pre tail : list string) :
  options_then pre tail ->
  forall r, cmdParts r = [] ->
  exists r', cmdParts r' = [] /\ scan (pre ++ tail) r = scan tail r'.
Proof.
  induction 1 as [tail | a v pre tail Ha Hv _ IH | a pre tail Hd Hdd Hnv _ IH];
    intros r Hr.
  - now exists r.
  - change ((a :: v :: pre) ++ tail) with (a :: v :: (pre ++ tail)).
    cbn [scan]. rewrite Hv, !andb_true_r.
    unfold takes_value in Ha.
    destruct (String.eqb_spec a "--") as [->|_]; [discriminate Ha|].
    destruct (String.eqb_spec a "--out") as [->|_]; [now apply IH|].
    destruct (String.eqb_spec a "--cwd") as [->|_]; [now apply IH|discriminate Ha].
  - change ((a :: pre) ++ tail) with (a :: (pre ++ tail)).
    remember (pre ++ tail) as l eqn:El.
    unfold takes_value in Hnv.
    destruct l as [|v l']; cbn [scan];
      (destruct (String.eqb_spec a "--") as [|_]; [contradiction|]).
    + destruct (String.eqb a "--stacks"); [now apply IH|].
      destruct (String.eqb a "--quiet" || String.eqb a "-q"); [now apply IH|].
      rewrite Hd. simpl. now apply IH.
    + simpl in Hnv.
      destruct (String.eqb a "--out") eqn:Eo.
      { rewrite (Hnv eq_refl). simpl.
        destruct (String.eqb a "--stacks"); [now apply IH|].
        destruct (String.eqb a "--quiet" || String.eqb a "-q"); [now apply IH|].
        destruct (String.eqb a "--cwd"); simpl; rewrite Hd; simpl; now apply IH. }
      simpl.
      destruct (String.eqb a "--stacks"); [now apply IH|].
      destruct (String.eqb a "--quiet" || String.eqb a "-q"); [now apply IH|].
      destruct (String.eqb a "--cwd") eqn:Ec.
      { rewrite (Hnv eq_refl). simpl. rewrite Hd. simpl. now apply IH. }
      simpl. rewrite Hd. simpl. now apply IH.
Qed.

Lemma scan_command (tail cmd : list string) (r : Args) :
  starts_command tail cmd -> cmdParts r = [] -> cmdParts (scan tail r) = cmd.
Proof.
  intros [-> | [-> Hc]] Hr.
  - simpl. now rewrite Hr.
  - destruct cmd as [|c cs]; [exact Hr|].
    assert (Hnot : forall o, starts_with_dash o = true -> String.eqb c o = false).
    { intros o Ho. destruct (String.eqb_spec c o) as [->|]; [congruence|reflexivity]. }
    destruct cs as [|v cs']; cbn [scan];
      rewrite ?(Hnot "--"%string eq_refl), ?(Hnot "--out"%string eq_refl),
              ?(Hnot "--stacks"%string eq_refl), ?(Hnot "--quiet"%string eq_refl),
              ?(Hnot "-q"%string eq_refl), ?(Hnot "--cwd"%string eq_refl), Hc;
      simpl; now rewrite Hr.
Qed.

(** X21: the command [parseArgs] returns is the part of the arguments
    that follows the leading options, taken verbatim.  The arguments
    split in one way only into options, each standing in option position
    (an option that takes a value together with its value), followed by
    [--] and the command, or by a command whose first word does not start
    with a dash, or by nothing; the command so determined is the one
    returned.  So the command starts right after the first [--] read in
    option position, or at the first argument in option position that
    does not start with a dash, and it is empty only when neither
    occurs. *)
Theorem parseArgs_command_is_suffix (argv : list string) :
  command_of argv (cmdParts (parseArgs argv)) /\
  forall cmd, command_of argv cmd -> cmd = cmdParts (parseArgs argv).
Proof.
  split.
  - now apply scan_splits.
  - intros cmd (pre & tail & -> & Ho & Hs).
    unfold parseArgs.
    match goal with
    | |- _ = cmdParts (scan _ ?r0) =>
        destruct (scan_options pre tail Ho r0 eq_refl) as (r' & Hr' & E)
    end.
    rewrite E. symmetry. now apply scan_command.
Qed.

(** ** Nothing is read as an option once the command has started *)

Lemma scan_started (argv : list string) : forall r more,
  cmdParts r = [] ->
  cmdParts (scan argv r) <> [] ->
  scan (argv ++ more) r = push_all more (scan argv r).
Proof.
  assert (Hpush : forall xs ys r, push_all (xs ++ ys) r = push_all ys (push_all xs r)).
  { intros xs ys r. unfold push_all. simpl. now rewrite app_assoc. }
  induction argv as [| a IH | a v rest IH1 IH2] using pairs_ind; intros r more Hr Hne.
  - simpl in Hne. contradiction.
  - simpl in Hne |- *.
    destruct (String.eqb_spec a "--") as [->|Hdd].
    { simpl in Hne. rewrite Hr in Hne. contradiction. }
    destruct more as [|m more'].
    { unfold push_all. rewrite app_nil_r.
      destruct (String.eqb a "--stacks"); [now destruct r|].
      destruct (String.eqb a "--quiet" || String.eqb a "-q"); [now destruct r|].
      destruct (starts_with_dash a); simpl; [now destruct r|].
      now rewrite !app_nil_r. }
    destruct (String.eqb a "--stacks") eqn:E1.
    { simpl in Hne. rewrite Hr in Hne. contradiction. }
    destruct (String.eqb a "--quiet" || String.eqb a "-q") eqn:E2.
    { simpl in Hne. rewrite Hr in Hne. contradiction. }
    destruct (starts_with_dash a) eqn:Hd; simpl in Hne.
    { rewrite Hr in Hne. contradiction. }
    assert (String.eqb a "--out" = false) as ->.
    { destruct (String.eqb_spec a "--out") as [->|]; [discriminate Hd|reflexivity]. }
    assert (String.eqb a "--cwd" = false) as ->.
    { destruct (String.eqb_spec a "--cwd") as [->|]; [discriminate Hd|reflexivity]. }
    simpl. unfold push_all. simpl. now rewrite app_nil_r.
  - change ((a :: v :: rest) ++ more) with (a :: v :: (rest ++ more)).
    cbn [scan] in Hne |- *.
    destruct (String.eqb_spec a "--") as [->|Hdd].
    { change (v :: rest ++ more) with ((v :: rest) ++ more). apply Hpush. }
    destruct (String.eqb a "--out" && truthy v);
      [exact (IH2 (set_out v r) more Hr Hne)|].
    destruct (String.eqb a "--stacks");
      [exact (IH1 (set_stacks r) more Hr Hne)|].
    destruct (String.eqb a "--quiet" || String.eqb a "-q");
      [exact (IH1 (set_quiet r) more Hr Hne)|].
    destruct (String.eqb a "--cwd" && truthy v);
      [exact (IH2 (set_cwd v r) more Hr Hne)|].
    destruct (starts_with_dash a); simpl negb; cbv iota.
    + exact (IH1 r more Hr Hne).
    + change (v :: rest ++ more) with ((v :: rest) ++ more). apply Hpush.
Qed.

(** X22: once the command has started, [parseArgs] reads no further
    option: whatever is appended to the arguments, [--out], [--cwd] or
    [--] included, is appended to the command and changes nothing else. *)
Theorem parseArgs_after_command (argv more : list string) :
  cmdParts (parseArgs argv) <> [] ->
  parseArgs (argv ++ more) = push_all more (parseArgs argv).
Proof. intros H. now apply scan_started. Qed.

Lemma parseArgs_after_command_witness :
  parseArgs (["--stacks"; "npm"; "test"]%string ++ ["--out"; "x.json"; "--"]%string) =
  push_all ["--out"; "x.json"; "--"]%string (parseArgs ["--stacks"; "npm"; "test"]%string).
Proof.
  apply (parseArgs_after_command ["--stacks"; "npm"; "test"]%string
                                 ["--out"; "x.json"; "--"]%string).
  discriminate.
Defined.

End Launcher.

(** * Where a promise was created

    [captureLocation] of the tracer hook reads the stack of a fresh
    [Error] and picks the frame the event is attributed to. *)

Module StackFrames.

Inductive Origin : Type := user | library | io.

(** [hay.includes(needle)] *)
Fixpoint includes (hay needle : string) : bool :=
  String.prefix needle hay ||
  match hay with
  | String _ hay' => includes hay' needle
  | EmptyString => false
  end.

Definition isInternalFrame (line : string) : bool :=
  includes line "node:internal" ||
  includes line " internal/" ||
  includes line "(internal/" ||
  includes line "internal/process" ||
  includes line "internal/modules" ||
  includes line "async_hooks.js".

Definition isTracerFrame (line : string) : bool :=
  let norm := Correlator.slashes line in
  includes norm "/tracer/dist/" ||
  includes norm "/tracer/src/" ||
  includes norm "/hook.js" ||
  includes norm "/hook.ts" ||
  includes norm "captureLocation".

Definition truthy (s : string) : bool := negb (String.eqb s EmptyString).

(** [raw.split('\n')] *)
Fixpoint split_from (raw current : string) : list string :=
  match raw with
  | EmptyString => [current]
  | String c raw' =>
      if nat_of_ascii c =? 10 then current :: split_from raw' EmptyString
      else split_from raw' (String.append current (String c EmptyString))
  end.

Record Meta : Type := {
  location : option string;
  origin : option Origin;
  stack : option string
}.

Section Capture.
(** the normalised working directory *)
Variable CWD : string.
(** the first group of the match of the frame pattern on a line: a
    drive or an absolute path followed by [:line:col] at the end of the
    line *)
Variable frame_location : string -> option string.
(** whether the line holds one of the words fs, http, https, net, dns,
    dgram *)
Variable io_hint : string -> bool.

Definition extractFileLoc (line : string) : option string :=
  match frame_location line with
  | Some loc => if truthy loc then Some (Correlator.slashes loc) else None
  | None => None
  end.

Definition classifyOrigin (loc fullLine : option string) : Origin :=
  let given (x : option string) := match x with Some s => truthy s | None => false end in
  if negb (given loc) && negb (given fullLine) then user
  else if given loc && includes (default EmptyString loc) "/node_modules/" then library
  else if given fullLine && io_hint (default EmptyString fullLine) then io
  else if given loc && String.prefix CWD (default EmptyString loc) then user
  else library.

(** the variables of the loop *)
Definition Chosen : Type := option string * option Origin.

Definition unset (chosenLoc : option string) : bool :=
  match chosenLoc with Some s => negb (truthy s) | None => true end.

(** [for (const line of lines) ...] *)
Fixpoint scanFrames (lines : list string) (chosen : Chosen) : Chosen :=
  match lines with
  | [] => chosen
  | line :: rest =>
      if isInternalFrame line || isTracerFrame line then scanFrames rest chosen
      else
        match extractFileLoc line with
        | None => scanFrames rest chosen
        | Some loc =>
            let first :=
              if unset (fst chosen)
              then (Some loc, Some (classifyOrigin (Some loc) (Some line)))
              else chosen in
            if String.prefix CWD loc
            then (Some loc, Some (classifyOrigin (Some loc) (Some line)))   (* break *)
            else scanFrames rest first
        end
  end.

Definition captureLocation (includeStack : bool) (raw : string) : Meta :=
  let lines := List.tl (split_from raw EmptyString) in
  let chosen := scanFrames lines (None, None) in
  {| location := fst chosen; origin := snd chosen;
     stack := if includeStack then Some raw else None |}.

(** ** Which frame is chosen *)

(** the frames a location can be taken from, with the line of each *)
Definition acceptable (lines : list string) : list (string * string) :=
  omap (fun line =>
          if isInternalFrame line || isTracerFrame line then None
          else match extractFileLoc line with
               | Some loc => Some (loc, line)
               | None => None
               end) lines.

Definition under_cwd (frame : string * string) : bool := String.prefix CWD (fst frame).

(** the first acceptable frame under the working directory, or else the
    first acceptable frame *)
Definition preferred (lines : list string) : option (string * string) :=
  match List.find under_cwd (acceptable lines) with
  | Some frame => Some frame
  | None => head (acceptable lines)
  end.

Definition attributed (frame : option (string * string)) : Chosen :=
  match frame with
  | Some (loc, line) => (Some loc, Some (classifyOrigin (Some loc) (Some line)))
  | None => (None, None)
  end.

Lemma acceptable_cons (line : string) (rest : list string) :
  acceptable (line :: rest) =
  if isInternalFrame line || isTracerFrame line then acceptable rest
  else match extractFileLoc line with
       | Some loc => (loc, line) :: acceptable rest
       | None => acceptable rest
       end.
Proof.
  unfold acceptable. cbn [omap list_omap].
  destruct (isInternalFrame line || isTracerFrame line); [reflexivity|].
  now destruct (extractFileLoc line).
Qed.

Lemma slashes_nonempty (s : string) :
  truthy s = true -> truthy (Correlator.slashes s) = true.
Proof. now destruct s. Qed.

Lemma extractFileLoc_truthy (line loc : string) :
  extractFileLoc line = Some loc -> truthy loc = true.
Proof.
  unfold extractFileLoc. destruct (frame_location line) as [l|]; [|discriminate].
  destruct (truthy l) eqn:E; [|discriminate].
  intros [= <-]. now apply slashes_nonempty.
Qed.

Lemma scanFrames_chosen (lines : list string) : forall loc o,
  truthy loc = true ->
  scanFrames lines (Some loc, o) =
    match List.find under_cwd (acceptable lines) with
    | Some frame => attributed (Some frame)
    | None => (Some loc, o)
    end.
Proof.
  induction lines as [|line rest IH]; intros loc o Hloc; [reflexivity|].
  rewrite acceptable_cons. cbn [scanFrames].
  destruct (isInternalFrame line || isTracerFrame line); [now apply IH|].
  destruct (extractFileLoc line) as [l|] eqn:E; [|now apply IH].
  cbn [List.find fst unset]. rewrite Hloc. cbn [negb].
  change (under_cwd (l, line)) with (String.prefix CWD l).
  destruct (String.prefix CWD l); [reflexivity|]. now apply IH.
Qed.

Lemma scanFrames_preferred (lines : list string) :
  scanFrames lines (None, None) = attributed (preferred lines).
Proof.
  unfold preferred.
  induction lines as [|line rest IH]; [reflexivity|].
  rewrite acceptable_cons. cbn [scanFrames].
  destruct (isInternalFrame line || isTracerFrame line); [exact IH|].
  destruct (extractFileLoc line) as [l|] eqn:E; [|exact IH].
  cbn [List.find fst unset head].
  change (under_cwd (l, line)) with (String.prefix CWD l).
  destruct (String.prefix CWD l); [reflexivity|].
  rewrite scanFrames_chosen by exact (extractFileLoc_truthy _ _ E).
  now destruct (List.find under_cwd (acceptable rest)).
Qed.

Lemma acceptable_sound (lines : list string) (loc line : string) :
  In (loc, line) (acceptable lines) ->
  In line lines /\ isInternalFrame line = false /\ isTracerFrame line = false /\
  extractFileLoc line = Some loc.
Proof.
  induction lines as [|l rest IH]; [intros []|].
  rewrite acceptable_cons.
  destruct (isInternalFrame l || isTracerFrame l) eqn:Ef.
  { intros H. destruct (IH H) as (? & ? & ? & ?). repeat split; try assumption. now right. }
  apply orb_false_elim in Ef as [Hi Ht].
  destruct (extractFileLoc l) as [loc'|] eqn:E.
  - intros [[= <- <-]|H].
    + repeat split; try assumption. now left.
    + destruct (IH H) as (? & ? & ? & ?). repeat split; try assumption. now right.
  - intros H. destruct (IH H) as (? & ? & ? & ?). repeat split; try assumption. now right.
Qed.

End Capture.

Lemma slashes_no_backslash (s : string) :
  includes (Correlator.slashes s) (String (ascii_of_nat 92) EmptyString) = false.
Proof.
  induction s as [|c s IH]; [reflexivity|].
  cbn [Correlator.slashes includes]. rewrite IH, orb_false_r.
  cbn [String.prefix].
  destruct (nat_of_ascii c =? 92) eqn:E.
  - reflexivity.
  - destruct (ascii_dec (ascii_of_nat 92) c) as [<-|_]; [discriminate E|reflexivity].
Qed.

(** X23: [captureLocation] attributes the event to the first frame under
    the working directory among the frames that are neither internal nor
    of the tracer and that hold a location; when there is none, to the
    first such frame whatever its directory; and to nothing when no frame
    qualifies.  The first line of the stack is never looked at. *)
Theorem captureLocation_preferred (CWD : string)
    (frame_location : string -> option string) (io_hint : string -> bool)
    (includeStack : bool) (raw : string) :
  let meta := captureLocation CWD frame_location io_hint includeStack raw in
  let frame := preferred CWD frame_location (List.tl (split_from raw EmptyString)) in
  (location meta, origin meta) = attributed CWD io_hint frame.
Proof.
  intros meta frame. unfold meta, captureLocation. cbn [location origin].
  rewrite scanFrames_preferred. fold frame. now destruct (attributed _ _ _).
Qed.

(** X24: a location [captureLocation] records is never empty and holds no
    backslash, and it was taken from a line of the stack that is neither
    an internal frame nor a frame of the tracer. *)
Theorem captureLocation_location_sound (CWD : string)
    (frame_location : string -> option string) (io_hint : string -> bool)
    (includeStack : bool) (raw loc : string) :
  location (captureLocation CWD frame_location io_hint includeStack raw) = Some loc ->
  loc <> EmptyString /\
  includes loc (String (ascii_of_nat 92) EmptyString) = false /\
  exists line,
    In line (List.tl (split_from raw EmptyString)) /\
    isInternalFrame line = false /\
    isTracerFrame line = false /\
    extractFileLoc frame_location line = Some loc.
Proof.
  unfold captureLocation. cbn [location].
  rewrite scanFrames_preferred.
  set (lines := List.tl (split_from raw EmptyString)).
  intros Hloc.
  assert (Hin : exists line, In (loc, line) (acceptable frame_location lines)).
  { unfold preferred in Hloc.
    destruct (List.find _ _) as [[l line]|] eqn:Ef.
    - injection Hloc as <-. exists line. exact (proj1 (List.find_some _ _ Ef)).
    - destruct (acceptable frame_location lines) as [|[l line] fs]; [discriminate|].
      injection Hloc as <-. exists line. now left. }
  destruct Hin as [line Hin].
  destruct (acceptable_sound _ _ _ _ Hin) as (Hline & Hint & Htr & Hex).
  split; [|split].
  - pose proof (extractFileLoc_truthy _ _ _ Hex) as Ht. now destruct loc.
  - unfold extractFileLoc in Hex.
    destruct (frame_location line) as [l|]; [|discriminate].
    destruct (truthy l); [|discriminate].
    injection Hex as <-. apply slashes_no_backslash.
  - now exists line.
Qed.

Definition sample_stack : string :=
  String.append "Error"
    (String (ascii_of_nat 10)
       (String.append "    at captureLocation (/opt/tracer/dist/hook.js:53:17)"
          (String (ascii_of_nat 10) "    at /home/me/app/main.js:12:5"))).

(** a stand-in for the frame pattern: what follows [at ] *)
Definition sample_frame_location (line : string) : option string :=
  if String.prefix "    at /" line
  then Some (String.substring 7 (String.length line - 7) line)
  else None.

Lemma captureLocation_location_sound_witness :
  let loc := "/home/me/app/main.js:12:5"%string in
  loc <> EmptyString /\
  includes loc (String (ascii_of_nat 92) EmptyString) = false /\
  exists line,
    In line (List.tl (split_from sample_stack EmptyString)) /\
    isInternalFrame line = false /\
    isTracerFrame line = false /\
    extractFileLoc sample_frame_location line = Some loc.
Proof.
  apply (captureLocation_location_sound "/home/me/app" sample_frame_location
           (fun _ => false) false sample_stack "/home/me/app/main.js:12:5").
  reflexivity.
Defined.

End StackFrames.

(** * The rule on promises returned from reactions

    [reactionReturnsPromise] looks at [return Promise.resolve(x)] and
    [return Promise.reject(e)] below a callback of [.then], [.catch] or
    [.finally], and at arrow callbacks whose body is such a call. *)

Module Reactions.
Import Ast Rules.

Definition isPromiseStatic (call : Node) (method : string) : bool :=
  match call with
  | CallExpression _ (MemberExpression _ object property _) _ =>
      match object with
      | Identifier _ name =>
          String.eqb name "Promise" &&
          match property with
          | Identifier _ p => String.eqb p method
          | _ => false
          end
      | _ => false
      end
  | _ => false
  end.

Definition isThenCatchFinallyMember (expr : Node) : bool :=
  match expr with
  | MemberExpression _ _ (Identifier _ p) _ =>
      String.eqb p "then" || String.eqb p "catch" || String.eqb p "finally"
  | _ => false
  end.

(** each ancestor with its [parent]; the first one has none *)
Fixpoint with_parents (parent : option Node) (ancestors : list Node)
  : list (option Node * Node) :=
  match ancestors with
  | [] => []
  | n :: rest => (parent, n) :: with_parents (Some n) rest
  end.

(** the test of [find]: a function expression or arrow that is an
    argument of a call of [.then], [.catch] or [.finally] *)
Definition reaction (pa : option Node * Node) : bool :=
  match fst pa with
  | Some (CallExpression _ (MemberExpression _ _ _ _ as callee) _) =>
      match snd pa with
      | Function_ _ ArrowFunctionExpression _ _ _ _
      | Function_ _ FunctionExpression _ _ _ _ => isThenCatchFinallyMember callee
      | _ => false
      end
  | _ => false
  end.

(** the name of the method called, [resolve] or [reject] *)
Definition property_name (call : Node) : string :=
  match call with
  | CallExpression _ (MemberExpression _ _ (Identifier _ p) _) _ => p
  | _ => EmptyString
  end.

Definition report (node : Node) (fix_ : option Fix) : Report :=
  {| r_node := node; r_messageId := "noReturnPromiseInReaction"; r_fix := fix_ |}.

Section Rule.
Variable text : string.

(** [arg.arguments.length > 0 ? src.getText(arg.arguments[0]) : 'undefined'] *)
Definition inner (args : list Node) : string :=
  match args with
  | a :: _ => getText text a
  | [] => "undefined"
  end.

(** the listener [ReturnStatement(node)] *)
Definition returnStatement (ancestors : list Node) (node : Node) : list Report :=
  match node with
  | ReturnStatement _ (Some (CallExpression _ _ args as arg)) =>
      match List.find reaction (List.rev (with_parents None ancestors)) with
      | None => []
      | Some _ =>
          if isPromiseStatic arg "resolve" || isPromiseStatic arg "reject" then
            [ report arg
                (Some (if String.eqb (property_name arg) "resolve"
                       then replaceText node
                              (String.append "return " (String.append (inner args) ";"))
                       else replaceText node
                              (String.append "throw " (String.append (inner args) ";")))) ]
          else []
      end
  | _ => []
  end.

Definition formatArrowParams (params : list Node) : string :=
  match params with
  | [] => "()"
  | [Identifier _ _ as p] => getText text p
  | _ => String.append "("
           (String.append (String.concat ", " (List.map (getText text) params)) ")")
  end.

(** [node.expression]: the parser sets it when the body of the arrow is
    not a block *)
Definition expression (body : Node) : bool :=
  match body with BlockStatement _ _ => false | _ => true end.

(** the listener ['ArrowFunctionExpression:exit'(node)] *)
Definition arrowExit (ancestors : list Node) (node : Node) : list Report :=
  match node with
  | Function_ _ ArrowFunctionExpression async_ _ params body =>
      match List.last (List.map Some ancestors) None with
      | Some (CallExpression _ (MemberExpression _ _ _ _ as callee) _) =>
          if negb (isThenCatchFinallyMember callee) then []
          else
            match body with
            | CallExpression _ _ args =>
                if negb (isPromiseStatic body "resolve") && negb (isPromiseStatic body "reject")
                then []
                else
                  [ report body
                      (if String.eqb (property_name body) "resolve"
                       then Some (replaceText body (inner args))
                       else if negb (expression body) then None
                       else Some (replaceText node
                              (String.append (if async_ then "async " else "")
                                 (String.append (formatArrowParams params)
                                    (String.append " => { throw "
                                       (String.append (inner args) "; }")))))) ]
            | _ => []
            end
      | _ => []
      end
  | _ => []
  end.

End Rule.

(** ** A return below a reaction, however deep *)

Lemma find_rev_existsb {A} (p : A -> bool) (l : list A) :
  match List.find p (List.rev l) with Some _ => true | None => false end = existsb p l.
Proof.
  rewrite <- existsb_rev.
  induction (List.rev l) as [|x xs IH]; [reflexivity|].
  simpl. now destruct (p x).
Qed.

(** X25: a statement [return Promise.resolve(x)] or [return
    Promise.reject(e)] is reported exactly when some ancestor, however far
    up, is a function expression or arrow passed to [.then], [.catch] or
    [.finally]; functions in between, which the statement really returns
    from, do not matter.  The fix rewrites the statement to [return x;],
    respectively [throw e;]. *)
Theorem return_below_reaction_reported (text : string) (ancestors : list Node)
    (i ci mi oi pi : Info) (method : string) (computed : bool) (args : list Node) :
  method = "resolve"%string \/ method = "reject"%string ->
  let arg := CallExpression ci
               (MemberExpression mi (Identifier oi "Promise") (Identifier pi method) computed)
               args in
  let node := ReturnStatement i (Some arg) in
  returnStatement text ancestors node =
    if existsb reaction (with_parents None ancestors)
    then [ report arg
             (Some {| fix_range := range i;
                      fix_text := String.append
                                    (if String.eqb method "resolve" then "return " else "throw ")
                                    (String.append (inner text args) ";") |}) ]
    else [].
Proof.
  intros Hm arg node. unfold returnStatement, node, arg.
  rewrite <- find_rev_existsb.
  destruct (List.find reaction _); [|reflexivity].
  destruct Hm as [-> | ->]; reflexivity.
Qed.

(** [p.then(() => { function g() { return Promise.reject(e); } })]: the
    return of [g] is rewritten to [throw e;] *)
Lemma return_below_reaction_reported_witness :
  let src := "p.then(() => { function g() { return Promise.reject(e); } })"%string in
  let span s e := {| range := (s, e); line := 1; column := S s |} in
  let e_ := Identifier (span 52 53) "e" in
  let arg := CallExpression (span 37 54)
               (MemberExpression (span 37 51) (Identifier (span 37 44) "Promise")
                  (Identifier (span 45 51) "reject") false) [e_] in
  let node := ReturnStatement (span 30 55) (Some arg) in
  let gBody := BlockStatement (span 28 57) [node] in
  let g := Function_ (span 15 57) FunctionDeclaration false
             (Some (Identifier (span 24 25) "g")) [] gBody in
  let cbBody := BlockStatement (span 13 59) [g] in
  let cb := Function_ (span 7 59) ArrowFunctionExpression false None [] cbBody in
  let call := CallExpression (span 0 60)
                (MemberExpression (span 0 6) (Identifier (span 0 1) "p")
                   (Identifier (span 2 6) "then") false) [cb] in
  returnStatement src [call; cb; cbBody; g; gBody] node =
    [ report arg (Some {| fix_range := (30, 55); fix_text := "throw e;" |}) ].
Proof.
  intros src span e_ arg node gBody g cbBody cb call.
  exact (return_below_reaction_reported src [call; cb; cbBody; g; gBody]
           (span 30 55) (span 37 54) (span 37 51) (span 37 44) (span 45 51)
           "reject" false [e_] (or_intror eq_refl)).
Defined.

End Reactions.
